(** * Layr: plan-generation orchestration

    A shallow embedding of the plan-generation core of the Layr CLI:
    - the legacy planner ([src/planner.ts], [src/llmClient.ts], [src/types.ts]),
      in [Module Planner];
    - the string operations of the response sanitizer and the platform's
      [JSON.parse], in [Module Text] and [Module Json];
    - the data of the recreated implementation ([src/types]), in
      [Module Layr];
    - its retry policy, response sanitizer and provider client
      ([src/llm/mistral.ts]), in [Module Mistral];
    - the session orchestrator ([src/orchestrator.ts]), in [Module Orchestrator]
      and [Module Sessions];
    - the code generator ([src/codegen.ts]), in [Module Codegen];
    - the plan command of the CLI ([src/cli/commands/plan.ts]), in
      [Module PlanCommand].
    The vocabulary of the statements follows, then the proofs.

    JavaScript values are modelled as follows.  Step identifiers are integers
    ([Z]); [Set<number>] is a [gset Z]; the adjacency object
    [Record<number, number[]>] is a [gmap Z (list Z)]; strings are
    [string] (sequences of one-byte code units); retry delays are exact
    rationals ([Q]).  A call either returns, throws, or exhausts the fuel of
    a recursive model ([completion]). *)

From Stdlib Require Import QArith Qabs Qminmax Lqa Ascii String.
From stdpp Require Import gmap strings list relations pretty.

Local Open Scope Z_scope.

(** ** Errors and completions *)

Inductive error_class :=
  | PlainError      (* new Error(msg) *)
  | TypeErrorClass  (* raised by the engine: property of null, not iterable *)
  | SyntaxErrorClass(* raised by JSON.parse *)
  | AxiosErrorClass (* error instanceof AxiosError *)
  | ApiErrorClass.  (* error raised by the OpenAI SDK, carries .status *)

Record js_error := mkError {
  err_class : error_class;
  message : string;
  status : option Z   (* error.response?.status, or err.status *)
}.

Definition Error (msg : string) : js_error := mkError PlainError msg None.
Definition TypeError (msg : string) : js_error := mkError TypeErrorClass msg None.
Definition SyntaxError (msg : string) : js_error := mkError SyntaxErrorClass msg None.

Inductive completion (A : Type) : Type :=
  | Normal (a : A)
  | Throws (e : js_error)
  | OutOfFuel.
Arguments Normal {A} a.
Arguments Throws {A} e.
Arguments OutOfFuel {A}.

#[global] Instance completion_ret : MRet completion := λ A a, Normal a.
#[global] Instance completion_bind : MBind completion := λ A B k c,
  match c with
  | Normal a => k a
  | Throws e => Throws e
  | OutOfFuel => OutOfFuel
  end.

(** [try { c } catch (e) { h e }] *)
Definition try_catch {A} (c : completion A) (h : js_error → completion A) : completion A :=
  match c with
  | Throws e => h e
  | _ => c
  end.

Definition returns {A} (c : completion A) : Prop := ∃ a, c = Normal a.
Definition fails {A} (c : completion A) : Prop := ∃ e, c = Throws e.

(** ** The legacy planner *)

Module Planner.

Inductive Complexity := low | medium | high.

Module PlanStep.
Record t := mk {
  id : Z;
  title : string;
  description : string;
  dependencies : option (list Z);  (* [None]: the field is absent *)
  templates : option (list string);
  commands : option (list string);
  complexity : option Complexity;
  estimatedTimeMin : option Z
}.
End PlanStep.

Module Plan.
Record t := mk {
  id : string;
  title : string;
  goal : string;
  steps : list PlanStep.t;
  templates : option (list string)
}.
End Plan.

(** [s.dependencies || []] *)
Definition deps_of (s : PlanStep.t) : list Z :=
  default [] (PlanStep.dependencies s).

(** [hasUniqueIds]: [ids.length === new Set(ids).size] *)
Definition hasUniqueIds (steps : list PlanStep.t) : bool :=
  let ids := PlanStep.id <$> steps in
  bool_decide (length ids = size (list_to_set ids : gset Z)).

(** [steps.forEach(s => { graph[s.id] = s.dependencies || []; })] *)
Definition build_graph (steps : list PlanStep.t) : gmap Z (list Z) :=
  foldl (λ g s, <[PlanStep.id s := deps_of s]> g) ∅ steps.

Record dfs_state := mkState {
  visited : gset Z;
  recStack : gset Z
}.

(** The message of the [TypeError] raised when [for (const dep of graph[id])]
    meets [graph[id] === undefined]; its wording is the engine's. *)
Definition not_iterable : string := "graph[id] is not iterable".

Section Dfs.
Variable graph : gmap Z (list Z).

(** The body of [for (const dep of graph[id]) { ... }]; [rec] is the
    recursive call [dfs].  [Normal (true, _)] is [return true] from inside
    the loop, [Normal (false, st)] is the loop running to its end. *)
Fixpoint dfs_for (rec : Z → dfs_state → completion (bool * dfs_state))
    (deps : list Z) (st : dfs_state) : completion (bool * dfs_state) :=
  match deps with
  | [] => Normal (false, st)
  | dep :: rest =>
    if bool_decide (dep ∉ visited st) then
      match rec dep st with
      | Normal (true, st') => Normal (true, st')
      | Normal (false, st') =>
        if bool_decide (dep ∈ recStack st') then Normal (true, st')
        else dfs_for rec rest st'
      | Throws e => Throws e
      | OutOfFuel => OutOfFuel
      end
    else if bool_decide (dep ∈ recStack st) then Normal (true, st)
    else dfs_for rec rest st
  end.

Fixpoint dfs (fuel : nat) (id : Z) (st : dfs_state)
    : completion (bool * dfs_state) :=
  match fuel with
  | O => OutOfFuel
  | S fuel' =>
    if bool_decide (id ∉ visited st) then
      let st1 := mkState ({[id]} ∪ visited st) ({[id]} ∪ recStack st) in
      match graph !! id with
      | None => Throws (TypeError not_iterable)
      | Some deps =>
        match dfs_for (dfs fuel') deps st1 with
        | Normal (false, st') =>
          Normal (false, mkState (visited st') (recStack st' ∖ {[id]}))
        | r => r
        end
      end
    else Normal (false, mkState (visited st) (recStack st ∖ {[id]}))
  end.

(** [steps.some(s => dfs(s.id))] *)
Fixpoint some_dfs (fuel : nat) (steps : list PlanStep.t) (st : dfs_state)
    : completion bool :=
  match steps with
  | [] => Normal false
  | s :: rest =>
    match dfs fuel (PlanStep.id s) st with
    | Normal (true, _) => Normal true
    | Normal (false, st') => some_dfs fuel rest st'
    | Throws e => Throws e
    | OutOfFuel => OutOfFuel
    end
  end.
End Dfs.

(** [hasCycles].  Every recursive call of [dfs] marks a new key of [graph]
    as visited, so the recursion is at most [length steps] deep; the fuel is
    one more than that (see [hasCycles_spec]). *)
Definition hasCycles (steps : list PlanStep.t) : completion bool :=
  some_dfs (build_graph steps) (S (length steps)) steps (mkState ∅ ∅).

(** [fallbackHeuristicPlan] *)
Definition heuristic_step (i : Z) (t d : string) (deps : list Z) : PlanStep.t :=
  PlanStep.mk i t d (Some deps) None None None None.

Definition fallbackHeuristicPlan (goal : string) : Plan.t :=
  Plan.mk "local-fallback" ("Plan for: " +:+ goal) goal
    [ heuristic_step 1 "Initialize project" "Set up project structure" [];
      heuristic_step 2 "Create model" "Define data model" [1];
      heuristic_step 3 "Add routes" "Implement API routes" [2];
      heuristic_step 4 "Test project" "Write and run tests" [3] ]
    None.

(** The two checks of [generatePlan] and [refinePlan], inside their [try]:
    [if (!hasUniqueIds(plan.steps)) throw ...; if (hasCycles(plan.steps)) throw ...] *)
Definition validate (plan : Plan.t) : completion Plan.t :=
  if negb (hasUniqueIds (Plan.steps plan)) then
    Throws (Error "Step IDs must be unique")
  else
    b ← hasCycles (Plan.steps plan);
    if (b : bool) then Throws (Error "Plan has cyclic dependencies")
    else Normal plan.

(** [catch (e) { throw new Error('Invalid plan format: ' + e.message) }] *)
Definition invalid_plan_format (e : js_error) : js_error :=
  Error ("Invalid plan format: " +:+ message e).

(** A stored key counts when it is truthy: defined and non-empty. *)
Definition truthy_key (apiKey : option string) : bool :=
  match apiKey with
  | Some k => negb (String.eqb k "")
  | None => false
  end.

(** *** [LLMClient.chat]

    The first revision in [src/llmClient.ts]: five attempts, starting with a
    delay of 1000 ms (the second one has three attempts and 5000 ms). *)

Section Chat.
(** The outcome of the [n]-th call of [openai.chat.completions.create]:
    the content of the first choice ([None] when it is null), or the error
    the SDK raised. *)
Variable create : nat → js_error + option string.

(** One run of [chat]: how it completed, the delays it slept, in order,
    and how many times it called the service. *)
Record chat_run := mkChatRun {
  chat_outcome : completion string;
  chat_slept : list Z;
  chat_calls : nat
}.

(** The [while (attempt < maxAttempts)] loop; [remaining] is
    [maxAttempts - attempt]. *)
Fixpoint chat_loop (remaining attempt : nat) (delay : Z) (slept : list Z)
    : chat_run :=
  match remaining with
  | O => mkChatRun (Throws (Error "Too many requests, please try again later."))
                   slept attempt
  | S remaining' =>
    match create attempt with
    | inr c => mkChatRun (Normal (default "" c)) slept (S attempt)
    | inl err =>
      if bool_decide (status err = Some 429) then
        chat_loop remaining' (S attempt) (delay * 2) (slept ++ [delay])
      else if bool_decide (status err = Some 401) then
        mkChatRun (Throws (Error "Unauthorized: Invalid API key")) slept (S attempt)
      else mkChatRun (Throws err) slept (S attempt)
    end
  end.

Definition maxAttempts : nat := 5.

(** [chat], after [init]: without a key [init] throws. *)
Definition chat (apiKey : option string) : chat_run :=
  if truthy_key apiKey then chat_loop maxAttempts 0 1000 []
  else mkChatRun (Throws (Error "API key not found")) [] 0.
End Chat.

Section Operations.
Variable create : nat → js_error + option string.
(** [llm.parseJsonResponse<Plan>(raw)]: [JSON.parse] and an unchecked cast. *)
Variable parseJsonResponse : string → completion Plan.t.

(** The [try] block that [generatePlan] and [refinePlan] run on the reply
    of the model, with its [catch]. *)
Definition checked (raw : string) : completion Plan.t :=
  try_catch (plan ← parseJsonResponse raw; validate plan)
            (λ e, Throws (invalid_plan_format e)).

(** [generatePlan(goal)]; [apiKey] is what [readKey()] resolved to. *)
Definition generatePlan (apiKey : option string) (goal : string)
    : completion Plan.t :=
  if truthy_key apiKey then
    raw ← chat_outcome (chat create apiKey);
    checked raw
  else Normal (fallbackHeuristicPlan goal).

(** [refinePlan(plan, instruction)] *)
Definition refinePlan (apiKey : option string) (plan : Plan.t)
    (instruction : string) : completion Plan.t :=
  if truthy_key apiKey then
    raw ← chat_outcome (chat create apiKey);
    checked raw
  else Normal plan.
End Operations.

End Planner.

(** ** Text and JSON

    The string operations of [parseAndValidatePlan] work on the code units of
    a string ([list ascii]).  [JSON.parse] is the platform's; it is modelled
    as a recursive-descent parser of the JSON grammar whose strings are
    sequences of code-unit numbers, so that [\uXXXX] escapes are kept. *)

Module Text.
Local Open Scope char_scope.

Definition code (c : ascii) : nat := nat_of_ascii c.

(** The class [\s] (and the characters [trim] removes) among one-byte code
    units: TAB, LF, VT, FF, CR, SPACE and NBSP. *)
Definition is_space (c : ascii) : bool :=
  bool_decide (code c ∈ [9; 10; 11; 12; 13; 32; 160]%nat).

(** The class [[\x00-\x1F\x7F]]. *)
Definition is_control (c : ascii) : bool :=
  (code c <=? 31)%nat || (code c =? 127)%nat.

Definition is_digit (c : ascii) : bool :=
  (48 <=? code c)%nat && (code c <=? 57)%nat.

Fixpoint skip_while (p : ascii → bool) (l : list ascii) : list ascii :=
  match l with
  | c :: r => if p c then skip_while p r else l
  | [] => []
  end.

Fixpoint take_while (p : ascii → bool) (l : list ascii) : list ascii :=
  match l with
  | c :: r => if p c then c :: take_while p r else []
  | [] => []
  end.

(** [s.trim()] *)
Definition trim (l : list ascii) : list ascii :=
  rev (skip_while is_space (rev (skip_while is_space l))).

(** [s.startsWith(p)] *)
Fixpoint startsWith (p l : list ascii) : bool :=
  match p, l with
  | [], _ => true
  | a :: p', b :: l' => bool_decide (a = b) && startsWith p' l'
  | _ :: _, [] => false
  end.

(** [s.replace(/^<tag>\s*/, '')] for a literal [tag]. *)
Definition strip_leading (tag l : list ascii) : list ascii :=
  if startsWith tag l then skip_while is_space (drop (length tag) l) else l.

(** [s.replace(/\s*```$/, '')]: the match is the closing fence at the very
    end of the string together with the white space just before it. *)
Definition strip_trailing_fence (l : list ascii) : list ascii :=
  match rev l with
  | "`" :: "`" :: "`" :: r => rev (skip_while is_space r)
  | _ => l
  end.

(** The suffix of [l] that starts at the first occurrence of [c]. *)
Fixpoint from_first (c : ascii) (l : list ascii) : option (list ascii) :=
  match l with
  | [] => None
  | x :: r => if bool_decide (x = c) then Some l else from_first c r
  end.

(** [s.match(/\{[\s\S]*?\}(?=\s*$)/)].  The look-ahead forces the closing
    brace to be the last character before the trailing white space, so there
    is one candidate end; the match starts at the leftmost opening brace
    before it. *)
Definition match_object (l : list ascii) : option (list ascii) :=
  match skip_while is_space (rev l) with
  | "}" :: before => option_map (λ m, m ++ ["}"]) (from_first "{" (rev before))
  | _ => None
  end.

(** [s.replace(/ab/g, rep)] for a two-character literal pattern [ab]:
    matches are found from the left and do not overlap. *)
Fixpoint replace_pair (a b : ascii) (rep l : list ascii) : list ascii :=
  match l with
  | x :: ((y :: r) as tl) =>
    if bool_decide (x = a) && bool_decide (y = b)
    then rep ++ replace_pair a b rep r
    else x :: replace_pair a b rep tl
  | _ => l
  end.

Definition backslash : ascii := "\".
Definition quote : ascii := "034".

(** The clean-up chain of [parseAndValidatePlan]:
    [.replace(/[\x00-\x1F\x7F]/g, '').replace(/\\n/g, '\\n')
     .replace(/\\r/g, '\\r').replace(/\\t/g, '\\t').replace(/\\\\/g, '\\')].
    In the last call the pattern is two backslashes and the replacement
    string ['\\'] is one. *)
Definition strip_control (l : list ascii) : list ascii :=
  filter (λ c, is_control c = false) l.

Definition clean (l : list ascii) : list ascii :=
  replace_pair backslash backslash [backslash]
    (replace_pair backslash "t" [backslash; "t"]
      (replace_pair backslash "r" [backslash; "r"]
        (replace_pair backslash "n" [backslash; "n"]
          (strip_control l)))).

(** Steps 1 to 4 on the model's reply, up to the call of [JSON.parse]. *)
Definition fence_json : list ascii := list_ascii_of_string "```json".
Definition fence : list ascii := list_ascii_of_string "```".

Definition unfence (l : list ascii) : list ascii :=
  if startsWith fence_json l then strip_trailing_fence (strip_leading fence_json l)
  else if startsWith fence l then strip_trailing_fence (strip_leading fence l)
  else l.

Definition candidate (content : list ascii) : list ascii :=
  let jsonContent := unfence (trim content) in
  default jsonContent (match_object jsonContent).

Definition sanitize (content : list ascii) : list ascii :=
  clean (candidate content).

(** [sub] occurs in [l] as a contiguous run of code units. *)
Definition occurs (sub l : list ascii) : Prop :=
  ∃ before after, l = before ++ sub ++ after.

End Text.

Module Json.
Import Text.
Local Open Scope char_scope.

(** A string value is the sequence of its code-unit numbers; a number keeps
    its lexeme, whose value is [number_value]. *)
#[warnings="-register-all"] Inductive json :=
  | JNull
  | JBool (b : bool)
  | JNumber (lexeme : list ascii)
  | JString (s : list N)
  | JArray (elements : list json)
  | JObject (members : list (list N * json)).

Definition units (s : string) : list N := N_of_ascii <$> list_ascii_of_string s.
Definition jstring (s : string) : json := JString (units s).

Inductive parsed (A : Type) :=
  | Parsed (a : A) (rest : list ascii)
  | Malformed
  | Deeper.   (* the fuel of the parser is exhausted *)
Arguments Parsed {A} a rest.
Arguments Malformed {A}.
Arguments Deeper {A}.

(** JSON white space: SPACE, TAB, LF, CR. *)
Definition is_ws (c : ascii) : bool :=
  bool_decide (code c ∈ [32; 9; 10; 13]%nat).
Definition skip_ws : list ascii → list ascii := skip_while is_ws.

Definition hex_value (c : ascii) : option N :=
  let n := N_of_ascii c in
  if is_digit c then Some (n - 48)%N
  else if (97 <=? n)%N && (n <=? 102)%N then Some (n - 87)%N
  else if (65 <=? n)%N && (n <=? 70)%N then Some (n - 55)%N
  else None.

(** [l] starts with [c]: what follows it. *)
Definition expect (c : ascii) (l : list ascii) : option (list ascii) :=
  match l with
  | x :: r => if bool_decide (x = c) then Some r else None
  | [] => None
  end.

(** The code unit that a one-letter escape stands for. *)
Definition escape (e : ascii) : option N :=
  if bool_decide (e = quote) then Some 34%N
  else if bool_decide (e = backslash) then Some 92%N
  else if bool_decide (e = "/") then Some 47%N
  else if bool_decide (e = "b") then Some 8%N
  else if bool_decide (e = "f") then Some 12%N
  else if bool_decide (e = "n") then Some 10%N
  else if bool_decide (e = "r") then Some 13%N
  else if bool_decide (e = "t") then Some 9%N
  else None.

Definition hex4 (h1 h2 h3 h4 : ascii) : option N :=
  match hex_value h1, hex_value h2, hex_value h3, hex_value h4 with
  | Some a, Some b, Some c, Some d => Some ((((a * 16 + b) * 16 + c) * 16 + d)%N)
  | _, _, _, _ => None
  end.

(** The characters of a string literal after its opening quote. *)
Fixpoint parse_chars (l : list ascii) (acc : list N) : parsed (list N) :=
  match l with
  | [] => Malformed
  | c :: r =>
    if bool_decide (c = quote) then Parsed (rev acc) r
    else if bool_decide (c = backslash) then
      match r with
      | e :: r' =>
        if bool_decide (e = "u") then
          match r' with
          | h1 :: h2 :: h3 :: h4 :: r'' =>
            match hex4 h1 h2 h3 h4 with
            | Some u => parse_chars r'' (u :: acc)
            | None => Malformed
            end
          | _ => Malformed
          end
        else
          match escape e with
          | Some u => parse_chars r' (u :: acc)
          | None => Malformed
          end
      | [] => Malformed
      end
    else if (code c <? 32)%nat then Malformed
    else parse_chars r (N_of_ascii c :: acc)
  end.

(** A number: an optional minus sign, an integer part without leading
    zero, an optional fraction and an optional exponent. *)
Definition digits1 (l : list ascii) : option (list ascii * list ascii) :=
  match take_while is_digit l with
  | [] => None
  | ds => Some (ds, skip_while is_digit l)
  end.

Definition parse_int (l : list ascii) : option (list ascii * list ascii) :=
  match expect "0" l with
  | Some r => Some (["0"], r)
  | None => digits1 l
  end.

Definition parse_frac (l : list ascii) : option (list ascii * list ascii) :=
  match expect "." l with
  | Some r =>
    match digits1 r with Some (ds, r') => Some ("." :: ds, r') | None => None end
  | None => Some ([], l)
  end.

Definition parse_sign (l : list ascii) : list ascii * list ascii :=
  match expect "+" l, expect "-" l with
  | Some r, _ => (["+"], r)
  | None, Some r => (["-"], r)
  | None, None => ([], l)
  end.

Definition parse_exp (l : list ascii) : option (list ascii * list ascii) :=
  match l with
  | e :: r =>
    if bool_decide (e = "e") || bool_decide (e = "E") then
      match digits1 (parse_sign r).2 with
      | Some (ds, r') => Some (e :: (parse_sign r).1 ++ ds, r')
      | None => None
      end
    else Some ([], l)
  | [] => Some ([], l)
  end.

Definition parse_number (l : list ascii) : parsed (list ascii) :=
  let '(sign, l1) := match expect "-" l with
                     | Some r => (["-"], r)
                     | None => ([], l)
                     end in
  match parse_int l1 with
  | Some (i, l2) =>
    match parse_frac l2 with
    | Some (f, l3) =>
      match parse_exp l3 with
      | Some (e, l4) => Parsed (sign ++ i ++ f ++ e) l4
      | None => Malformed
      end
    | None => Malformed
    end
  | None => Malformed
  end.

Definition tru : list ascii := list_ascii_of_string "true".
Definition fals : list ascii := list_ascii_of_string "false".
Definition nul : list ascii := list_ascii_of_string "null".

(** A value that is neither an object nor an array. *)
Definition parse_scalar (l : list ascii) : parsed json :=
  match expect quote l with
  | Some r =>
    match parse_chars r [] with
    | Parsed s r' => Parsed (JString s) r'
    | _ => Malformed
    end
  | None =>
    if startsWith tru l then Parsed (JBool true) (drop 4 l)
    else if startsWith fals l then Parsed (JBool false) (drop 5 l)
    else if startsWith nul l then Parsed JNull (drop 4 l)
    else
      match parse_number l with
      | Parsed n r' => Parsed (JNumber n) r'
      | _ => Malformed
      end
  end.

Fixpoint parse_value (fuel : nat) (l : list ascii) : parsed json :=
  match fuel with
  | O => Deeper
  | S fuel' =>
    match expect "{" (skip_ws l), expect "[" (skip_ws l) with
    | Some r, _ =>
      match expect "}" (skip_ws r) with
      | Some r' => Parsed (JObject []) r'
      | None => parse_members fuel' r []
      end
    | None, Some r =>
      match expect "]" (skip_ws r) with
      | Some r' => Parsed (JArray []) r'
      | None => parse_elements fuel' r []
      end
    | None, None => parse_scalar (skip_ws l)
    end
  end
with parse_elements (fuel : nat) (l : list ascii) (acc : list json) : parsed json :=
  match fuel with
  | O => Deeper
  | S fuel' =>
    match parse_value fuel' l with
    | Parsed v r =>
      match expect "," (skip_ws r), expect "]" (skip_ws r) with
      | Some r', _ => parse_elements fuel' r' (v :: acc)
      | None, Some r' => Parsed (JArray (rev (v :: acc))) r'
      | None, None => Malformed
      end
    | Malformed => Malformed
    | Deeper => Deeper
    end
  end
with parse_members (fuel : nat) (l : list ascii) (acc : list (list N * json))
    : parsed json :=
  match fuel with
  | O => Deeper
  | S fuel' =>
    match expect quote (skip_ws l) with
    | Some r =>
      match parse_chars r [] with
      | Parsed k r1 =>
        match expect ":" (skip_ws r1) with
        | Some r2 =>
          match parse_value fuel' r2 with
          | Parsed v r3 =>
            match expect "," (skip_ws r3), expect "}" (skip_ws r3) with
            | Some r4, _ => parse_members fuel' r4 ((k, v) :: acc)
            | None, Some r4 => Parsed (JObject (rev ((k, v) :: acc))) r4
            | None, None => Malformed
            end
          | Malformed => Malformed
          | Deeper => Deeper
          end
        | None => Malformed
        end
      | _ => Malformed
      end
    | None => Malformed
    end
  end.

Definition unexpected : string := "Unexpected token in JSON".

(** [JSON.parse(text)]: one value, surrounded by white space only.  Between
    two nested calls of the parser at least one character is consumed, so
    the fuel is never exhausted (see [JSON_parse_total]). *)
Definition JSON_parse (text : list ascii) : completion json :=
  match parse_value (2 * length text + 1) text with
  | Parsed v r =>
    match skip_ws r with
    | [] => Normal v
    | _ => Throws (SyntaxError unexpected)
    end
  | Malformed => Throws (SyntaxError unexpected)
  | Deeper => OutOfFuel
  end.

(** [v[key]] for a key that no prototype defines: [undefined] ([None])
    unless [v] is an object with that member (the last one wins); reading a
    property of [null] throws. *)
Definition last_member (key : list N) (ms : list (list N * json)) : option json :=
  snd <$> head (filter (λ m, m.1 = key) (rev ms)).

Definition get (v : json) (key : string) : completion (option json) :=
  match v with
  | JNull => Throws (TypeError "Cannot read properties of null")
  | JObject ms => Normal (last_member (units key) ms)
  | _ => Normal None
  end.

(** The mathematical value of the lexeme of a number: [-? int frac? exp?]
    stands for [±(int.frac) × 10^exp]. *)
Definition digit_value (c : ascii) : Z := Z.of_nat (code c) - 48.

Definition digits_value (ds : list ascii) : Z :=
  foldl (λ acc c, 10 * acc + digit_value c) 0 ds.

Definition number_value (lexeme : list ascii) : Q :=
  let '(negative, l1) := match expect "-" lexeme with
                         | Some r => (true, r)
                         | None => (false, lexeme)
                         end in
  let int := take_while is_digit l1 in
  let l2 := skip_while is_digit l1 in
  let '(frac, l3) := match expect "." l2 with
                     | Some r => (take_while is_digit r, skip_while is_digit r)
                     | None => ([], l2)
                     end in
  let exponent :=
    match l3 with
    | _ :: r =>
      let digits := digits_value (take_while is_digit (parse_sign r).2) in
      if bool_decide ((parse_sign r).1 = ["-"]) then - digits else digits
    | [] => 0
    end in
  let magnitude :=
    (inject_Z (digits_value (int ++ frac)) *
     10 ^ (exponent - Z.of_nat (length frac)))%Q in
  if negative then (- magnitude)%Q else magnitude.

(** The Number that [JSON.parse] makes of a value is the nearest double.
    The least double above zero is 2^-1074: a value of at most half of it
    becomes zero (the tie goes to the even neighbour, which is zero), every
    other value a Number that is not zero. *)
Definition rounds_to_zero (v : Q) : bool :=
  Qle_bool (Qabs v) (2 ^ (-1075))%Q.

(** Truthiness.  A number is falsy when the Number made of it is zero. *)
Definition truthy (v : json) : bool :=
  match v with
  | JNull => false
  | JBool b => b
  | JNumber n => negb (rounds_to_zero (number_value n))
  | JString s => negb (bool_decide (s = []))
  | JArray _ | JObject _ => true
  end.

Definition truthy_opt (v : option json) : bool :=
  match v with Some v => truthy v | None => false end.

(** [a || b] on a property that may be [undefined]. *)
Definition or_else (v : option json) (d : json) : json :=
  match v with
  | Some v => if truthy v then v else d
  | None => d
  end.

End Json.

(** ** The recreated implementation: data ([src/types]) *)

Module Layr.
Import Json.

Module Task.
(** The fields filled from the model's reply hold whatever JSON value the
    reply had there. *)
Record t := mk {
  id : string;
  title : json;
  description : json;
  status : json;
  priority : json;
  estimatedDuration : json;
  dependencies : json;
  createdAt : string;
  updatedAt : string
}.
End Task.

Inductive PlanStatus := draft | active | completed | archived.
Inductive PlanComplexity := simple | moderate | complex.

Record PlanMetadata := mkMetadata {
  complexity : option PlanComplexity;
  estimatedTotalDuration : option string;
  tags : option (list string)
}.

Module Plan.
Record t := mk {
  id : string;
  title : json;
  description : json;
  tasks : list Task.t;
  status : PlanStatus;
  createdAt : string;
  updatedAt : string;
  metadata : option PlanMetadata
}.
End Plan.

Inductive Role := user | assistant | system.

Record ConversationMessage := mkConversationMessage {
  role : Role;
  content : string;
  timestamp : string
}.

Record SessionMetadata := mkSessionMetadata {
  llmProvider : option string;
  totalInteractions : option nat
}.

Module Session.
Record t := mk {
  id : string;
  title : option string;
  description : option string;
  createdAt : string;
  updatedAt : string;
  conversation : list ConversationMessage;
  currentPlan : option Plan.t;
  plans : list Plan.t;
  metadata : option SessionMetadata
}.
End Session.

Module Choice.
Record message_t := mkMessage { role : string; content : option string }.
Record t := mk { message : option message_t }.
End Choice.
Record ChatCompletionResponse := mkResponse { choices : list Choice.t }.

Record RetryConfig := mkRetryConfig {
  maxRetries : nat;
  baseDelay : Q;
  maxDelay : Q;
  backoffFactor : Q
}.

(** The interface [LLMProvider]. *)
Record LLMProvider := mkProvider {
  name : string;
  generatePlan : string → list ConversationMessage → completion Plan.t;
  refinePlan : Plan.t → string → list ConversationMessage → completion Plan.t;
  critique : Plan.t → list ConversationMessage → completion string
}.

(** One reading of the clock: [Date.now()] in decimal and
    [new Date().toISOString()]. *)
Record clock := mkClock { now_ms : string; now_iso : string }.

End Layr.

(** ** [MistralClient]

    [DeepSeekClient] is the same code with other literals (name, endpoint,
    the texts of its fallback plan); what is proved of one holds of the
    other. *)

Module Mistral.
Import Text Json Layr.

(** The policy set by the constructor. *)
Definition retryConfig : RetryConfig := mkRetryConfig 5 2000 30000 2.

(** [Math.pow(b, n)] for a non-negative integer [n]. *)
Fixpoint Math_pow (b : Q) (n : nat) : Q :=
  match n with
  | O => 1
  | S n' => b * Math_pow b n'
  end.

(** What the [catch] block of [makeRequest] decides for one failed attempt. *)
Inductive decision :=
  | SleepThenRetry (delay : Q)   (* [await this.sleep(delay)], next attempt *)
  | NextAttempt                  (* no sleep: generic failure of the last attempt *)
  | Rethrow.                     (* [throw error] *)

Definition is_axios (e : js_error) : bool :=
  match err_class e with AxiosErrorClass => true | _ => false end.

Section Retry.
Variable cfg : RetryConfig.

Definition on_failure (attempt : nat) (error : js_error) : decision :=
  let grown := (baseDelay cfg * Math_pow (backoffFactor cfg) attempt)%Q in
  if is_axios error && bool_decide (status error = Some 429) then
    SleepThenRetry (Qmin (grown * 3) (maxDelay cfg))
  else if is_axios error && bool_decide (status error = Some 402) then
    SleepThenRetry (Qmin (grown * 2) (maxDelay cfg))
  else if is_axios error &&
          (bool_decide (status error = Some 503) || bool_decide (status error = Some 502)) then
    SleepThenRetry (Qmin grown (maxDelay cfg / 2))
  else if is_axios error &&
          match status error with
          | Some s => bool_decide (s ≠ 0) && bool_decide (s < 500)
          | None => false
          end then
    Rethrow
  else if (attempt <? maxRetries cfg)%nat then
    SleepThenRetry (Qmin grown (maxDelay cfg))
  else NextAttempt.

(** One run of [makeRequest]: how it completed, the delays it slept, in
    order, and how many times it called [axios.post]. *)
Record run := mkRun {
  outcome : completion ChatCompletionResponse;
  slept : list Q;
  posts : nat
}.

(** The answer of the service to the [n]-th [axios.post] of one request. *)
Variable post : nat → js_error + ChatCompletionResponse.

(** The loop [for (attempt = 0; attempt <= maxRetries; attempt++)], with
    [remaining = maxRetries + 1 - attempt] iterations left. *)
Fixpoint attempts (remaining attempt : nat) (lastError : option js_error)
    (slept : list Q) : run :=
  match remaining with
  | O => mkRun (Throws (default (Error "Max retries exceeded") lastError))
               slept attempt
  | S remaining' =>
    match post attempt with
    | inr data => mkRun (Normal data) slept (S attempt)
    | inl error =>
      match on_failure attempt error with
      | SleepThenRetry delay =>
        attempts remaining' (S attempt) (Some error) (slept ++ [delay])
      | NextAttempt => attempts remaining' (S attempt) (Some error) slept
      | Rethrow => mkRun (Throws error) slept (S attempt)
      end
    end
  end.

Definition makeRequest : run := attempts (S (maxRetries cfg)) 0 None [].
End Retry.

(** The places where an operation of the client reads the clock.  Every
    [Date.now()] and every [new Date()] is a reading of its own; one call of
    an operation comes to each place at most once, so a call is given the
    reading that it gets at each place. *)
Inductive site :=
  | TaskId (index : nat)          (* parseAndValidatePlan, the callback of map *)
  | TaskCreatedAt (index : nat)
  | TaskUpdatedAt (index : nat)
  | PlanId                        (* parseAndValidatePlan, the plan returned *)
  | PlanCreatedAt
  | PlanUpdatedAt
  | FallbackTaskId (n : nat)      (* getFallbackPlan, the task numbered n *)
  | FallbackDependency (n : nat)
  | FallbackTaskCreatedAt (n : nat)
  | FallbackTaskUpdatedAt (n : nat)
  | FallbackPlanId                (* getFallbackPlan, the plan returned *)
  | FallbackCreatedAt
  | FallbackUpdatedAt
  | RefinedUpdatedAt.             (* refinePlan *)

(** [parseAndValidatePlan] *)
Section Parse.
Variable now : site → clock.
(** [Math.random().toString(36).substr(2, 9)] *)
Variable rnd : string.

Definition build_task (index : nat) (task : json) : completion Task.t :=
  title ← get task "title";
  description ← get task "description";
  status ← get task "status";
  priority ← get task "priority";
  estimatedDuration ← get task "estimatedDuration";
  dependencies ← get task "dependencies";
  Normal (Task.mk
    ("task_" +:+ now_ms (now (TaskId index)) +:+ "_" +:+ pretty index)
    (or_else title (jstring ("Task " +:+ pretty (index + 1)%nat)))
    (or_else description (jstring ""))
    (or_else status (jstring "todo"))
    (or_else priority (jstring "medium"))
    (or_else estimatedDuration (jstring "1 hour"))
    (or_else dependencies (JArray []))
    (now_iso (now (TaskCreatedAt index))) (now_iso (now (TaskUpdatedAt index)))).

(** [parsed.tasks.map((task, index) => ...)] *)
Fixpoint build_tasks (index : nat) (tasks : list json) : completion (list Task.t) :=
  match tasks with
  | [] => Normal []
  | task :: rest =>
    t ← build_task index task;
    ts ← build_tasks (S index) rest;
    Normal (t :: ts)
  end.

Definition parse_plan (content : string) : completion Plan.t :=
  parsed ← JSON_parse (sanitize (list_ascii_of_string content));
  title ← get parsed "title";
  description ← get parsed "description";
  tasks ← get parsed "tasks";
  match title, description, tasks with
  | Some title, Some description, Some (JArray elements) =>
    if truthy title && truthy description then
      tasks ← build_tasks 0 elements;
      Normal (Plan.mk ("plan_" +:+ now_ms (now PlanId) +:+ "_" +:+ rnd)
                title description tasks draft
                (now_iso (now PlanCreatedAt)) (now_iso (now PlanUpdatedAt)) None)
    else Throws (Error "Invalid plan structure")
  | _, _, _ => Throws (Error "Invalid plan structure")
  end.

Definition parseAndValidatePlan (content : string) : completion Plan.t :=
  try_catch (parse_plan content)
    (λ error, Throws (Error ("Failed to parse plan: " +:+ message error))).
End Parse.

(** [getFallbackPlan]; [n] is the number of the task, 1, 2 or 3. *)
Definition fallback_task (now : site → clock) (n : nat) (title description priority
    duration : string) (dependencies : list json) : Task.t :=
  Task.mk ("task_" +:+ now_ms (now (FallbackTaskId n)) +:+ "_" +:+ pretty n)
    (jstring title) (jstring description) (jstring "todo") (jstring priority)
    (jstring duration) (JArray dependencies)
    (now_iso (now (FallbackTaskCreatedAt n))) (now_iso (now (FallbackTaskUpdatedAt n))).

Definition getFallbackPlan (now : site → clock) (prompt : string) : Plan.t :=
  Plan.mk ("plan_" +:+ now_ms (now FallbackPlanId) +:+ "_fallback")
    (jstring ("Plan for: " +:+ String.substring 0 50 prompt +:+ "..."))
    (jstring "This is a fallback plan generated when the AI service is unavailable. Please review and customize as needed.")
    [ fallback_task now 1 "Research and Planning"
        "Gather requirements and create a detailed plan for the task"
        "high" "2 hours" [];
      fallback_task now 2 "Implementation"
        "Execute the main work based on the plan"
        "high" "4 hours"
        [jstring ("task_" +:+ now_ms (now (FallbackDependency 2)) +:+ "_1")];
      fallback_task now 3 "Review and Testing"
        "Review the work and test for quality assurance"
        "medium" "1 hour"
        [jstring ("task_" +:+ now_ms (now (FallbackDependency 3)) +:+ "_2")] ]
    draft (now_iso (now FallbackCreatedAt)) (now_iso (now FallbackUpdatedAt)) None.

Definition canned_critique : string :=
  "Expert critique unavailable due to API error. Consider reviewing the plan manually for completeness, realistic timelines, and proper task organization.".

(** The three operations of the client.  The request carries the prompt and
    the conversation to the service; [post] is what the service answers. *)
Section Client.
Variable post : nat → js_error + ChatCompletionResponse.
Variable now : site → clock.
Variable rnd : string.

(** [response.choices[0]?.message?.content] *)
Definition first_content (response : ChatCompletionResponse) : option string :=
  match head (choices response) with
  | Some choice =>
    match Choice.message choice with
    | Some m => Choice.content m
    | None => None
    end
  | None => None
  end.

(** [const content = ...; if (!content) throw new Error(...)] *)
Definition content_of (response : ChatCompletionResponse) : completion string :=
  match first_content response with
  | Some c => if String.eqb c "" then Throws (Error "No content in response")
              else Normal c
  | None => Throws (Error "No content in response")
  end.

(** The [try] block of [generatePlan]. *)
Definition request_plan : completion Plan.t :=
  response ← outcome (makeRequest retryConfig post);
  content ← content_of response;
  parseAndValidatePlan now rnd content.

Definition generatePlan (prompt : string) (context : list ConversationMessage)
    : completion Plan.t :=
  try_catch request_plan (λ _, Normal (getFallbackPlan now prompt)).

(** The [try] block of [refinePlan]. *)
Definition request_refinement (plan : Plan.t) : completion Plan.t :=
  refinedPlan ← request_plan;
  Normal (Plan.mk (Plan.id plan) (Plan.title refinedPlan)
            (Plan.description refinedPlan) (Plan.tasks refinedPlan)
            (Plan.status refinedPlan) (Plan.createdAt plan)
            (now_iso (now RefinedUpdatedAt))
            (Plan.metadata refinedPlan)).

Definition refinePlan (plan : Plan.t) (feedback : string)
    (context : list ConversationMessage) : completion Plan.t :=
  try_catch (request_refinement plan) (λ _, Normal plan).

(** The [try] block of [critique]. *)
Definition request_critique : completion string :=
  response ← outcome (makeRequest retryConfig post);
  Normal (match first_content response with
          | Some c => if String.eqb c "" then "Unable to generate critique." else c
          | None => "Unable to generate critique."
          end).

Definition critique (plan : Plan.t) (context : list ConversationMessage)
    : completion string :=
  try_catch request_critique (λ _, Normal canned_critique).

Definition MistralClient : LLMProvider :=
  mkProvider "Mistral" generatePlan refinePlan critique.
End Client.

End Mistral.

(** ** [LayerOrchestrator] *)

Module Orchestrator.
Import Json Layr.

Inductive provider := mistral | deepseek.

Definition provider_name (p : provider) : string :=
  match p with mistral => "mistral" | deepseek => "deepseek" end.

(** The session files of [sessionsDir], by session id, and the two clients
    that [initializeLLMClients] made from the environment. *)
Record LayerOrchestrator := mkOrchestrator {
  sessions : gmap string Session.t;
  mistralClient : option LLMProvider;
  deepseekClient : option LLMProvider
}.

Section Operations.
Variable this : LayerOrchestrator.
(** [new Date().toISOString()] during the call. *)
Variable now : string.
(** The platform's conversion of a value to a string, as a template
    literal applies it. *)
Variable toString : json → string.

Definition getLLMClient (p : provider) : option LLMProvider :=
  match p with
  | mistral => mistralClient this
  | deepseek => deepseekClient this
  end.

Definition availableProviders : list string :=
  (if mistralClient this is Some _ then ["mistral"] else []) ++
  (if deepseekClient this is Some _ then ["deepseek"] else []).

Definition getSession (id : string) : option Session.t := sessions this !! id.

(** [updateSession]: stamp and write the file. *)
Definition updateSession (session : Session.t) : gmap string Session.t :=
  <[Session.id session :=
      Session.mk (Session.id session) (Session.title session)
        (Session.description session) (Session.createdAt session) now
        (Session.conversation session) (Session.currentPlan session)
        (Session.plans session) (Session.metadata session)]> (sessions this).

Definition push (m : ConversationMessage) (session : Session.t) : Session.t :=
  Session.mk (Session.id session) (Session.title session)
    (Session.description session) (Session.createdAt session)
    (Session.updatedAt session) (Session.conversation session ++ [m])
    (Session.currentPlan session) (Session.plans session)
    (Session.metadata session).

Definition not_available (p : provider) : js_error :=
  Error (provider_name p +:+ " client not available. Check your API key configuration.").

Definition tryGeneratePlan (p : provider) (prompt : string)
    (context : list ConversationMessage) : completion Plan.t :=
  match getLLMClient p with
  | None => Throws (not_available p)
  | Some client => generatePlan client prompt context
  end.

Definition other (p : provider) : provider :=
  match p with mistral => deepseek | deepseek => mistral end.

(** [plan] and [lastError] after the two [try] blocks. *)
Definition attempt_providers (p : provider) (userPrompt : string)
    (context : list ConversationMessage)
    : completion (option Plan.t * option js_error) :=
  first ← match tryGeneratePlan p userPrompt context with
          | Normal plan => Normal (Some plan, None)
          | Throws error => Normal (None, Some error)
          | OutOfFuel => OutOfFuel
          end;
  match first with
  | (None, lastError) =>
    if bool_decide (1 < length availableProviders)%nat &&
       bool_decide (provider_name (other p) ∈ availableProviders) then
      match tryGeneratePlan (other p) userPrompt context with
      | Normal plan => Normal (Some plan, lastError)
      | Throws _ => Normal (None, lastError)
      | OutOfFuel => OutOfFuel
      end
    else Normal (None, lastError)
  | found => Normal found
  end.

Definition record_plan (p : provider) (plan : Plan.t) (session : Session.t)
    : Session.t :=
  let session :=
    push (mkConversationMessage assistant
            ("Generated plan: " +:+ toString (Plan.title plan)) now)
         session in
  Session.mk (Session.id session) (Session.title session)
    (Session.description session) (Session.createdAt session)
    (Session.updatedAt session) (Session.conversation session)
    (Some plan) (Session.plans session ++ [plan])
    (Some (mkSessionMetadata (Some (provider_name p))
       (Some (default 0 (Session.metadata session ≫= totalInteractions) + 1)%nat))).

(** [generatePlan(sessionId, userPrompt, provider)]: how the call
    completes and the session files after it. *)
Definition generatePlan (sessionId userPrompt : string) (p : provider)
    : completion Plan.t * gmap string Session.t :=
  match getSession sessionId with
  | None => (Throws (Error "Session not found"), sessions this)
  | Some session =>
    let session := push (mkConversationMessage user userPrompt now) session in
    match attempt_providers p userPrompt (Session.conversation session) with
    | Normal (Some plan, _) =>
      (Normal plan, updateSession (record_plan p plan session))
    | Normal (None, lastError) =>
      let text := match lastError with
                  | Some e => message e
                  | None => "All providers failed"
                  end in
      (Throws (default (Error "All providers failed") lastError),
       updateSession
         (push (mkConversationMessage assistant
                  ("Failed to generate plan: " +:+ text) now) session))
    | Throws e => (Throws e, sessions this)
    | OutOfFuel => (OutOfFuel, sessions this)
    end
  end.
End Operations.

End Orchestrator.

(** ** Code generation for one step ([src/codegen.ts])

    with the two parsers of [src/llmClient.ts] and the mock provider. *)

Module LLMClient.
Import Json.

(** [parseJsonResponse]: [JSON.parse] under a [catch] that replaces the
    error. *)
Definition parseJsonResponse (raw : string) : completion json :=
  try_catch (JSON_parse (list_ascii_of_string raw))
    (λ _, Throws (Error "Failed to parse JSON response")).

End LLMClient.

Module MockProvider.
Import Json.

(** [chat]: [JSON.stringify({ reply: 'This is a mock response.' })] *)
Definition chat : string :=
  "{" +:+ String Text.quote "reply" +:+ String Text.quote ":" +:+
  String Text.quote "This is a mock response." +:+ String Text.quote "}".

Definition parseJsonResponse (raw : string) : completion json :=
  JSON_parse (list_ascii_of_string raw).

End MockProvider.

Module Codegen.
Import Json Planner.

(** [typeof v === 'object'], which holds of [null] and of arrays too. *)
Definition typeof_object (v : json) : bool :=
  match v with
  | JNull | JArray _ | JObject _ => true
  | _ => false
  end.

(** [typeof v === 'string'] and [typeof v === 'number'] of a property. *)
Definition typeof_string (v : option json) : bool :=
  match v with Some (JString _) => true | _ => false end.

Definition typeof_number (v : option json) : bool :=
  match v with Some (JNumber _) => true | _ => false end.

(** [validateCodegenJson]; [&&] evaluates from the left and stops at the
    first operand that is false. *)
Definition validateCodegenJson (obj : json) : completion bool :=
  if typeof_object obj then
    filename ← get obj "filename";
    if typeof_string filename then
      content ← get obj "content";
      if typeof_string content then
        stepId ← get obj "stepId";
        Normal (typeof_number stepId)
      else Normal false
    else Normal false
  else Normal false.

(** [options?.apply], as a condition. *)
Definition applies (options : option (option bool)) : bool :=
  match options with
  | Some (Some b) => b
  | _ => false
  end.

(** [v[key]] of a value that is not [null]. *)
Definition property (v : json) (key : string) : option json :=
  match get v key with
  | Normal o => o
  | _ => None
  end.

(** One run of [generateCodeForStep]: how it completed, and the calls of
    [filewriter.writeFile] it made, with their arguments. *)
Record generation := mkGeneration {
  result : completion json;
  writes : list (option json * option json)
}.

Section Generate.
Variable create : nat → js_error + option string.
(** [filewriter.writeFile(filename, content)]; the module is not among the
    sources. *)
Variable writeFile : option json → option json → completion unit.

(** [generateCodeForStep(step, plan, options)]; [apiKey] is what
    [readKey()] resolved to. *)
Definition generateCodeForStep (apiKey : option string) (step : PlanStep.t)
    (plan : Plan.t) (options : option (option bool)) : generation :=
  let raw := if truthy_key apiKey then chat_outcome (chat create apiKey)
             else Normal MockProvider.chat in
  match raw with
  | Normal raw =>
    match try_catch
            (if truthy_key apiKey then LLMClient.parseJsonResponse raw
             else MockProvider.parseJsonResponse raw)
            (λ e, Throws (Error ("Failed to parse codegen JSON: " +:+ message e)))
    with
    | Normal parsed =>
      match validateCodegenJson parsed with
      | Normal true =>
        if applies options then
          let filename := property parsed "filename" in
          let content := property parsed "content" in
          match writeFile filename content with
          | Normal _ => mkGeneration (Normal parsed) [(filename, content)]
          | Throws e => mkGeneration (Throws e) [(filename, content)]
          | OutOfFuel => mkGeneration OutOfFuel [(filename, content)]
          end
        else mkGeneration (Normal parsed) []
      | Normal false =>
        mkGeneration (Throws (Error "Codegen response missing required fields")) []
      | Throws e => mkGeneration (Throws e) []
      | OutOfFuel => mkGeneration OutOfFuel []
      end
    | Throws e => mkGeneration (Throws e) []
    | OutOfFuel => mkGeneration OutOfFuel []
    end
  | Throws e => mkGeneration (Throws e) []
  | OutOfFuel => mkGeneration OutOfFuel []
  end.
End Generate.

End Codegen.

(** ** [LayerOrchestrator]: refinement and critique *)

Module Sessions.
Import Json Layr Orchestrator.

Section Operations.
Variable this : LayerOrchestrator.
Variable now : string.
Variable toString : json → string.

Definition tryRefinePlan (p : provider) (plan : Plan.t) (feedback : string)
    (context : list ConversationMessage) : completion Plan.t :=
  match getLLMClient this p with
  | None => Throws (not_available p)
  | Some client => Layr.refinePlan client plan feedback context
  end.

(** [refinedPlan] and [lastError] after the two [try] blocks of
    [refinePlan]. *)
Definition attempt_refinement (p : provider) (plan : Plan.t) (feedback : string)
    (context : list ConversationMessage)
    : completion (option Plan.t * option js_error) :=
  first ← match tryRefinePlan p plan feedback context with
          | Normal refined => Normal (Some refined, None)
          | Throws error => Normal (None, Some error)
          | OutOfFuel => OutOfFuel
          end;
  match first with
  | (None, lastError) =>
    if bool_decide (1 < length (availableProviders this))%nat &&
       bool_decide (provider_name (other p) ∈ availableProviders this) then
      match tryRefinePlan (other p) plan feedback context with
      | Normal refined => Normal (Some refined, lastError)
      | Throws _ => Normal (None, lastError)
      | OutOfFuel => OutOfFuel
      end
    else Normal (None, lastError)
  | found => Normal found
  end.

(** [{...session.metadata, totalInteractions: (... || 0) + 1}] *)
Definition count_interaction (session : Session.t) : SessionMetadata :=
  mkSessionMetadata (Session.metadata session ≫= llmProvider)
    (Some (default 0 (Session.metadata session ≫= totalInteractions) + 1)%nat).

Definition record_refinement (refined : Plan.t) (session : Session.t) : Session.t :=
  let session :=
    push (mkConversationMessage assistant
            ("Refined plan: " +:+ toString (Plan.title refined)) now) session in
  Session.mk (Session.id session) (Session.title session)
    (Session.description session) (Session.createdAt session)
    (Session.updatedAt session) (Session.conversation session)
    (Some refined) (Session.plans session ++ [refined])
    (Some (count_interaction session)).

(** [refinePlan(sessionId, feedback, provider)]: how the call completes and
    the session files after it. *)
Definition refinePlan (sessionId feedback : string) (p : provider)
    : completion Plan.t * gmap string Session.t :=
  match getSession this sessionId with
  | None => (Throws (Error "Session or current plan not found"), sessions this)
  | Some session =>
    match Session.currentPlan session with
    | None => (Throws (Error "Session or current plan not found"), sessions this)
    | Some currentPlan =>
      let session :=
        push (mkConversationMessage user ("Refine plan: " +:+ feedback) now)
             session in
      match attempt_refinement p currentPlan feedback
              (Session.conversation session) with
      | Normal (Some refined, _) =>
        (Normal refined, updateSession this now (record_refinement refined session))
      | Normal (None, lastError) =>
        let text := match lastError with
                    | Some e => message e
                    | None => "All providers failed"
                    end in
        (Throws (default (Error "All providers failed for plan refinement")
                         lastError),
         updateSession this now
           (push (mkConversationMessage assistant
                    ("Failed to refine plan: " +:+ text) now) session))
      | Throws e => (Throws e, sessions this)
      | OutOfFuel => (OutOfFuel, sessions this)
      end
    end
  end.

Definition record_critique (text : string) (session : Session.t) : Session.t :=
  let session :=
    push (mkConversationMessage assistant ("Expert critique: " +:+ text) now)
      (push (mkConversationMessage user "Request expert critique of current plan"
               now) session) in
  Session.mk (Session.id session) (Session.title session)
    (Session.description session) (Session.createdAt session)
    (Session.updatedAt session) (Session.conversation session)
    (Session.currentPlan session) (Session.plans session)
    (Some (count_interaction session)).

(** [getCritique(sessionId, provider)] *)
Definition getCritique (sessionId : string) (p : provider)
    : completion string * gmap string Session.t :=
  match getSession this sessionId with
  | None => (Throws (Error "Session or current plan not found"), sessions this)
  | Some session =>
    match Session.currentPlan session with
    | None => (Throws (Error "Session or current plan not found"), sessions this)
    | Some currentPlan =>
      match getLLMClient this p with
      | None => (Throws (not_available p), sessions this)
      | Some client =>
        match Layr.critique client currentPlan (Session.conversation session) with
        | Normal text =>
          (Normal text, updateSession this now (record_critique text session))
        | Throws e => (Throws e, sessions this)
        | OutOfFuel => (OutOfFuel, sessions this)
        end
      end
    end
  end.
End Operations.

End Sessions.

(** ** The plan command ([src/cli/commands/plan.ts])

    with [generateId] and [createMockPlan] of [src/utils].  What the user
    types is given as a script; of the output, the calls of [displayError],
    [displaySuccess] and [displayPlan] and the critique printed are kept,
    the fixed lines written with [console.log] are not. *)

Module PlanCommand.
Import Text Json Layr Orchestrator Sessions.

Section Utils.
(** The clock when [createMockPlan] starts: its [now]. *)
Variable now : clock.
(** [Date.now()], in decimal, at the [n]-th call of [generateId]. *)
Variable ms : nat → string.
(** [Math.random().toString(36).substr(2, 9)] at that call. *)
Variable rnd : nat → string.

(** The [n]-th call of [generateId(prefix)]. *)
Definition generateId (prefix : string) (n : nat) : string :=
  prefix +:+ "_" +:+ ms n +:+ "_" +:+ rnd n.

Definition mock_task (n : nat) (title description priority duration : string)
    : Task.t :=
  Task.mk (generateId "task" n) (jstring title) (jstring description)
    (jstring "todo") (jstring priority) (jstring duration) (JArray [])
    (now_iso now) (now_iso now).

(** [createMockPlan(prompt)]: the ids of the tasks are drawn first, in
    order, then the id of the plan. *)
Definition createMockPlan (prompt : string) : Plan.t :=
  Plan.mk (generateId "plan" 4)
    (jstring ("Mock Plan: " +:+ String.substring 0 50 prompt +:+ "..."))
    (jstring "This is a fallback plan created when AI services are unavailable. Please review and customize according to your needs.")
    [ mock_task 0 "Initial Research and Planning"
        "Gather requirements, research best practices, and create a detailed implementation plan"
        "high" "2 hours";
      mock_task 1 "Core Implementation"
        "Implement the main functionality based on the planning phase"
        "high" "4 hours";
      mock_task 2 "Testing and Quality Assurance"
        "Test the implementation thoroughly and ensure quality standards are met"
        "medium" "1.5 hours";
      mock_task 3 "Documentation and Review"
        "Create documentation and conduct final review"
        "low" "1 hour" ]
    draft (now_iso now) (now_iso now)
    (Some (mkMetadata (Some moderate) (Some "8.5 hours") (Some ["mock"; "fallback"]))).
End Utils.

(** One choice in the menu of the command, with what is typed after it:
    the feedback, and the number of the provider, which is asked for only
    when two providers are available. *)
Inductive action :=
  | Refine (feedback : string) (choice : Z)   (* 1 *)
  | Critique (choice : Z)                     (* 2 *)
  | Accept                                    (* 3 *)
  | Leave                                     (* 4 *)
  | Other.                                    (* any other number *)

(** What the user types during one run of the command. *)
Record script := mkScript {
  taskDescription : string;
  providerChoice : Z;      (* asked for only when two providers are available *)
  actions : list action;
  useFallback : bool       (* asked for only when the generation failed *)
}.

Inductive event :=
  | displayError (text : string) (details : option string)
  | displaySuccess (text : string)
  | displayPlan (plan : Plan.t)
  | printCritique (text : string).

Inductive ending :=
  | Returned        (* the command is over *)
  | AwaitingInput   (* the script has ended before the command *)
  | Diverged.       (* a call ran out of fuel *)

(** One run: the session files and the output at its end. *)
Record run := mkRun {
  files : gmap string Session.t;
  output : list event;
  end_of_run : ending
}.

(** [name as 'mistral' | 'deepseek'], for a name of [availableProviders]. *)
Definition named (name : string) : provider :=
  if String.eqb name "deepseek" then deepseek else mistral.

(** The provider in use after
    [if (availableProviders.length > 1) { ...; if (choice >= 1 && choice <= availableProviders.length) provider = availableProviders[choice - 1] }],
    starting from [initial]. *)
Definition chosen (available : list string) (choice : Z) (initial : provider)
    : provider :=
  if bool_decide (1 < length available)%nat then
    if bool_decide (1 ≤ choice ∧ choice ≤ Z.of_nat (length available)) then
      from_option named initial (available !! Z.to_nat (choice - 1))
    else initial
  else initial.

Definition blank (s : string) : bool :=
  bool_decide (trim (list_ascii_of_string s) = []).

Definition no_sessions : string :=
  "No sessions found. Please run " +:+ String quote "layr init" +:+
  String quote " first.".

Definition not_loaded : string :=
  "Failed to load session. Please run " +:+ String quote "layr init" +:+
  String quote " to create a new session.".

Section Command.
(** The orchestrator that the command creates: the session files at the
    start and the clients made from the environment. *)
Variable this : LayerOrchestrator.
(** The clock at the [n]-th call that reads it. *)
Variable clockAt : nat → clock.
(** What the calls of [generateId] read: the clock and the generator. *)
Variable ms : nat → string.
Variable rnd : nat → string.
Variable toString : json → string.

(** The orchestrator, once the files have become [store]. *)
Definition at_store (store : gmap string Session.t) : LayerOrchestrator :=
  mkOrchestrator store (mistralClient this) (deepseekClient this).

Definition available : list string := availableProviders this.

(** [availableProviders[0]], the provider that [refinePlan] and
    [getCritique] start from; they are past the case of an empty list. *)
Definition first_available : provider := from_option named mistral (head available).

(** The function [refinePlan] of the command: the files and the output
    after it, or nothing when the call of the orchestrator ran out of fuel. *)
Definition refine (sessionId feedback : string) (choice : Z) (tick : nat)
    (store : gmap string Session.t)
    : option (gmap string Session.t * list event) :=
  if blank feedback then Some (store, [])
  else if bool_decide (available = []) then Some (store, [])
  else
    match refinePlan (at_store store) (now_iso (clockAt tick)) toString
            sessionId feedback (chosen available choice first_available) with
    | (Normal _, store') =>
      Some (store', [displaySuccess "Plan refined successfully!"])
    | (Throws error, store') =>
      Some (store', [displayError "Failed to refine plan" (Some (message error))])
    | (OutOfFuel, _) => None
    end.

(** The function [getCritique] of the command. *)
Definition critique (sessionId : string) (choice : Z) (tick : nat)
    (store : gmap string Session.t)
    : option (gmap string Session.t * list event) :=
  if bool_decide (available = []) then Some (store, [])
  else
    match getCritique (at_store store) (now_iso (clockAt tick))
            sessionId (chosen available choice first_available) with
    | (Normal text, store') => Some (store', [printCritique text])
    | (Throws error, store') =>
      Some (store', [displayError "Failed to get critique" (Some (message error))])
    | (OutOfFuel, _) => None
    end.

(** The loop [while (continueRefining)]; [session] is the object that the
    command loaded at its start. *)
Fixpoint menu (sessionId : string) (session : Session.t) (todo : list action)
    (tick : nat) (store : gmap string Session.t) (shown : list event) : run :=
  match todo with
  | [] => mkRun store shown AwaitingInput
  | Refine feedback choice :: rest =>
    match refine sessionId feedback choice tick store with
    | Some (store', events) =>
      menu sessionId session rest (S tick) store'
        (shown ++ events ++
         match Session.currentPlan session with
         | Some plan => [displayPlan plan]
         | None => []
         end)
    | None => mkRun store shown Diverged
    end
  | Critique choice :: rest =>
    match critique sessionId choice tick store with
    | Some (store', events) =>
      menu sessionId session rest (S tick) store' (shown ++ events)
    | None => mkRun store shown Diverged
    end
  | Accept :: _ => mkRun store (shown ++ [displaySuccess "Plan saved successfully!"]) Returned
  | Leave :: _ => mkRun store shown Returned
  | Other :: rest => menu sessionId session rest tick store shown
  end.

(** [session.currentPlan = plan; session.plans.push(plan)] *)
Definition adopt (plan : Plan.t) (session : Session.t) : Session.t :=
  Session.mk (Session.id session) (Session.title session)
    (Session.description session) (Session.createdAt session)
    (Session.updatedAt session) (Session.conversation session)
    (Some plan) (Session.plans session ++ [plan]) (Session.metadata session).

(** [planCommand()]; [listed] is what [listSessions()] returns. *)
Definition planCommand (listed : list string) (typed : script) : run :=
  match listed with
  | [] => mkRun (sessions this) [displayError no_sessions None] Returned
  | sessionId :: _ =>
    match getSession this sessionId with
    | None => mkRun (sessions this) [displayError not_loaded None] Returned
    | Some session =>
      if blank (taskDescription typed) then
        mkRun (sessions this)
          [displayError "Task description cannot be empty." None] Returned
      else if bool_decide (available = []) then
        let plan := createMockPlan (clockAt 0) ms rnd (taskDescription typed) in
        let session := adopt plan session in
        menu sessionId session (actions typed) 1
          (updateSession this (now_iso (clockAt 0)) session) [displayPlan plan]
      else
        match generatePlan this (now_iso (clockAt 0)) toString sessionId
                (taskDescription typed)
                (chosen available (providerChoice typed) mistral) with
        | (Normal plan, store) =>
          menu sessionId session (actions typed) 1 store [displayPlan plan]
        | (Throws error, store) =>
          let shown := [displayError "Failed to generate plan" (Some (message error))] in
          if useFallback typed then
            let plan := createMockPlan (clockAt 1) ms rnd (taskDescription typed) in
            mkRun (updateSession (at_store store) (now_iso (clockAt 1))
                     (adopt plan session))
                  (shown ++ [displayPlan plan]) Returned
          else mkRun store shown Returned
        | (OutOfFuel, store) => mkRun store [] Diverged
        end
    end
  end.
End Command.

End PlanCommand.

(** ** Vocabulary of the statements *)

(** The dependency graph of a plan, read off its steps. *)
Module Steps.
Import Planner.

Definition ids (steps : list PlanStep.t) : list Z := PlanStep.id <$> steps.

(** [x] depends on [y]: some step with id [x] lists [y]. *)
Definition dep_rel (steps : list PlanStep.t) (x y : Z) : Prop :=
  ∃ s, s ∈ steps ∧ PlanStep.id s = x ∧ y ∈ deps_of s.

(** The dependency relation restricted to the steps of the plan. *)
Definition restricted (steps : list PlanStep.t) (x y : Z) : Prop :=
  dep_rel steps x y ∧ y ∈ ids steps.

Definition acyclic (steps : list PlanStep.t) : Prop :=
  ∀ x, ¬ tc (restricted steps) x x.

(** Referential integrity: every dependency is the id of a step. *)
Definition referential (steps : list PlanStep.t) : Prop :=
  ∀ x y, dep_rel steps x y → y ∈ ids steps.

(** Some step lists an id that no step has. *)
Definition has_missing_dependency (steps : list PlanStep.t) : Prop :=
  ∃ s d, s ∈ steps ∧ d ∈ deps_of s ∧ d ∉ ids steps.

Definition step (i : Z) (deps : list Z) : PlanStep.t :=
  PlanStep.mk i "" "" (Some deps) None None None None.

Definition plan_of (steps : list PlanStep.t) : Plan.t :=
  Plan.mk "p" "" "" steps None.

(** The plans of the cycle-detection scenario. *)
Definition cyclic_steps : list PlanStep.t :=
  [step 1 []; step 2 [1]; step 3 [2; 4]; step 4 [3]].
Definition repaired_steps : list PlanStep.t :=
  [step 1 []; step 2 [1]; step 3 [2; 4]; step 4 []].

End Steps.

(** The adjacency object and the state of the traversal. *)
Module Graph.
Import Planner.

Section Invariant.
Variable g : gmap Z (list Z).

Definition edge (x y : Z) : Prop := ∃ deps, g !! x = Some deps ∧ y ∈ deps.
Definition cyclic : Prop := ∃ x, tc edge x x.
Definition dangling : Prop := ∃ x y, edge x y ∧ g !! y = None.

(** [x] has been visited and has left the recursion stack. *)
Definition finished (st : dfs_state) (x : Z) : Prop :=
  x ∈ visited st ∧ x ∉ recStack st.

(** What holds of the two sets between the steps of the traversal, as long
    as no call has returned [true]: the finished nodes are keys of the
    graph, are closed under the edges and lie on no cycle. *)
Record inv (st : dfs_state) : Prop := mkInv {
  inv_wf : recStack st ⊆ visited st;
  inv_dom : visited st ⊆ dom g;
  inv_closed : ∀ x y, finished st x → edge x y → finished st y;
  inv_acyc : ∀ x, finished st x → ¬ tc edge x x
}.

(** Every node on the recursion stack reaches [id]. *)
Definition on_path (id : Z) (st : dfs_state) : Prop :=
  ∀ r, r ∈ recStack st → rtc edge r id.

Definition dfs_post (fuel : nat) (id : Z) (st : dfs_state)
    (r : completion (bool * dfs_state)) : Prop :=
  match r with
  | Normal (true, _) => cyclic
  | Normal (false, st') =>
      visited st ⊆ visited st' ∧ id ∈ visited st' ∧
      recStack st' = recStack st ∧ inv st'
  | Throws e => e = TypeError not_iterable ∧ (dangling ∨ g !! id = None)
  | OutOfFuel => (fuel ≤ size (dom g ∖ visited st))%nat
  end.

Definition for_post (fuel : nat) (deps : list Z) (st : dfs_state)
    (r : completion (bool * dfs_state)) : Prop :=
  match r with
  | Normal (true, _) => cyclic
  | Normal (false, st') =>
      visited st ⊆ visited st' ∧ recStack st' = recStack st ∧ inv st' ∧
      ∀ d, d ∈ deps → finished st' d
  | Throws e => e = TypeError not_iterable ∧ dangling
  | OutOfFuel => (fuel ≤ size (dom g ∖ visited st))%nat
  end.

Definition some_post (fuel : nat) (steps : list PlanStep.t) (st : dfs_state)
    (r : completion bool) : Prop :=
  match r with
  | Normal true => cyclic
  | Normal false =>
      ∃ st', visited st ⊆ visited st' ∧ recStack st' = ∅ ∧ inv st' ∧
             ∀ s, s ∈ steps → PlanStep.id s ∈ visited st'
  | Throws e => e = TypeError not_iterable ∧
      (dangling ∨ ∃ s, s ∈ steps ∧ g !! PlanStep.id s = None)
  | OutOfFuel => (fuel ≤ size (dom g ∖ visited st))%nat
  end.

(** The loop of [dfs] for the node [id], about to handle [deps]. *)
Definition in_loop (id : Z) (deps : list Z) (st : dfs_state) : Prop :=
  inv st ∧ id ∈ recStack st ∧ on_path id st ∧ ∀ d, d ∈ deps → edge id d.
End Invariant.

End Graph.

(** What one call of the JSON parser leaves of its input: on success less
    than it was given; the fuel runs out only below [bound]. *)
Module JsonSpec.
Import Json.

Definition consumes (l : list ascii) (bound fuel : nat) (p : parsed json) : Prop :=
  match p with
  | Parsed _ r => (length r < length l)%nat
  | Malformed => True
  | Deeper => (fuel ≤ bound)%nat
  end.

End JsonSpec.

(** The retry policy in the words of its description. *)
Module Policy.
Import Layr Mistral.

Inductive failure_class :=
  | RateLimited         (* HTTP 429 *)
  | QuotaExceeded       (* HTTP 402 *)
  | ServiceUnavailable  (* HTTP 502, 503 *)
  | ClientRejected      (* another status below 500 *)
  | Transport.          (* anything else: no response, 5xx, not an Axios error *)

Definition classify (error : js_error) : failure_class :=
  if is_axios error then
    match status error with
    | Some s =>
      if bool_decide (s = 429) then RateLimited
      else if bool_decide (s = 402) then QuotaExceeded
      else if bool_decide (s = 503 ∨ s = 502) then ServiceUnavailable
      else if bool_decide (s ≠ 0 ∧ s < 500) then ClientRejected
      else Transport
    | None => Transport
    end
  else Transport.

Definition multiplier (c : failure_class) : Q :=
  match c with
  | RateLimited => 3
  | QuotaExceeded => 2
  | _ => 1
  end.

(** [min(baseDelay × backoffFactor^attempt × multiplier, maxDelay)] *)
Definition stated_delay (cfg : RetryConfig) (c : failure_class) (attempt : nat) : Q :=
  Qmin (baseDelay cfg * Math_pow (backoffFactor cfg) attempt * multiplier c)
       (maxDelay cfg).

(** The same with the cap that the code applies to each class. *)
Definition cap (cfg : RetryConfig) (c : failure_class) : Q :=
  match c with
  | ServiceUnavailable => maxDelay cfg / 2
  | _ => maxDelay cfg
  end.

Definition delay (cfg : RetryConfig) (c : failure_class) (attempt : nat) : Q :=
  Qmin (baseDelay cfg * Math_pow (backoffFactor cfg) attempt * multiplier c)
       (cap cfg c).

Definition policy (cfg : RetryConfig) (c : failure_class) (attempt : nat) : decision :=
  match c with
  | ClientRejected => Rethrow
  | Transport =>
    if (attempt <? maxRetries cfg)%nat then SleepThenRetry (delay cfg c attempt)
    else NextAttempt
  | _ => SleepThenRetry (delay cfg c attempt)
  end.

(** Decisions that differ at most in how the delay is written. *)
Definition same_decision (d1 d2 : decision) : Prop :=
  match d1, d2 with
  | SleepThenRetry a, SleepThenRetry b => (a == b)%Q
  | NextAttempt, NextAttempt => True
  | Rethrow, Rethrow => True
  | _, _ => False
  end.

Definition axios_error (s : Z) : js_error :=
  mkError AxiosErrorClass "Request failed" (Some s).

(** The [i]-th attempt failed and the policy went on to the next one. *)
Definition retried (cfg : RetryConfig)
    (post : nat → js_error + ChatCompletionResponse) (i : nat) : Prop :=
  ∃ e, post i = inl e ∧ on_failure cfg i e ≠ Rethrow.

Definition failure_at (post : nat → js_error + ChatCompletionResponse) (i : nat)
    : option js_error :=
  match post i with inl e => Some e | inr _ => None end.

(** A client error other than 429 and 402. *)
Definition client_error (e : js_error) : Prop :=
  is_axios e = true ∧
  ∃ s, status e = Some s ∧ 400 ≤ s < 500 ∧ s ≠ 429 ∧ s ≠ 402.

(** The same notions for [LLMClient.chat]. *)
Definition api_error (s : Z) : js_error :=
  mkError ApiErrorClass "Request failed" (Some s).

Definition rate_limited (create : nat → js_error + option string) (i : nat) : Prop :=
  ∃ e, create i = inl e ∧ status e = Some 429.

(** A service that answers 429 to every call. *)
Definition always_429 : nat → js_error + option string :=
  λ _, inl (api_error 429).

(** A service that answers 400 to every request. *)
Definition always_400 : nat → js_error + ChatCompletionResponse :=
  λ _, inl (axios_error 400).

End Policy.

(** Concrete replies of the model. *)
Module Replies.
Import Text Json Layr.
Local Open Scope char_scope.

Definition dq : string := String quote "".

(** [{"title":"x","description":"y","tasks":[]}] *)
Definition object_text : string :=
  "{" +:+ dq +:+ "title" +:+ dq +:+ ":" +:+ dq +:+ "x" +:+ dq +:+ "," +:+
  dq +:+ "description" +:+ dq +:+ ":" +:+ dq +:+ "y" +:+ dq +:+ "," +:+
  dq +:+ "tasks" +:+ dq +:+ ":[]}".



(** A service whose every answer is [content]. *)
Definition answers (content : string) : nat → js_error + ChatCompletionResponse :=
  λ _, inr (mkResponse [Choice.mk (Some (Choice.mkMessage "assistant" (Some content)))]).

Definition noon : clock := mkClock "1700000000000" "2023-11-14T22:13:20.000Z".

(** A clock that does not advance during a call: it gives the same reading
    at every place. *)
Definition frozen (reading : clock) : Mistral.site → clock := λ _, reading.

(** A plan that is in use and carries metadata. *)
Definition active_plan : Plan.t :=
  Plan.mk "plan_1" (jstring "old") (jstring "old plan") [] active
    "2023-01-01T00:00:00.000Z" "2023-01-01T00:00:00.000Z"
    (Some (mkMetadata (Some moderate) None None)).

End Replies.

(** Replies that wrap an object in a fence. *)
Module Fences.
Import Text Replies.
Local Open Scope char_scope.







End Fences.

(** An orchestrator without any client, holding one session. *)
Module Scenario.
Import Json Layr Orchestrator.

Definition empty_session : Session.t :=
  Session.mk "s1" (Some "New Planning Session") (Some "A new planning session")
    "2023-01-01T00:00:00.000Z" "2023-01-01T00:00:00.000Z" [] None []
    (Some (mkSessionMetadata None (Some 0%nat))).

Definition unconfigured : LayerOrchestrator :=
  mkOrchestrator {["s1" := empty_session]} None None.

Definition no_text : json → string := λ _, "".

(** [generatePlan] makes its second attempt, with the other provider, when
    the first one has failed and these two conditions hold. *)
Definition second_attempt (this : LayerOrchestrator) (p : provider) : Prop :=
  (1 < length (availableProviders this))%nat ∧
  provider_name (other p) ∈ availableProviders this.

End Scenario.

(** Runs of the two request loops. *)
Module Waits.
Import Layr Mistral.

(** The delays of [LLMClient.chat]: [k] waits, each twice the one before. *)
Definition doubling (delay : Z) (k : nat) : list Z :=
  (λ i, delay * 2 ^ Z.of_nat i) <$> seq 0 k.

(** A service that answers 429 to the first [k] calls and [content] to the
    later ones. *)
Definition limited_then (k : nat) (content : string) : nat → js_error + option string :=
  λ i, if (i <? k)%nat then inl (Policy.api_error 429) else inr (Some content).

(** The time slept in one run. *)
Definition total (delays : list Q) : Q := foldr Qplus 0%Q delays.

(** An error that carries a response whose status is set, below 500 and
    neither 429 nor 402. *)
Definition refused (e : js_error) : Prop :=
  is_axios e = true ∧
  ∃ s, status e = Some s ∧ s ≠ 0 ∧ s < 500 ∧ s ≠ 429 ∧ s ≠ 402.

(** A service that is unavailable for the first [k] requests. *)
Definition unavailable_then (k : nat) (data : ChatCompletionResponse)
    : nat → js_error + ChatCompletionResponse :=
  λ i, if (i <? k)%nat then inl (Policy.axios_error 503) else inr data.

End Waits.

(** The tasks that [parseAndValidatePlan] builds. *)
Module Tasks.
Import Json Layr Mistral Replies.

(** [`task_${Date.now()}_${index}`], with the reading of the clock at that
    place. *)
Definition task_id (now : site → clock) (index : nat) : string :=
  "task_" +:+ now_ms (now (TaskId index)) +:+ "_" +:+ pretty index.

(** [value] is [field || default]: the field when it is truthy, the default
    when it is falsy or missing. *)
Definition defaulted (field : option json) (default value : json) : Prop :=
  match field with
  | Some v => if truthy v then value = v else value = default
  | None => value = default
  end.

(** The task made of [element] at [index], field by field. *)
Definition made_of (index : nat) (element : json) (t : Task.t) : Prop :=
  defaulted (Codegen.property element "title")
    (jstring ("Task " +:+ pretty (index + 1)%nat)) (Task.title t) ∧
  defaulted (Codegen.property element "description") (jstring "")
    (Task.description t) ∧
  defaulted (Codegen.property element "status") (jstring "todo") (Task.status t) ∧
  defaulted (Codegen.property element "priority") (jstring "medium")
    (Task.priority t) ∧
  defaulted (Codegen.property element "estimatedDuration") (jstring "1 hour")
    (Task.estimatedDuration t) ∧
  defaulted (Codegen.property element "dependencies") (JArray [])
    (Task.dependencies t).

(** The fields that are never left falsy; the description may be empty. *)
Definition filled (t : Task.t) : Prop :=
  truthy (Task.title t) = true ∧ truthy (Task.status t) = true ∧
  truthy (Task.priority t) = true ∧ truthy (Task.estimatedDuration t) = true ∧
  truthy (Task.dependencies t) = true.

(** [{"title":"x","description":"y","tasks":[{},{"title":"a"}]}] *)
Definition two_tasks_reply : string :=
  "{" +:+ dq +:+ "title" +:+ dq +:+ ":" +:+ dq +:+ "x" +:+ dq +:+ "," +:+
  dq +:+ "description" +:+ dq +:+ ":" +:+ dq +:+ "y" +:+ dq +:+ "," +:+
  dq +:+ "tasks" +:+ dq +:+ ":[{},{" +:+ dq +:+ "title" +:+ dq +:+ ":" +:+
  dq +:+ "a" +:+ dq +:+ "}]}".

(** [{"title":1e-400,"description":"y","tasks":[]}]: the title is a number
    too small for a double. *)
Definition tiny_title_reply : string :=
  "{" +:+ dq +:+ "title" +:+ dq +:+ ":1e-400," +:+
  dq +:+ "description" +:+ dq +:+ ":" +:+ dq +:+ "y" +:+ dq +:+ "," +:+
  dq +:+ "tasks" +:+ dq +:+ ":[]}".

(** A clock that shows another millisecond at every place where the id of
    a task is made. *)
Definition ticking : site → clock :=
  λ s, match s with
       | TaskId index => mkClock ("170000000000" +:+ pretty index) (now_iso noon)
       | _ => noon
       end.

End Tasks.

(** Orchestrators with one client. *)
Module Stores.
Import Json Layr Orchestrator Replies Scenario.

(** A client whose operations all succeed. *)
Definition steady (name : string) (plan : Plan.t) : LLMProvider :=
  mkProvider name (λ _ _, Normal plan) (λ p _ _, Normal p) (λ _ _, Normal "Fine.").

(** Only the DeepSeek key is set. *)
Definition only_deepseek : LayerOrchestrator :=
  mkOrchestrator {["s1" := empty_session]} None (Some (steady "DeepSeek" active_plan)).

(** A session that holds a plan. *)
Definition planned_session : Session.t :=
  Session.mk "s1" (Some "New Planning Session") (Some "A new planning session")
    "2023-01-01T00:00:00.000Z" "2023-01-01T00:00:00.000Z" [] (Some active_plan)
    [active_plan] (Some (mkSessionMetadata (Some "mistral") (Some 1%nat))).

(** The Mistral client in front of a service that answers 400. *)
Definition rejecting : LayerOrchestrator :=
  mkOrchestrator {["s1" := planned_session]}
    (Some (Mistral.MistralClient Policy.always_400 (frozen noon) "r4nd0m")) None.

End Stores.

(** Runs of the plan command. *)
Module Typed.
Import Layr PlanCommand Replies.

(** A clock that stands still from call to call, and a generator that
    repeats itself; within [createMockPlan] a millisecond passes between
    the ids. *)
Definition still : nat → clock := λ _, noon.
Definition stamps : nat → string := λ n, "170000000000" +:+ pretty n.
Definition same_draw : nat → string := λ _, "r4nd0m".

(** A task, then nothing more; the mock plan is accepted. *)
Definition task_only : script := mkScript "Build a REST API" 1 [] true.


End Typed.

(** * Proofs *)

#[local] Set Warnings "-clear-no-such-hyp".

(** ** The traversal of [hasCycles] *)

Module Traversal.
Import Planner Steps Graph.

Section Facts.
Variable g : gmap Z (list Z).

Lemma finished_rtc st x y :
  inv g st → finished st x → rtc (edge g) x y → finished st y.
Proof. intros Hi Hx Hr. induction Hr; eauto using inv_closed. Qed.

Lemma tc_first x z : tc (edge g) x z → ∃ y, edge g x y ∧ rtc (edge g) y z.
Proof.
  destruct 1 as [x y H|x y z H Ht]; exists y; split; auto using rtc_refl.
  by apply tc_rtc.
Qed.

Lemma unvisited_shrinks (st st' : dfs_state) :
  visited st ⊆ visited st' →
  (size (dom g ∖ visited st') ≤ size (dom g ∖ visited st))%nat.
Proof. intros H. apply subseteq_size. set_solver. Qed.

Lemma in_loop_tail id dep rest st st' :
  in_loop g id (dep :: rest) st → inv g st' → recStack st' = recStack st →
  in_loop g id rest st'.
Proof.
  intros (_ & Hid & Hp & He) Hi' Hrs. split; [done|].
  split; [by rewrite Hrs|]. split.
  - intros r Hr. apply Hp. by rewrite <- Hrs.
  - intros d Hd. apply He. by right.
Qed.

Lemma on_path_step id dep st :
  on_path g id st → edge g id dep → on_path g dep st.
Proof. intros Hp He r Hr. eapply rtc_r; eauto. Qed.

(** The loop over the dependencies of one node, given what the recursive
    calls guarantee. *)
Lemma dfs_for_spec fuel rec id :
  (∀ d st, inv g st → d ∉ visited st → on_path g d st →
           dfs_post g fuel d st (rec d st)) →
  ∀ deps st, in_loop g id deps st → for_post g fuel deps st (dfs_for rec deps st).
Proof.
  intros Hrec. induction deps as [|dep rest IH]; intros st Hl; simpl.
  - destruct Hl as (Hi & _). split; [done|]. split; [done|]. split; [done|].
    intros d Hd. by apply elem_of_nil in Hd.
  - pose proof Hl as (Hi & Hid & Hp & He).
    assert (Hed : edge g id dep) by (apply He; left).
    destruct (decide (dep ∈ visited st)) as [Hv|Hv].
    + rewrite bool_decide_eq_false_2 by (intros Hn; by apply Hn).
      destruct (decide (dep ∈ recStack st)) as [Hin|Hin].
      * rewrite bool_decide_eq_true_2 by done.
        exists dep. eapply tc_rtc_l; [by apply Hp|]. by apply tc_once.
      * rewrite bool_decide_eq_false_2 by done.
        specialize (IH st (in_loop_tail _ _ _ _ _ Hl Hi eq_refl)).
        destruct (dfs_for rec rest st) as [[[] st'']| |]; simpl in *; auto.
        destruct IH as (Hsub' & Hrs' & Hi'' & Hfin).
        split; [done|]. split; [done|]. split; [done|].
        intros d Hd. apply elem_of_cons in Hd as [->|Hd]; [|by apply Hfin].
        split; [by apply Hsub'|by rewrite Hrs'].
    + rewrite bool_decide_eq_true_2 by done.
      specialize (Hrec dep st Hi Hv (on_path_step _ _ _ Hp Hed)).
      destruct (rec dep st) as [[[] st']| |]; simpl in *; try done.
      * destruct Hrec as (Hsub & Hdv & Hrs & Hi').
        rewrite bool_decide_eq_false_2.
        2:{ rewrite Hrs. intros Hin. apply Hv. by apply (inv_wf _ _ Hi). }
        specialize (IH st' (in_loop_tail _ _ _ _ _ Hl Hi' Hrs)).
        destruct (dfs_for rec rest st') as [[[] st'']| |]; simpl in *; auto.
        -- destruct IH as (Hsub' & Hrs' & Hi'' & Hfin).
           split; [by etrans|]. split; [congruence|]. split; [done|].
           intros d Hd. apply elem_of_cons in Hd as [->|Hd]; [|by apply Hfin].
           split; [by apply Hsub'|]. rewrite Hrs', Hrs.
           intros Hin. apply Hv. by apply (inv_wf _ _ Hi).
        -- pose proof (unvisited_shrinks _ _ Hsub). lia.
      * destruct Hrec as [-> [Hd|Hn]]; (split; [done|]); [done|].
        by exists id, dep.
Qed.

Lemma inv_enter id st :
  inv g st → id ∉ visited st → is_Some (g !! id) →
  inv g (mkState ({[id]} ∪ visited st) ({[id]} ∪ recStack st)).
Proof.
  intros [Hwf Hdom Hcl Hac] Hv Hg. apply elem_of_dom in Hg.
  split; simpl.
  - set_solver.
  - set_solver.
  - intros x y [Hx Hx'] Hxy; simpl in *.
    destruct (Hcl x y) as [Hy Hy']; [split; set_solver|done|].
    split; simpl; set_solver.
  - intros x [Hx Hx']; simpl in *. apply Hac. split; set_solver.
Qed.

Lemma inv_leave id deps st :
  inv g st → g !! id = Some deps → id ∈ recStack st →
  (∀ d, d ∈ deps → finished st d) →
  inv g (mkState (visited st) (recStack st ∖ {[id]})).
Proof.
  intros Hi Hg Hid Hfin. pose proof Hi as [Hwf Hdom Hcl Hac].
  split; simpl.
  - set_solver.
  - done.
  - intros x y [Hx Hx'] Hxy; simpl in *.
    assert (finished st y) as [Hy Hy'].
    { destruct (decide (x = id)) as [->|Hne].
      - destruct Hxy as (deps' & Hg' & Hy). apply Hfin. congruence.
      - apply (Hcl x); [split; set_solver|done]. }
    split; simpl; set_solver.
  - intros x [Hx Hx'] Hc; simpl in *.
    destruct (decide (x = id)) as [->|Hne].
    + apply tc_first in Hc as (y & (deps' & Hg' & Hy) & Hyx).
      assert (finished st id) as [_ Hn]; [|done].
      eapply finished_rtc; [done| |done]. apply Hfin. congruence.
    + apply (Hac x); [split; set_solver|done].
Qed.

(** One call of [dfs] on a node not visited yet. *)
Lemma dfs_spec fuel : ∀ id st,
  inv g st → id ∉ visited st → on_path g id st →
  dfs_post g fuel id st (dfs g fuel id st).
Proof.
  induction fuel as [|fuel IH]; intros id st Hi Hv Hp; simpl; [lia|].
  rewrite bool_decide_eq_true_2 by done.
  destruct (g !! id) as [deps|] eqn:Hg; simpl; [|split; [done|by right]].
  set (st1 := mkState ({[id]} ∪ visited st) ({[id]} ∪ recStack st)).
  assert (Hnr : id ∉ recStack st) by (intros ?; apply Hv; by apply (inv_wf _ _ Hi)).
  assert (Hl : in_loop g id deps st1).
  { split; [by apply inv_enter|]. split; [set_solver|]. split.
    - intros r Hr. apply elem_of_union in Hr as [Hr|Hr]; [|by apply Hp].
      apply elem_of_singleton in Hr as ->. apply rtc_refl.
    - intros d Hd. by exists deps. }
  pose proof (dfs_for_spec fuel (dfs g fuel) id IH deps st1 Hl) as Hfor.
  destruct (dfs_for (dfs g fuel) deps st1) as [[[] st']| |]; simpl in *.
  - done.
  - destruct Hfor as (Hsub & Hrs & Hi' & Hfin).
    split; [set_solver|]. split; [set_solver|]. split; [rewrite Hrs; set_solver|].
    apply (inv_leave id deps); [done|done|rewrite Hrs; set_solver|done].
  - destruct Hfor as [-> Hd]. split; [done|by left].
  - assert (size (dom g ∖ ({[id]} ∪ visited st)) < size (dom g ∖ visited st))%nat; [|lia].
    apply subset_size. apply elem_of_dom_2 in Hg. set_solver.
Qed.

(** A call of [dfs] from [some], where the node may have been visited. *)
Lemma dfs_top_spec fuel id st :
  inv g st → recStack st = ∅ → dfs_post g fuel id st (dfs g fuel id st).
Proof.
  intros Hi Hrs. destruct (decide (id ∈ visited st)) as [Hv|Hv].
  - destruct fuel as [|fuel]; simpl; [lia|].
    rewrite bool_decide_eq_false_2 by (intros Hn; by apply Hn).
    simpl. split; [done|]. split; [done|]. split; [set_solver|].
    destruct Hi as [Hwf Hdom Hcl Hac].
    split; simpl; [set_solver|done| |].
    + intros x y [Hx Hx'] Hxy. simpl in *.
      destruct (Hcl x y) as [Hy Hy']; [split; set_solver|done|].
      split; simpl; set_solver.
    + intros x [Hx Hx']. simpl in *. apply Hac. split; set_solver.
  - apply dfs_spec; [done|done|]. intros r Hr. set_solver.
Qed.

Lemma some_dfs_spec fuel : ∀ steps st,
  inv g st → recStack st = ∅ →
  some_post g fuel steps st (some_dfs g fuel steps st).
Proof.
  induction steps as [|s rest IH]; intros st Hi Hrs; simpl.
  - exists st. split; [done|]. split; [done|]. split; [done|].
    intros s Hs. by apply elem_of_nil in Hs.
  - pose proof (dfs_top_spec fuel (PlanStep.id s) st Hi Hrs) as Hd.
    destruct (dfs g fuel (PlanStep.id s) st) as [[[] st']| |]; simpl in *.
    + done.
    + destruct Hd as (Hsub & Hv' & Hrs' & Hi').
      specialize (IH st' Hi'). rewrite Hrs', Hrs in IH. specialize (IH eq_refl).
      destruct (some_dfs g fuel rest st') as [[]| |]; simpl in *.
      * done.
      * destruct IH as (st'' & Hsub'' & Hrs'' & Hi'' & Hall).
        exists st''. split; [by etrans|]. split; [done|]. split; [done|].
        intros s' Hs'. apply elem_of_cons in Hs' as [->|Hs']; [|by apply Hall].
        by apply Hsub''.
      * destruct IH as [-> [?|(s' & Hs' & Hn)]]; (split; [done|]); [by left|right].
        exists s'. split; [by right|done].
      * pose proof (unvisited_shrinks _ _ Hsub). lia.
    + destruct Hd as [-> [?|Hn]]; (split; [done|]); [by left|right].
      exists s. split; [by left|done].
    + done.
Qed.

Lemma inv_init : inv g (mkState ∅ ∅).
Proof. split; simpl; try set_solver; intros x [Hx _]; set_solver. Qed.
End Facts.

(** The adjacency object of a list of steps. *)

Lemma dom_build_graph steps : dom (build_graph steps) = list_to_set (ids steps).
Proof.
  unfold build_graph, ids.
  cut (∀ g : gmap Z (list Z),
    dom (foldl (λ g s, <[PlanStep.id s := deps_of s]> g) g steps)
      = list_to_set (PlanStep.id <$> steps) ∪ dom g).
  { intros H. rewrite H. rewrite dom_empty_L. set_solver. }
  induction steps as [|s rest IH]; intros g; simpl.
  - set_solver.
  - rewrite IH, dom_insert_L. set_solver.
Qed.

Lemma size_list_to_set_le (l : list Z) :
  (size (list_to_set l : gset Z) ≤ length l)%nat.
Proof.
  induction l as [|x l IH].
  - rewrite list_to_set_nil, size_empty. done.
  - rewrite list_to_set_cons, size_union_alt, size_singleton. simpl.
    assert (size (list_to_set l ∖ {[x]} : gset Z) ≤ size (list_to_set l : gset Z))%nat.
    { apply subseteq_size. set_solver. }
    lia.
Qed.

Lemma hasUniqueIds_NoDup steps : hasUniqueIds steps = true ↔ NoDup (ids steps).
Proof.
  unfold hasUniqueIds. fold (ids steps). rewrite bool_decide_eq_true.
  split; [|intros H; symmetry; by apply size_list_to_set].
  induction (ids steps) as [|x l IH]; intros H; [constructor|].
  rewrite list_to_set_cons in H. simpl in H.
  pose proof (size_list_to_set_le l) as Hle.
  destruct (decide (x ∈ l)) as [Hin|Hin].
  - exfalso.
    replace ({[x]} ∪ list_to_set l : gset Z) with (list_to_set l : gset Z) in H; [lia|].
    apply set_eq. intros y.
    rewrite elem_of_union, elem_of_singleton, elem_of_list_to_set. naive_solver.
  - constructor; [done|]. apply IH.
    rewrite size_union in H by set_solver. rewrite size_singleton in H. lia.
Qed.

Lemma build_graph_lookup_inv steps x deps :
  build_graph steps !! x = Some deps →
  ∃ s, s ∈ steps ∧ PlanStep.id s = x ∧ deps_of s = deps.
Proof.
  unfold build_graph.
  cut (∀ g : gmap Z (list Z),
    foldl (λ g s, <[PlanStep.id s := deps_of s]> g) g steps !! x = Some deps →
    (∃ s, s ∈ steps ∧ PlanStep.id s = x ∧ deps_of s = deps) ∨ g !! x = Some deps).
  { intros H Hl. destruct (H ∅ Hl) as [?|He]; [done|]. by rewrite lookup_empty in He. }
  induction steps as [|s rest IH]; intros g; simpl; [by right|].
  intros Hl. destruct (IH _ Hl) as [(s' & Hs' & ?)|Hi].
  - left. exists s'. split; [by right|done].
  - destruct (decide (PlanStep.id s = x)) as [<-|Hne].
    + rewrite lookup_insert_eq in Hi. left. exists s. split; [by left|]. split; congruence.
    + rewrite lookup_insert_ne in Hi by done. by right.
Qed.

Lemma build_graph_lookup steps s :
  NoDup (ids steps) → s ∈ steps →
  build_graph steps !! PlanStep.id s = Some (deps_of s).
Proof.
  unfold build_graph, ids.
  cut (∀ g : gmap Z (list Z), NoDup (PlanStep.id <$> steps) →
    (s ∈ steps → foldl (λ g s, <[PlanStep.id s := deps_of s]> g) g steps
                   !! PlanStep.id s = Some (deps_of s)) ∧
    (PlanStep.id s ∉ PlanStep.id <$> steps →
       foldl (λ g s, <[PlanStep.id s := deps_of s]> g) g steps !! PlanStep.id s
       = g !! PlanStep.id s)).
  { intros H Hn Hs. by apply (H ∅). }
  induction steps as [|s' rest IH]; intros g Hn; simpl.
  - split; [intros Hs; by apply elem_of_nil in Hs|done].
  - apply NoDup_cons in Hn as [Hnotin Hn].
    destruct (IH (<[PlanStep.id s' := deps_of s']> g) Hn) as [IH1 IH2].
    split.
    + intros Hs. apply elem_of_cons in Hs as [->|Hs]; [|by apply IH1].
      rewrite IH2 by done. by rewrite lookup_insert_eq.
    + intros Hni. rewrite IH2 by set_solver. rewrite lookup_insert_ne; [done|set_solver].
Qed.

Lemma build_graph_None steps y : build_graph steps !! y = None ↔ y ∉ ids steps.
Proof.
  rewrite <- not_elem_of_dom, dom_build_graph, elem_of_list_to_set. done.
Qed.

Lemma edge_dep_rel steps x y : edge (build_graph steps) x y → dep_rel steps x y.
Proof.
  intros (deps & Hg & Hy). apply build_graph_lookup_inv in Hg as (s & Hs & Hid & Hd).
  exists s. by rewrite Hd.
Qed.

Lemma dep_rel_edge steps x y :
  NoDup (ids steps) → dep_rel steps x y → edge (build_graph steps) x y.
Proof.
  intros Hn (s & Hs & <- & Hy). exists (deps_of s). split; [|done].
  by apply build_graph_lookup.
Qed.

(** [hasCycles] always completes: it returns [true] only on a graph with a
    cycle, [false] only on a graph without cycle and without missing node,
    and the only error it throws is the one for a missing node. *)
Lemma hasCycles_spec steps :
  match hasCycles steps with
  | Normal true => cyclic (build_graph steps)
  | Normal false => ¬ dangling (build_graph steps) ∧ ¬ cyclic (build_graph steps)
  | Throws e => e = TypeError not_iterable ∧ dangling (build_graph steps)
  | OutOfFuel => False
  end.
Proof.
  unfold hasCycles. set (g := build_graph steps).
  pose proof (some_dfs_spec g (S (length steps)) steps (mkState ∅ ∅)
                (inv_init g) eq_refl) as H.
  destruct (some_dfs g (S (length steps)) steps (mkState ∅ ∅)) as [[]| |]; simpl in *.
  - done.
  - destruct H as (st' & _ & Hrs & [Hwf Hdom Hcl Hac] & Hall).
    assert (Hfin : ∀ x, x ∈ dom g → finished st' x).
    { intros x Hx. split; [|rewrite Hrs; set_solver].
      subst g. rewrite dom_build_graph, elem_of_list_to_set in Hx.
      apply list_elem_of_fmap in Hx as (s & -> & Hs). by apply Hall. }
    split.
    + intros (x & y & Hxy & Hy).
      assert (finished st' y) as [Hy' _].
      { apply (Hcl x); [|done]. apply Hfin. destruct Hxy as (? & Hg & _).
        by apply elem_of_dom_2 in Hg. }
      apply Hdom in Hy'. by apply not_elem_of_dom in Hy.
    + intros (x & Hc). apply (Hac x); [|done]. apply Hfin.
      apply tc_first in Hc as (y & (? & Hg & _) & _). by apply elem_of_dom_2 in Hg.
  - destruct H as [-> [H|(s & Hs & Hn)]]; [done|]. split; [done|exfalso].
    apply build_graph_None in Hn. apply Hn. unfold ids. by apply list_elem_of_fmap_2.
  - assert (size (dom g ∖ (∅ : gset Z)) ≤ length steps)%nat; [|lia].
    trans (size (dom g)); [apply subseteq_size; set_solver|].
    subst g. rewrite dom_build_graph.
    trans (length (ids steps)); [apply size_list_to_set_le|].
    unfold ids. by rewrite length_fmap.
Qed.

End Traversal.


(** ** Validation of a plan *)

Module Validation.
Import Planner Steps Graph Traversal.

Lemma restricted_edge steps x y :
  NoDup (ids steps) → tc (restricted steps) x y → tc (edge (build_graph steps)) x y.
Proof.
  intros Hn H. induction H as [x y [Hxy _]|x y z [Hxy _] _ IH].
  - apply tc_once. by apply dep_rel_edge.
  - eapply tc_l; [|exact IH]. by apply dep_rel_edge.
Qed.

Lemma edge_source steps x y : edge (build_graph steps) x y → x ∈ ids steps.
Proof.
  intros (deps & Hg & _). destruct (decide (x ∈ ids steps)) as [|Hn]; [done|].
  apply build_graph_None in Hn. congruence.
Qed.

(** A path that ends at a step stays among the steps. *)
Lemma edge_restricted steps x z :
  tc (edge (build_graph steps)) x z → z ∈ ids steps → tc (restricted steps) x z.
Proof.
  intros H Hz. induction H as [x y Hxy|x y z Hxy Hyz IH].
  - apply tc_once. split; [by apply edge_dep_rel|done].
  - eapply tc_l; [|by apply IH]. split; [by apply edge_dep_rel|].
    apply tc_first in Hyz as (y' & Hy & _). by eapply edge_source.
Qed.

Lemma cyclic_not_acyclic steps : cyclic (build_graph steps) → ¬ acyclic steps.
Proof.
  intros (x & Hc) Ha. apply (Ha x). apply edge_restricted; [done|].
  apply tc_first in Hc as (y & Hy & _). by eapply edge_source.
Qed.

Lemma dangling_not_referential steps :
  dangling (build_graph steps) → ¬ referential steps.
Proof.
  intros (x & y & Hxy & Hy) Hr. apply build_graph_None in Hy. apply Hy.
  apply (Hr x). by apply edge_dep_rel.
Qed.

Lemma missing_not_referential steps :
  has_missing_dependency steps → ¬ referential steps.
Proof.
  intros (s & d & Hs & Hd & Hn) Hr. apply Hn. apply (Hr (PlanStep.id s)).
  by exists s.
Qed.

(** With unique ids, [hasCycles] answers [false] exactly on the plans whose
    dependencies all name steps and form no cycle. *)
Lemma hasCycles_false_iff steps :
  NoDup (ids steps) →
  hasCycles steps = Normal false ↔ referential steps ∧ acyclic steps.
Proof.
  intros Hn. pose proof (hasCycles_spec steps) as H. split.
  - intros Hf. rewrite Hf in H. destruct H as [Hd Hc]. split.
    + intros x y Hxy. destruct (decide (y ∈ ids steps)) as [|Hy]; [done|].
      exfalso. apply Hd. exists x, y. split; [by apply dep_rel_edge|].
      by apply build_graph_None.
    + intros x Hx. apply Hc. exists x. by apply restricted_edge.
  - intros [Hr Ha]. destruct (hasCycles steps) as [[]| |]; try done.
    + by apply cyclic_not_acyclic in H.
    + destruct H as [_ H]. by apply dangling_not_referential in H.
Qed.

Lemma validate_unique plan :
  hasUniqueIds (Plan.steps plan) = false →
  validate plan = Throws (Error "Step IDs must be unique").
Proof. unfold validate. by intros ->. Qed.

Lemma validate_Normal plan plan' :
  validate plan = Normal plan' ↔
  plan' = plan ∧ hasUniqueIds (Plan.steps plan) = true ∧
  hasCycles (Plan.steps plan) = Normal false.
Proof.
  unfold validate. destruct (hasUniqueIds (Plan.steps plan)); simpl.
  - destruct (hasCycles (Plan.steps plan)) as [[]| |]; simpl; naive_solver.
  - naive_solver.
Qed.

(** C1, as amended: validation succeeds exactly when the step ids are
    pairwise distinct, every dependency is the id of a step of the plan, and
    the dependency relation restricted to the steps has no cycle; so do the
    checks of [generatePlan] and [refinePlan] on the plan they parsed.  The
    plan with steps 1->[], 2->[1], 3->[2,4], 4->[3] is rejected for its
    cycle, and is accepted once the edge 4->3 is removed. *)
Theorem validate_iff :
  (∀ plan, validate plan = Normal plan ↔
     NoDup (ids (Plan.steps plan)) ∧ referential (Plan.steps plan) ∧
     acyclic (Plan.steps plan)) ∧
  (∀ parseJsonResponse raw plan,
     parseJsonResponse raw = Normal plan →
     checked parseJsonResponse raw = Normal plan ↔
       NoDup (ids (Plan.steps plan)) ∧ referential (Plan.steps plan) ∧
       acyclic (Plan.steps plan)) ∧
  validate (plan_of cyclic_steps) = Throws (Error "Plan has cyclic dependencies") ∧
  validate (plan_of repaired_steps) = Normal (plan_of repaired_steps).
Proof.
  assert (H : ∀ plan, validate plan = Normal plan ↔
     NoDup (ids (Plan.steps plan)) ∧ referential (Plan.steps plan) ∧
     acyclic (Plan.steps plan)).
  { intros plan. rewrite validate_Normal, hasUniqueIds_NoDup. split.
    - intros (_ & Hn & Hf). split; [done|]. by apply hasCycles_false_iff.
    - intros (Hn & Hr & Ha). split; [done|]. split; [done|].
      by apply hasCycles_false_iff. }
  split; [exact H|]. split; [|split; by vm_compute].
  intros parse raw plan Hp. rewrite <- H. unfold checked. rewrite Hp. simpl.
  destruct (validate plan); simpl; naive_solver.
Qed.

(** C1, as stated, fails: the plan whose single step 1 depends on the
    missing id 2 has distinct ids and no cycle among its steps, and is
    rejected. *)
Lemma validate_rejects_missing_dependency :
  ¬ (returns (validate (plan_of [step 1 [2]])) ↔
     NoDup (ids [step 1 [2]]) ∧ acyclic [step 1 [2]]).
Proof.
  intros [_ H]. destruct H as [p Hp]; [|by vm_compute in Hp].
  split.
  - apply NoDup_singleton.
  - intros x Hx.
    assert (∀ a b, restricted [step 1 [2]] a b → False) as Hno.
    { intros a b [(s & Hs & _ & Hb) Hb'].
      apply list_elem_of_singleton in Hs as ->. simpl in *.
      apply list_elem_of_singleton in Hb, Hb'. congruence. }
    destruct Hx as [? ? H|? ? ? H _]; eapply Hno, H.
Qed.

Lemma hasCycles_missing steps :
  NoDup (ids steps) → has_missing_dependency steps →
  hasCycles steps = Normal true ∨ hasCycles steps = Throws (TypeError not_iterable).
Proof.
  intros Hn Hm. pose proof (hasCycles_spec steps) as H.
  destruct (hasCycles steps) as [[]| |] eqn:Hc; try done.
  - by left.
  - apply (hasCycles_false_iff _ Hn) in Hc as [Hr _].
    by apply missing_not_referential in Hm.
  - destruct H as [-> _]. by right.
Qed.

Lemma validate_missing plan :
  has_missing_dependency (Plan.steps plan) → fails (validate plan).
Proof.
  intros Hm. unfold validate.
  destruct (hasUniqueIds (Plan.steps plan)) eqn:Hu; simpl; [|by eexists].
  apply hasUniqueIds_NoDup in Hu.
  destruct (hasCycles_missing _ Hu Hm) as [-> | ->]; simpl; by eexists.
Qed.

(** C10, as amended: when a step lists an id that no step has and the ids
    are unique, [hasCycles] never answers [false]: it throws at the missing
    node, unless it has met a cycle first and returned [true]; without any
    cycle among the steps it throws.  In every case validation fails, and
    [generatePlan] and [refinePlan] reject the plan with the error wrapped
    as an invalid plan format. *)
Theorem missing_dependency_rejected plan :
  has_missing_dependency (Plan.steps plan) →
  (NoDup (ids (Plan.steps plan)) →
     (hasCycles (Plan.steps plan) = Normal true ∨
      hasCycles (Plan.steps plan) = Throws (TypeError not_iterable)) ∧
     (acyclic (Plan.steps plan) →
      hasCycles (Plan.steps plan) = Throws (TypeError not_iterable))) ∧
  ∃ e, validate plan = Throws e ∧
    ∀ create parseJsonResponse apiKey raw goal old instruction,
      truthy_key apiKey = true →
      chat_outcome (chat create apiKey) = Normal raw →
      parseJsonResponse raw = Normal plan →
      generatePlan create parseJsonResponse apiKey goal
        = Throws (invalid_plan_format e) ∧
      refinePlan create parseJsonResponse apiKey old instruction
        = Throws (invalid_plan_format e).
Proof.
  intros Hm. split.
  - intros Hn. pose proof (hasCycles_missing _ Hn Hm) as Hc. split; [done|].
    intros Ha. destruct Hc as [Hc|Hc]; [|done].
    pose proof (hasCycles_spec (Plan.steps plan)) as H. rewrite Hc in H.
    by apply cyclic_not_acyclic in H.
  - destruct (validate_missing plan Hm) as [e He]. exists e. split; [done|].
    intros create parse apiKey raw goal old instruction Hk Hchat Hparse.
    unfold generatePlan, refinePlan, checked. rewrite Hk, Hchat. simpl.
    rewrite Hparse. simpl. by rewrite He.
Qed.

(** The plan whose step 1 depends on the missing id 2. *)
Lemma missing_dependency_rejected_witness :
  has_missing_dependency [step 1 [2]] ∧
  hasCycles [step 1 [2]] = Throws (TypeError not_iterable) ∧
  validate (plan_of [step 1 [2]]) = Throws (TypeError not_iterable).
Proof.
  assert (Hm : has_missing_dependency (Plan.steps (plan_of [step 1 [2]]))).
  { exists (step 1 [2]), 2. split; [by left|]. split; [by left|].
    intros H. apply list_elem_of_singleton in H. discriminate. }
  split; [exact Hm|].
  destruct (missing_dependency_rejected (plan_of [step 1 [2]]) Hm)
    as [Hc (e & He & _)].
  split; [|reflexivity].
  destruct (Hc (NoDup_singleton _)) as [[Ht|Ht] _]; [discriminate Ht|exact Ht].
Defined.

(** C10, as stated, fails: step 1 lists itself and the missing id 99; the
    traversal meets the cycle first and [hasCycles] returns [true] without
    throwing. *)
Lemma hasCycles_returns_before_missing_node :
  ¬ (has_missing_dependency [step 1 [1; 99]] → fails (hasCycles [step 1 [1; 99]])).
Proof.
  intros H. destruct H as [e He]; [|by vm_compute in He].
  exists (step 1 [1; 99]), 99. split; [by left|]. split; [by right; left|].
  intros H. apply list_elem_of_singleton in H. discriminate.
Qed.

End Validation.


(** ** [JSON.parse] always completes *)

Module JsonFacts.
Import Text Json JsonSpec.
Local Open Scope nat_scope.

Lemma skip_while_length p l : length (skip_while p l) ≤ length l.
Proof. induction l as [|c r IH]; simpl; [done|]. case_match; simpl; lia. Qed.

Lemma skip_ws_length l : length (skip_ws l) ≤ length l.
Proof. apply skip_while_length. Qed.

Lemma expect_length c l r : expect c l = Some r → length l = S (length r).
Proof. destruct l as [|x l]; simpl; [done|]. case_match; naive_solver. Qed.

Ltac measure :=
  repeat match goal with
  | H : expect _ _ = Some _ |- _ => apply expect_length in H
  end.

Lemma parse_chars_length_aux n : ∀ l, length l ≤ n → ∀ acc s r,
  parse_chars l acc = Parsed s r → length r < length l.
Proof.
  induction n as [|n IH]; intros l Hn acc s r H.
  - destruct l; simpl in *; [done|lia].
  - destruct l as [|c l]; simpl in *; [done|].
    repeat case_match; simplify_eq; simpl in *; try lia;
      match goal with
      | H : parse_chars ?l' _ = Parsed _ _ |- _ =>
        apply IH in H; simpl in *; lia
      end.
Qed.

Lemma parse_chars_length l acc s r :
  parse_chars l acc = Parsed s r → length r < length l.
Proof. by apply (parse_chars_length_aux (length l)). Qed.

Lemma digits1_length l ds r : digits1 l = Some (ds, r) → length r < length l.
Proof.
  unfold digits1. destruct l as [|c l]; simpl; [done|].
  destruct (is_digit c); simpl; [|done].
  intros [= _ <-]. pose proof (skip_while_length is_digit l). lia.
Qed.

Lemma parse_number_length l n r : parse_number l = Parsed n r → length r < length l.
Proof.
  unfold parse_number, parse_int, parse_frac, parse_exp, parse_sign.
  intros H. repeat case_match; simplify_eq; simpl in *; measure;
    repeat match goal with
    | H : digits1 _ = Some _ |- _ => apply digits1_length in H
    end; simpl in *; lia.
Qed.

Lemma parse_scalar_length l v r : parse_scalar l = Parsed v r → length r < length l.
Proof.
  unfold parse_scalar. intros H.
  repeat case_match; simplify_eq; measure;
    repeat match goal with
    | H : parse_chars _ _ = Parsed _ _ |- _ => apply parse_chars_length in H
    | H : parse_number _ = Parsed _ _ |- _ => apply parse_number_length in H
    | H : startsWith _ ?l = true |- _ => destruct l; [discriminate H|clear H]
    end; simpl in *; try lia.
  all: rewrite ?length_drop; simpl; lia.
Qed.

Lemma parse_scalar_shallow l : parse_scalar l ≠ Deeper.
Proof. unfold parse_scalar. by repeat case_match. Qed.

(** Between two nested calls at least one character is consumed, so a fuel
    of twice the length of the text, and one, is never exhausted. *)
Lemma parser_fuel fuel :
  (∀ l, consumes l (2 * length l) fuel (parse_value fuel l)) ∧
  (∀ l acc, consumes l (2 * length l + 1) fuel (parse_elements fuel l acc)) ∧
  (∀ l acc, consumes l (2 * length l + 1) fuel (parse_members fuel l acc)).
Proof.
  induction fuel as [|fuel (IHv & IHe & IHm)]; [simpl; repeat split; intros; lia|].
  split; [|split].
  - intros l. simpl. pose proof (skip_ws_length l).
    repeat case_match;
      repeat match goal with
      | H : expect _ (skip_ws ?r) = Some _ |- _ =>
        apply expect_length in H; pose proof (skip_ws_length r)
      end; simpl; try lia.
    + specialize (IHm l0 []). destruct (parse_members fuel l0 []); simpl in *; lia.
    + specialize (IHe l0 []). destruct (parse_elements fuel l0 []); simpl in *; lia.
    + destruct (parse_scalar (skip_ws l)) eqn:E; simpl; [|done|].
      * apply parse_scalar_length in E. lia.
      * by apply parse_scalar_shallow in E.
  - intros l acc. simpl. specialize (IHv l).
    destruct (parse_value fuel l) as [v r| |]; simpl in *; [|done|lia].
    pose proof (skip_ws_length r).
    repeat case_match; measure; simpl; try lia.
    specialize (IHe l0 (v :: acc)).
    destruct (parse_elements fuel l0 (v :: acc)); simpl in *; lia.
  - intros l acc. simpl. pose proof (skip_ws_length l).
    destruct (expect quote (skip_ws l)) as [r|] eqn:E1; simpl; [|done].
    apply expect_length in E1.
    destruct (parse_chars r []) as [k r1| |] eqn:E2; simpl; [|done|done].
    apply parse_chars_length in E2. pose proof (skip_ws_length r1).
    destruct (expect ":" (skip_ws r1)) as [r2|] eqn:E3; simpl; [|done].
    apply expect_length in E3. specialize (IHv r2).
    destruct (parse_value fuel r2) as [v r3| |]; simpl in *; [|done|lia].
    pose proof (skip_ws_length r3).
    repeat case_match; measure; simpl; try lia.
    specialize (IHm l0 ((k, v) :: acc)).
    destruct (parse_members fuel l0 ((k, v) :: acc)); simpl in *; lia.
Qed.

Lemma JSON_parse_total text : JSON_parse text ≠ OutOfFuel.
Proof.
  unfold JSON_parse.
  pose proof (proj1 (parser_fuel (2 * length text + 1)) text) as H.
  destruct (parse_value (2 * length text + 1) text); simpl in *.
  - by case_match.
  - done.
  - lia.
Qed.

Lemma get_completes v key : get v key ≠ OutOfFuel.
Proof. by destruct v. Qed.

End JsonFacts.


(** ** The retry policy *)

Module Backoff.
Import Layr Mistral Policy.
Local Open Scope Q_scope.

Lemma Math_pow_nonneg b n : 0 <= b → 0 <= Math_pow b n.
Proof.
  intros Hb. induction n as [|n IH]; simpl; [lra|]. by apply Qmult_le_0_compat.
Qed.

Lemma multiplier_pos c : 0 < multiplier c.
Proof. destruct c; simpl; lra. Qed.

Lemma grown_mono cfg c n :
  0 <= baseDelay cfg → 1 <= backoffFactor cfg →
  baseDelay cfg * Math_pow (backoffFactor cfg) n * multiplier c
  <= baseDelay cfg * Math_pow (backoffFactor cfg) (S n) * multiplier c.
Proof.
  intros Hb Hf. simpl.
  pose proof (Math_pow_nonneg (backoffFactor cfg) n ltac:(lra)) as Hp.
  pose proof (multiplier_pos c) as Hm.
  set (p := Math_pow (backoffFactor cfg) n) in *.
  assert (Hx : 0 <= baseDelay cfg * p * multiplier c).
  { apply Qmult_le_0_compat; [by apply Qmult_le_0_compat|lra]. }
  assert (He : baseDelay cfg * (backoffFactor cfg * p) * multiplier c
               == baseDelay cfg * p * multiplier c * backoffFactor cfg) by ring.
  rewrite He. set (x := baseDelay cfg * p * multiplier c) in *.
  nra.
Qed.

Lemma delay_step cfg c n :
  0 <= baseDelay cfg → 1 <= backoffFactor cfg →
  delay cfg c n <= delay cfg c (S n).
Proof.
  intros Hb Hf. unfold delay. apply Q.min_le_compat_r. by apply grown_mono.
Qed.

Lemma delay_mono cfg c m n :
  0 <= baseDelay cfg → 1 <= backoffFactor cfg → (m ≤ n)%nat →
  delay cfg c m <= delay cfg c n.
Proof.
  intros Hb Hf Hmn. induction Hmn as [|n _ IH]; [apply Qle_refl|].
  eapply Qle_trans; [exact IH|by apply delay_step].
Qed.

Lemma cap_le cfg c : 0 <= maxDelay cfg → cap cfg c <= maxDelay cfg.
Proof.
  intros H. destruct c; simpl; try lra.
  assert (He : maxDelay cfg / 2 == maxDelay cfg * (1 # 2)) by (unfold Qdiv; reflexivity).
  rewrite He. lra.
Qed.

Lemma delay_capped cfg c n : 0 <= maxDelay cfg → delay cfg c n <= maxDelay cfg.
Proof.
  intros H. eapply Qle_trans; [apply Q.le_min_r|by apply cap_le].
Qed.

(** The [catch] block of [makeRequest] decides as the policy says. *)
Lemma on_failure_policy cfg attempt error :
  same_decision (on_failure cfg attempt error) (policy cfg (classify error) attempt).
Proof.
  unfold on_failure, classify, policy, delay.
  destruct (is_axios error); simpl.
  - destruct (status error) as [s|]; simpl.
    + repeat case_bool_decide; simplify_eq; simpl; try lia;
        try (case_match; simpl); try done;
        try (apply Q.min_compat; simpl; lra).
      all: try (exfalso; naive_solver lia).
    + case_match; simpl; [|done]. apply Q.min_compat; simpl; lra.
  - case_match; simpl; [|done]. apply Q.min_compat; simpl; lra.
Qed.

(** C4, as amended: the delay is
    [min(baseDelay × backoffFactor^attempt × multiplier, cap)] with multiplier
    3 for HTTP 429, 2 for HTTP 402 and 1 for HTTP 502/503 and for the other
    retried failures; the cap is [maxDelay], except for HTTP 502/503 where it
    is [maxDelay / 2]; a generic failure of the last attempt is followed by no
    delay.  For a base delay of at least 0 and a factor of at least 1 the
    delay of a class never decreases from one attempt to a later one, and it
    never exceeds [maxDelay].  With the constructor's policy the delays for
    HTTP 429 at the attempts 0, 1, 2 are 6000, 12000, 24000. *)
Theorem backoff_delay :
  (∀ cfg attempt error,
     same_decision (on_failure cfg attempt error)
                   (policy cfg (classify error) attempt)) ∧
  (∀ cfg c attempt, c ≠ ServiceUnavailable →
     delay cfg c attempt = stated_delay cfg c attempt) ∧
  (∀ cfg attempt,
     delay cfg ServiceUnavailable attempt
     = Qmin (baseDelay cfg * Math_pow (backoffFactor cfg) attempt * 1)
            (maxDelay cfg / 2)) ∧
  (∀ cfg c m n, 0 <= baseDelay cfg → 1 <= backoffFactor cfg → (m ≤ n)%nat →
     delay cfg c m <= delay cfg c n) ∧
  (∀ cfg c n, 0 <= maxDelay cfg → delay cfg c n <= maxDelay cfg) ∧
  same_decision (on_failure retryConfig 0 (axios_error 429)) (SleepThenRetry 6000) ∧
  same_decision (on_failure retryConfig 1 (axios_error 429)) (SleepThenRetry 12000) ∧
  same_decision (on_failure retryConfig 2 (axios_error 429)) (SleepThenRetry 24000).
Proof.
  split; [exact on_failure_policy|].
  split; [by intros cfg [] attempt|].
  split; [done|].
  split; [exact delay_mono|].
  split; [exact delay_capped|].
  split; [|split]; by vm_compute.
Qed.

(** C4, as stated, fails for HTTP 503: at attempt 3 of the constructor's
    policy the stated delay is min(2000 × 2^3 × 1, 30000) = 16000, and the
    code sleeps min(16000, 30000 / 2) = 15000. *)
Lemma unavailable_delay_is_capped_at_half :
  ¬ same_decision (on_failure retryConfig 3 (axios_error 503))
      (SleepThenRetry (stated_delay retryConfig ServiceUnavailable 3)).
Proof. intros H. vm_compute in H. discriminate H. Qed.

End Backoff.

Module Retry.
Import Planner Layr Mistral Policy.
Local Open Scope nat_scope.

Section Attempts.
Variable cfg : RetryConfig.
Variable post : nat → js_error + ChatCompletionResponse.

Lemma posts_bound remaining : ∀ attempt lastError slept,
  posts (attempts cfg post remaining attempt lastError slept) ≤ attempt + remaining.
Proof.
  induction remaining as [|remaining IH]; intros attempt lastError slept; simpl; [lia|].
  destruct (post attempt) as [e|data]; simpl; [|lia].
  destruct (on_failure cfg attempt e); simpl; try lia.
  - etrans; [apply IH|lia].
  - etrans; [apply IH|lia].
Qed.

Lemma attempts_completes remaining : ∀ attempt lastError slept,
  outcome (attempts cfg post remaining attempt lastError slept) ≠ OutOfFuel.
Proof.
  induction remaining as [|remaining IH]; intros attempt lastError slept; simpl; [done|].
  destruct (post attempt) as [e|data]; simpl; [|done].
  destruct (on_failure cfg attempt e); simpl; auto.
Qed.

(** After [k] attempts that were all retried the loop stands at attempt
    [attempt + k] and holds the error of the attempt before. *)
Lemma attempts_skip k : ∀ remaining attempt lastError slept,
  (∀ i, attempt ≤ i < attempt + k → retried cfg post i) →
  ∃ slept',
    attempts cfg post (k + remaining) attempt lastError slept
    = attempts cfg post remaining (attempt + k)
        (match k with O => lastError | S k' => failure_at post (attempt + k') end)
        slept'.
Proof.
  induction k as [|k IH]; intros remaining attempt lastError slept Hr.
  - exists slept. by rewrite Nat.add_0_r.
  - destruct (Hr attempt ltac:(lia)) as (e & He & Hd).
    assert (Hr' : ∀ i, S attempt ≤ i < S attempt + k → retried cfg post i).
    { intros i Hi. apply Hr. lia. }
    assert (Hlast : match k with
                    | O => Some e
                    | S k' => failure_at post (S attempt + k')
                    end = failure_at post (attempt + k)).
    { destruct k as [|k']; [|f_equal; lia].
      unfold failure_at. by rewrite Nat.add_0_r, He. }
    simpl. rewrite He.
    destruct (on_failure cfg attempt e) as [d| |] eqn:Hf; [| |done].
    + destruct (IH remaining (S attempt) (Some e) (slept ++ [d]) Hr') as [slept' ->].
      exists slept'. rewrite Hlast. f_equal. lia.
    + destruct (IH remaining (S attempt) (Some e) slept Hr') as [slept' ->].
      exists slept'. rewrite Hlast. f_equal. lia.
Qed.

Lemma rethrown a e :
  a ≤ maxRetries cfg → (∀ i, i < a → retried cfg post i) →
  post a = inl e → on_failure cfg a e = Rethrow →
  outcome (makeRequest cfg post) = Throws e ∧ posts (makeRequest cfg post) = S a.
Proof.
  intros Ha Hr He Hf.
  assert (∃ lastError slept', makeRequest cfg post
            = attempts cfg post (S (maxRetries cfg - a)) a lastError slept')
    as (lastError & slept' & ->).
  { unfold makeRequest.
    destruct (attempts_skip a (S (maxRetries cfg - a)) 0 None []) as [slept' Hs].
    { intros i Hi. apply Hr. lia. }
    eexists _, slept'. etrans; [|exact Hs]. f_equal. lia. }
  simpl. by rewrite He, Hf.
Qed.

Lemma exhausted e :
  (∀ i, i ≤ maxRetries cfg → retried cfg post i) →
  post (maxRetries cfg) = inl e →
  outcome (makeRequest cfg post) = Throws e ∧
  posts (makeRequest cfg post) = S (maxRetries cfg).
Proof.
  intros Hr He.
  assert (∃ slept', makeRequest cfg post
            = attempts cfg post 0 (S (maxRetries cfg))
                (failure_at post (maxRetries cfg)) slept') as [slept' ->].
  { unfold makeRequest.
    destruct (attempts_skip (S (maxRetries cfg)) 0 0 None []) as [slept' Hs].
    { intros i Hi. apply Hr. lia. }
    exists slept'. by rewrite Nat.add_0_r in Hs. }
  simpl. unfold failure_at. by rewrite He.
Qed.
End Attempts.

Lemma client_error_rethrown cfg attempt e :
  client_error e → on_failure cfg attempt e = Rethrow.
Proof.
  intros (Ha & s & Hs & Hr & H1 & H2). unfold on_failure. rewrite Ha, Hs. simpl.
  repeat (rewrite bool_decide_eq_false_2 by (intros [= ?]; lia)). simpl.
  rewrite !bool_decide_eq_true_2 by lia. done.
Qed.

Section Chat.
Variable create : nat → js_error + option string.

Lemma chat_calls_bound remaining : ∀ attempt delay slept,
  chat_calls (chat_loop create remaining attempt delay slept) ≤ attempt + remaining.
Proof.
  induction remaining as [|remaining IH]; intros attempt d slept; simpl; [lia|].
  destruct (create attempt) as [e|c]; simpl; [|lia].
  repeat case_bool_decide; simpl; try lia. etrans; [apply IH|lia].
Qed.

Lemma chat_skip k : ∀ remaining attempt delay slept,
  (∀ i, attempt ≤ i < attempt + k → rate_limited create i) →
  ∃ delay' slept',
    chat_loop create (k + remaining) attempt delay slept
    = chat_loop create remaining (attempt + k) delay' slept'.
Proof.
  induction k as [|k IH]; intros remaining attempt d slept Hr.
  - exists d, slept. by rewrite Nat.add_0_r.
  - destruct (Hr attempt ltac:(lia)) as (e & He & Hs).
    simpl. rewrite He, bool_decide_eq_true_2 by done.
    destruct (IH remaining (S attempt) (d * 2)%Z (slept ++ [d])) as (d' & slept' & ->).
    { intros i Hi. apply Hr. lia. }
    exists d', slept'. f_equal. lia.
Qed.

Lemma chat_aborts apiKey a e :
  truthy_key apiKey = true → a < maxAttempts →
  (∀ i, i < a → rate_limited create i) →
  create a = inl e → status e ≠ Some 429%Z →
  chat_outcome (chat create apiKey)
    = Throws (if bool_decide (status e = Some 401%Z)
              then Error "Unauthorized: Invalid API key" else e) ∧
  chat_calls (chat create apiKey) = S a.
Proof.
  intros Hk Ha Hr He Hs. unfold chat. rewrite Hk.
  assert (∃ d slept', chat_loop create maxAttempts 0 1000 []
            = chat_loop create (S (maxAttempts - S a)) a d slept')
    as (d & slept' & ->).
  { destruct (chat_skip a (S (maxAttempts - S a)) 0 1000%Z []) as (d & slept' & H).
    { intros i Hi. apply Hr. lia. }
    exists d, slept'. etrans; [|exact H]. f_equal. lia. }
  simpl. rewrite He, bool_decide_eq_false_2 by done.
  by case_bool_decide.
Qed.

Lemma chat_exhausted apiKey :
  truthy_key apiKey = true →
  (∀ i, i < maxAttempts → rate_limited create i) →
  chat_outcome (chat create apiKey)
    = Throws (Error "Too many requests, please try again later.") ∧
  chat_calls (chat create apiKey) = maxAttempts.
Proof.
  intros Hk Hr. unfold chat. rewrite Hk.
  destruct (chat_skip maxAttempts 0 0 1000%Z []) as (d & slept' & H).
  { intros i Hi. apply Hr. lia. }
  rewrite Nat.add_0_r in H. rewrite H. done.
Qed.
End Chat.

(** C8, as amended.  In [makeRequest]: a client error other than 429 and
    402 ends the request at once and is rethrown; at most [maxRetries + 1]
    attempts are made; when every attempt was retried the request fails with
    the error of the last attempt.  In [LLMClient.chat]: a failure with any
    status but 429 ends the call at once (a 401 as a new "Unauthorized"
    error, any other as it is); at most 5 attempts are made; when every
    attempt was rate limited the call fails with the fixed error "Too many
    requests", which does not carry the last error. *)
Theorem retry_policy :
  (∀ cfg post a e,
     a ≤ maxRetries cfg → (∀ i, i < a → retried cfg post i) →
     post a = inl e → client_error e →
     outcome (makeRequest cfg post) = Throws e ∧
     posts (makeRequest cfg post) = S a) ∧
  (∀ cfg post, posts (makeRequest cfg post) ≤ maxRetries cfg + 1) ∧
  (∀ cfg post e,
     (∀ i, i ≤ maxRetries cfg → retried cfg post i) →
     post (maxRetries cfg) = inl e →
     outcome (makeRequest cfg post) = Throws e ∧
     posts (makeRequest cfg post) = maxRetries cfg + 1) ∧
  (∀ create apiKey a e,
     truthy_key apiKey = true → a < maxAttempts →
     (∀ i, i < a → rate_limited create i) →
     create a = inl e → status e ≠ Some 429%Z →
     chat_outcome (chat create apiKey)
       = Throws (if bool_decide (status e = Some 401%Z)
                 then Error "Unauthorized: Invalid API key" else e) ∧
     chat_calls (chat create apiKey) = S a) ∧
  (∀ create apiKey, chat_calls (chat create apiKey) ≤ 5) ∧
  (∀ create apiKey,
     truthy_key apiKey = true →
     (∀ i, i < maxAttempts → rate_limited create i) →
     chat_outcome (chat create apiKey)
       = Throws (Error "Too many requests, please try again later.") ∧
     chat_calls (chat create apiKey) = 5).
Proof.
  split; [|split; [|split; [|split; [|split]]]].
  - intros cfg post a e Ha Hr He Hc. apply rethrown; try done.
    by apply client_error_rethrown.
  - intros cfg post. unfold makeRequest.
    etrans; [apply posts_bound|lia].
  - intros cfg post e Hr He. rewrite Nat.add_1_r. by apply exhausted.
  - intros create apiKey a e. apply chat_aborts.
  - intros create apiKey. unfold chat. destruct (truthy_key apiKey); [|simpl; lia].
    etrans; [apply chat_calls_bound|]. unfold maxAttempts. lia.
  - intros create apiKey. apply chat_exhausted.
Qed.

(** A service that answers 400 is asked once; one that answers 429 is asked
    six times by the constructor's policy, with five growing delays and a
    sixth before the loop ends. *)
Example makeRequest_rejected :
  makeRequest retryConfig always_400 = mkRun (Throws (axios_error 400)) [] 1.
Proof. reflexivity. Qed.

Example makeRequest_rate_limited :
  let r := makeRequest retryConfig (λ _, inl (axios_error 429)) in
  outcome r = Throws (axios_error 429) ∧ posts r = 6 ∧
  Forall2 Qeq (slept r) [6000; 12000; 24000; 30000; 30000; 30000]%Q.
Proof. split; [done|]. split; [done|]. repeat constructor. Qed.

(** C8, as stated, fails for [LLMClient.chat]: when the service answers 429
    to all five attempts, the call does not fail with the last error it
    saw. *)
Lemma chat_exhausted_drops_last_error :
  ¬ ∃ e, always_429 4 = inl e ∧
         chat_outcome (chat always_429 (Some "sk-key")) = Throws e.
Proof. intros (e & [= <-] & H). by vm_compute in H. Qed.

End Retry.


(** ** The response sanitizer *)

Module Sanitizer.
Import Text Json Replies.
Local Open Scope char_scope.

Local Notation "'collapse'" := (replace_pair backslash backslash [backslash]).

Lemma replace_pair_unfold a b rep x y r :
  replace_pair a b rep (x :: y :: r) =
  if bool_decide (x = a) && bool_decide (y = b)
  then rep ++ replace_pair a b rep r
  else x :: replace_pair a b rep (y :: r).
Proof. done. Qed.

Lemma replace_pair_head_ne a b rep x l :
  x ≠ a → replace_pair a b rep (x :: l) = x :: replace_pair a b rep l.
Proof.
  intros Hx. destruct l as [|y r]; [done|]. rewrite replace_pair_unfold.
  by rewrite (bool_decide_eq_false_2 (x = a)) by done.
Qed.

(** Replacing a pair by itself changes nothing. *)
Lemma replace_pair_same_aux a b n :
  ∀ l, (length l ≤ n)%nat → replace_pair a b [a; b] l = l.
Proof.
  induction n as [|n IH]; intros l Hl.
  - by destruct l; simpl in *; [|lia].
  - destruct l as [|x [|y r]]; [done|done|].
    rewrite replace_pair_unfold. simpl in Hl.
    destruct (bool_decide (x = a) && bool_decide (y = b)) eqn:E.
    + apply andb_prop in E as [->%bool_decide_eq_true ->%bool_decide_eq_true].
      simpl. rewrite IH by lia. done.
    + rewrite IH by (simpl; lia). done.
Qed.

Lemma replace_pair_same a b l : replace_pair a b [a; b] l = l.
Proof. by apply (replace_pair_same_aux a b (length l)). Qed.

Lemma clean_collapse l : clean l = collapse (strip_control l).
Proof. unfold clean. by rewrite !replace_pair_same. Qed.

Lemma replace_pair_Forall (P : ascii → Prop) a b rep n :
  ∀ l, (length l ≤ n)%nat →
  Forall P rep → Forall P l → Forall P (replace_pair a b rep l).
Proof.
  induction n as [|n IH]; intros l Hl Hrep HP.
  - by destruct l; simpl in *; [|lia].
  - destruct l as [|x [|y r]]; [done|done|].
    rewrite replace_pair_unfold. simpl in Hl.
    apply Forall_cons in HP as [Hx HP]. pose proof HP as [Hy Hr]%Forall_cons.
    case_match.
    + apply Forall_app. split; [done|]. apply IH; [lia|done|done].
    + apply Forall_cons. split; [done|]. apply IH; [simpl; lia|done|done].
Qed.

Lemma strip_control_Forall l : Forall (λ c, is_control c = false) (strip_control l).
Proof.
  unfold strip_control. apply Forall_forall. intros c Hc.
  by apply list_elem_of_filter in Hc as [? _].
Qed.

Lemma strip_control_app p q :
  strip_control (p ++ q) = strip_control p ++ strip_control q.
Proof. apply filter_app. Qed.

(** A backslash followed by a letter stays where it is when the pairs of
    backslashes before it are collapsed. *)
Lemma collapse_keeps x q n :
  x ≠ backslash → ∀ p, (length p ≤ n)%nat →
  ∃ p', collapse (p ++ backslash :: x :: q) = p' ++ backslash :: x :: collapse q.
Proof.
  intros Hx.
  assert (Hbase : collapse (backslash :: x :: q) = backslash :: x :: collapse q).
  { rewrite replace_pair_unfold, (bool_decide_eq_false_2 (x = backslash)) by done.
    rewrite andb_false_r. by rewrite replace_pair_head_ne. }
  induction n as [|n IH]; intros p Hp.
  - destruct p; simpl in Hp; [|lia]. by exists [].
  - destruct p as [|c [|d p2]]; simpl in Hp.
    + by exists [].
    + simpl app. rewrite replace_pair_unfold. case_match.
      * exists []. by rewrite replace_pair_head_ne.
      * exists [c]. by rewrite Hbase.
    + change ((c :: d :: p2) ++ backslash :: x :: q)
        with (c :: d :: (p2 ++ backslash :: x :: q)).
      rewrite replace_pair_unfold. case_match.
      * destruct (IH p2 ltac:(lia)) as [p' ->]. by exists ([backslash] ++ p').
      * destruct (IH (d :: p2) ltac:(simpl; lia)) as [p' Hp'].
        cbn [app] in Hp'. rewrite Hp'. by exists (c :: p').
Qed.

Lemma clean_keeps x l :
  x ≠ backslash → is_control x = false →
  occurs [backslash; x] l → occurs [backslash; x] (clean l).
Proof.
  intros Hx Hc (p & q & ->). rewrite clean_collapse.
  rewrite strip_control_app. simpl app.
  unfold strip_control at 2. rewrite !filter_cons.
  rewrite decide_True by done. rewrite decide_True by done.
  fold (strip_control q).
  destruct (collapse_keeps x (strip_control q) _ Hx (strip_control p) (le_n _))
    as [p' ->].
  by exists p', (collapse (strip_control q)).
Qed.

(** C6, as amended: the clean-up leaves no control character (0x00-0x1F,
    0x7F) in the text and keeps every escape sequence \n, \r and \t that the
    candidate held; the escape sequence of the backslash is not kept: after
    the control characters are removed, every pair of backslashes, taken
    from the left, is replaced by one backslash. *)
Theorem clean_spec l :
  Forall (λ c, is_control c = false) (clean l) ∧
  (∀ x, x ∈ ["n"; "r"; "t"] → occurs [backslash; x] l → occurs [backslash; x] (clean l)) ∧
  clean l = replace_pair backslash backslash [backslash] (strip_control l).
Proof.
  split; [|split].
  - rewrite clean_collapse.
    apply (replace_pair_Forall _ _ _ _ (length (strip_control l))); [done| |].
    + by apply Forall_singleton.
    + apply strip_control_Forall.
  - intros x Hx. apply clean_keeps.
    + intros ->. by repeat (apply elem_of_cons in Hx as [Hx|Hx]; [discriminate Hx|]);
        apply elem_of_nil in Hx.
    + repeat (apply elem_of_cons in Hx as [->|Hx]; [done|]). by apply elem_of_nil in Hx.
  - apply clean_collapse.
Qed.

(** C6, as stated, fails for the escaped backslash: the candidate made of
    two backslashes holds that sequence, and the cleaned text, one
    backslash, does not. *)
Lemma clean_collapses_escaped_backslash :
  ¬ (occurs [backslash; backslash] [backslash; backslash] →
     occurs [backslash; backslash] (clean [backslash; backslash])).
Proof.
  intros H. destruct H as (p & q & H).
  - by exists [], [].
  - apply (f_equal length) in H. rewrite !length_app in H. simpl in H. lia.
Qed.

End Sanitizer.


(** ** The provider client *)

Module Client.
Import Text Json Layr Mistral JsonFacts Policy Replies.

Lemma bind_completes {A B} (c : completion A) (k : A → completion B) :
  c ≠ OutOfFuel → (∀ a, k a ≠ OutOfFuel) → (c ≫= k) ≠ OutOfFuel.
Proof. destruct c; simpl; auto. Qed.

Lemma try_catch_completes {A} (c : completion A) h :
  c ≠ OutOfFuel → (∀ e, h e ≠ OutOfFuel) → try_catch c h ≠ OutOfFuel.
Proof. destruct c; simpl; auto. Qed.

Lemma bind_Normal {A B} (c : completion A) (k : A → completion B) b :
  (c ≫= k) = Normal b → ∃ a, c = Normal a ∧ k a = Normal b.
Proof. destruct c; simpl; [eauto|done|done]. Qed.

Lemma try_catch_rethrow_Normal {A} (c : completion A) (f : js_error → js_error) a :
  try_catch c (λ e, Throws (f e)) = Normal a → c = Normal a.
Proof. by destruct c. Qed.

Lemma build_task_completes now index task : build_task now index task ≠ OutOfFuel.
Proof. unfold build_task. by destruct task. Qed.

Lemma build_tasks_completes now tasks :
  ∀ index, build_tasks now index tasks ≠ OutOfFuel.
Proof.
  induction tasks as [|t tasks IH]; intros index; simpl; [done|].
  apply bind_completes; [apply build_task_completes|]. intros a.
  apply bind_completes; [apply IH|done].
Qed.

Lemma parse_plan_completes now rnd content : parse_plan now rnd content ≠ OutOfFuel.
Proof.
  unfold parse_plan. apply bind_completes; [apply JSON_parse_total|]. intros parsed.
  apply bind_completes; [apply get_completes|]. intros title.
  apply bind_completes; [apply get_completes|]. intros description.
  apply bind_completes; [apply get_completes|]. intros tasks.
  repeat case_match; try done.
  apply bind_completes; [apply build_tasks_completes|done].
Qed.

Lemma parseAndValidatePlan_completes now rnd content :
  parseAndValidatePlan now rnd content ≠ OutOfFuel.
Proof.
  unfold parseAndValidatePlan.
  apply try_catch_completes; [apply parse_plan_completes|done].
Qed.

(** A plan built from a reply is a draft without metadata, stamped by the
    clock. *)
Lemma parseAndValidatePlan_fresh now rnd content plan :
  parseAndValidatePlan now rnd content = Normal plan →
  Plan.status plan = draft ∧ Plan.metadata plan = None ∧
  Plan.createdAt plan = now_iso (now PlanCreatedAt) ∧
  Plan.updatedAt plan = now_iso (now PlanUpdatedAt).
Proof.
  intros H. apply try_catch_rethrow_Normal in H. unfold parse_plan in H.
  apply bind_Normal in H as (parsed & _ & H).
  apply bind_Normal in H as (title & _ & H).
  apply bind_Normal in H as (description & _ & H).
  apply bind_Normal in H as (tasks & _ & H).
  repeat case_match; try done.
  apply bind_Normal in H as (ts & _ & H). by simplify_eq.
Qed.

Lemma request_plan_completes post now rnd : request_plan post now rnd ≠ OutOfFuel.
Proof.
  unfold request_plan. apply bind_completes; [apply Retry.attempts_completes|].
  intros response. apply bind_completes.
  - unfold content_of. by repeat case_match.
  - intros content. apply parseAndValidatePlan_completes.
Qed.

Lemma request_plan_fresh post now rnd plan :
  request_plan post now rnd = Normal plan →
  Plan.status plan = draft ∧ Plan.metadata plan = None.
Proof.
  intros H. unfold request_plan in H.
  apply bind_Normal in H as (response & _ & H).
  apply bind_Normal in H as (content & _ & H).
  apply parseAndValidatePlan_fresh in H. naive_solver.
Qed.

(** The request fails exactly when one of its three stages does. *)
Lemma request_plan_fails post now rnd :
  fails (request_plan post now rnd) ↔
  fails (outcome (makeRequest retryConfig post)) ∨
  ∃ response, outcome (makeRequest retryConfig post) = Normal response ∧
    (fails (content_of response) ∨
     ∃ content, content_of response = Normal content ∧
                fails (parseAndValidatePlan now rnd content)).
Proof.
  unfold request_plan.
  destruct (outcome (makeRequest retryConfig post)) as [response|e|]; simpl.
  - destruct (content_of response) as [content|e|] eqn:Hc; simpl.
    + split.
      * intros H. right. exists response. split; [done|]. right. by exists content.
      * intros [[e He]|(r & [= <-] & [[e He]|(c & Hc' & H)])]; [done|congruence|].
        congruence.
    + split; [|by exists e].
      intros _. right. exists response. split; [done|]. left. by exists e.
    + split; [by intros [e He]|].
      intros [[e He]|(r & [= <-] & [[e He]|(c & Hc' & _)])]; congruence.
  - split; [by left; exists e|by exists e].
  - split; [by intros [e He]|]. by intros [[e He]|(r & Hr & _)].
Qed.

(** A [try] block that completes is caught by a handler that returns. *)
Lemma caught {A} (c : completion A) (a : A) :
  c ≠ OutOfFuel →
  returns (try_catch c (λ _, Normal a)) ∧
  (fails c → try_catch c (λ _, Normal a) = Normal a) ∧
  (∀ b, c = Normal b → try_catch c (λ _, Normal a) = Normal b).
Proof.
  intros Hc. destruct c as [b|e|]; simpl; [| |done].
  - split; [by exists b|]. split; [by intros [e He]|done].
  - split; [by exists a|]. split; done.
Qed.

Lemma generatePlan_returns post now rnd prompt context :
  returns (generatePlan post now rnd prompt context).
Proof. apply caught, request_plan_completes. Qed.

(** C3, as amended: no operation of the client ever fails.  When its
    request fails at any stage (retries exhausted, no content, parse or
    validation failure), [generatePlan] returns the fallback plan made by
    [getFallbackPlan], [refinePlan] returns the original plan unchanged, and
    [critique] returns a canned text; otherwise they return what the request
    produced. *)
Theorem client_never_fails post now rnd :
  (∀ prompt context,
     returns (generatePlan post now rnd prompt context) ∧
     (fails (request_plan post now rnd) →
      generatePlan post now rnd prompt context = Normal (getFallbackPlan now prompt)) ∧
     (∀ plan, request_plan post now rnd = Normal plan →
      generatePlan post now rnd prompt context = Normal plan)) ∧
  (∀ plan feedback context,
     returns (refinePlan post now rnd plan feedback context) ∧
     (fails (request_plan post now rnd) →
      refinePlan post now rnd plan feedback context = Normal plan)) ∧
  (∀ plan context,
     returns (critique post plan context) ∧
     (fails (outcome (makeRequest retryConfig post)) →
      critique post plan context = Normal canned_critique)) ∧
  (fails (request_plan post now rnd) ↔
   fails (outcome (makeRequest retryConfig post)) ∨
   ∃ response, outcome (makeRequest retryConfig post) = Normal response ∧
     (fails (content_of response) ∨
      ∃ content, content_of response = Normal content ∧
                 fails (parseAndValidatePlan now rnd content))).
Proof.
  pose proof (request_plan_completes post now rnd) as Hc.
  split; [|split; [|split]].
  - intros prompt context. by apply caught.
  - intros plan feedback context.
    assert (Hr : request_refinement post now rnd plan ≠ OutOfFuel).
    { unfold request_refinement. by apply bind_completes. }
    destruct (caught _ plan Hr) as (H1 & H2 & _). split; [done|].
    intros [e He]. apply H2. exists e. unfold request_refinement. by rewrite He.
  - intros plan context.
    assert (Hr : request_critique post ≠ OutOfFuel).
    { unfold request_critique.
      apply bind_completes; [apply Retry.attempts_completes|done]. }
    destruct (caught _ canned_critique Hr) as (H1 & H2 & _). split; [done|].
    intros [e He]. apply H2. exists e. unfold request_critique. by rewrite He.
  - apply request_plan_fails.
Qed.

(** The fallback plan of the client is not the planner's: three tasks, and
    a title made of the first 50 characters of the prompt. *)
Lemma getFallbackPlan_shape now prompt :
  length (Plan.tasks (getFallbackPlan now prompt)) = 3%nat ∧
  Plan.title (getFallbackPlan now prompt)
    = jstring ("Plan for: " +:+ String.substring 0 50 prompt +:+ "...").
Proof. done. Qed.

(** C3, as stated, fails: when the service answers 400 the request is
    rethrown by [makeRequest], and [generatePlan] returns a plan instead of
    failing. *)
Lemma client_substitutes_fallback_plan :
  ¬ (fails (request_plan always_400 (frozen noon) "r4nd0m") →
     fails (generatePlan always_400 (frozen noon) "r4nd0m" "Build a REST API" [])).
Proof.
  intros H. destruct H as [e He].
  - eexists. by vm_compute.
  - by vm_compute in He.
Qed.

(** C7, as amended: [refinePlan] always returns a plan with the id and the
    creation time of the original.  It is the original itself when the
    request failed; otherwise its title, description and tasks are those of
    the reply, its update time is the clock's, its status is reset to draft
    and it has no metadata. *)
Theorem refinePlan_keeps_identity post now rnd plan feedback context :
  ∃ refined,
    refinePlan post now rnd plan feedback context = Normal refined ∧
    Plan.id refined = Plan.id plan ∧
    Plan.createdAt refined = Plan.createdAt plan ∧
    (refined = plan ∨
     ∃ reply, request_plan post now rnd = Normal reply ∧
       Plan.title refined = Plan.title reply ∧
       Plan.description refined = Plan.description reply ∧
       Plan.tasks refined = Plan.tasks reply ∧
       Plan.updatedAt refined = now_iso (now RefinedUpdatedAt) ∧
       Plan.status refined = draft ∧
       Plan.metadata refined = None).
Proof.
  unfold refinePlan, request_refinement.
  pose proof (request_plan_completes post now rnd) as Hc.
  destruct (request_plan post now rnd) as [reply|e|] eqn:Hr; simpl; [| |done].
  - eexists. split; [done|]. simpl. split; [done|]. split; [done|]. right.
    exists reply. apply request_plan_fresh in Hr as [Hs Hm]. by rewrite Hs, Hm.
  - exists plan. split; [done|]. split; [done|]. split; [done|]. by left.
Qed.

(** C7, as stated, fails: refining a plan that is active and carries
    metadata returns a draft without metadata. *)
Lemma refinePlan_resets_status :
  ¬ ∀ refined,
      refinePlan (answers object_text) (frozen noon) "r4nd0m" active_plan "shorter" []
        = Normal refined →
      Plan.id refined = Plan.id active_plan ∧
      Plan.createdAt refined = Plan.createdAt active_plan ∧
      Plan.status refined = Plan.status active_plan ∧
      Plan.metadata refined = Plan.metadata active_plan.
Proof.
  intros H. edestruct H as (_ & _ & Hs & _); [by vm_compute|].
  by vm_compute in Hs.
Qed.

End Client.

(** ** The orchestrator and the legacy planner *)

Module Coordinator.
Import Json Layr Orchestrator Scenario.

(** C2, as amended: when the attempt with the named provider fails and the
    other provider fails too or is not tried, [LayerOrchestrator.generatePlan]
    appends the failure to the conversation of the session, saves it and
    rethrows the error of the first attempt; it invokes no heuristic
    generator.  The other provider is tried only when both providers have a
    client: when the named one has none, the error is that it is not
    available, also when the other one has a working client.  The planner's
    [generatePlan] returns the heuristic plan when no API key is stored. *)
Theorem generatePlan_rethrows this now toString sessionId session userPrompt p e :
  sessions this !! sessionId = Some session →
  tryGeneratePlan this p userPrompt
    (Session.conversation session ++ [mkConversationMessage user userPrompt now])
    = Throws e →
  (second_attempt this p →
   fails (tryGeneratePlan this (other p) userPrompt
     (Session.conversation session ++ [mkConversationMessage user userPrompt now]))) →
  generatePlan this now toString sessionId userPrompt p
    = (Throws e,
       updateSession this now
         (push (mkConversationMessage assistant
                  ("Failed to generate plan: " +:+ message e) now)
            (push (mkConversationMessage user userPrompt now) session))) ∧
  (getLLMClient this p = None → e = not_available p ∧ ¬ second_attempt this p) ∧
  ∀ create parseJsonResponse apiKey goal,
    Planner.truthy_key apiKey = false →
    Planner.generatePlan create parseJsonResponse apiKey goal
      = Normal (Planner.fallbackHeuristicPlan goal).
Proof.
  intros Hs Hp Ho. split; [|split].
  - unfold generatePlan, getSession. rewrite Hs. unfold attempt_providers.
    simpl. rewrite Hp. simpl.
    destruct (bool_decide (1 < length (availableProviders this))%nat) eqn:H1;
      [|done].
    destruct (bool_decide (provider_name (other p) ∈ availableProviders this)) eqn:H2;
      [|done].
    apply bool_decide_eq_true in H1, H2.
    destruct (Ho (conj H1 H2)) as [e' ->]. done.
  - intros Hc. split.
    + unfold tryGeneratePlan in Hp. rewrite Hc in Hp. by injection Hp as <-.
    + intros [Hlen _]. revert Hlen. unfold availableProviders, getLLMClient in *.
      destruct p; rewrite Hc; simpl;
        [destruct (deepseekClient this)|destruct (mistralClient this)]; simpl; lia.
  - intros create parse apiKey goal Hk. unfold Planner.generatePlan. by rewrite Hk.
Qed.

(** With a Mistral client configured the attempt never fails, since the
    client fabricates a plan itself: the orchestrator returns a plan. *)
Lemma generatePlan_with_client this now toString sessionId session userPrompt
    post clk rnd :
  sessions this !! sessionId = Some session →
  mistralClient this = Some (Mistral.MistralClient post clk rnd) →
  returns (fst (generatePlan this now toString sessionId userPrompt mistral)).
Proof.
  intros Hs Hc. unfold generatePlan, getSession. rewrite Hs.
  unfold attempt_providers, tryGeneratePlan, getLLMClient. rewrite Hc. simpl.
  destruct (Client.generatePlan_returns post clk rnd userPrompt
    (Session.conversation session ++ [mkConversationMessage user userPrompt now]))
    as [plan ->].
  simpl. by exists plan.
Qed.

(** Only the DeepSeek key is set and Mistral is asked for: the DeepSeek
    client would answer, but it is not tried. *)
Lemma generatePlan_rethrows_witness :
  fst (generatePlan Stores.only_deepseek "2023-11-14T22:13:20.000Z" no_text "s1"
         "Build a REST API" mistral)
    = Throws (Error "mistral client not available. Check your API key configuration.") ∧
  returns (tryGeneratePlan Stores.only_deepseek deepseek "Build a REST API" []) ∧
  ¬ second_attempt Stores.only_deepseek mistral.
Proof.
  destruct (generatePlan_rethrows Stores.only_deepseek "2023-11-14T22:13:20.000Z"
              no_text "s1" empty_session "Build a REST API" mistral
              (not_available mistral)) as (Hg & Hn & _).
  - by vm_compute.
  - reflexivity.
  - intros [Hlen _]. vm_compute in Hlen. lia.
  - split; [exact (f_equal fst Hg)|]. split; [by eexists|].
    exact (proj2 (Hn eq_refl)).
Defined.

(** C2, as stated, fails: with no provider configured the operation does
    not return a plan. *)
Lemma generatePlan_fails_without_provider :
  ¬ returns (fst (generatePlan unconfigured "2023-11-14T22:13:20.000Z" no_text "s1"
                    "Build a REST API" mistral)).
Proof. intros [plan H]. by vm_compute in H. Qed.

End Coordinator.

Module Heuristic.
Import Planner Steps.

(** C5, as amended: without a stored key, the planner's [generatePlan]
    returns the heuristic plan for any goal: exactly four steps with ids 1,
    2, 3, 4, where step 1 has no dependency and each later step depends on
    just the step before it, and the title is "Plan for: " followed by the
    goal.  The orchestrator and its client do otherwise.  Without any client
    [LayerOrchestrator.generatePlan] returns no plan.  The plan that
    [MistralClient.getFallbackPlan] makes has three tasks; its title is
    "Plan for: ", the first 50 characters of the prompt and "..."; the
    first task has no dependency, and the dependency of each later task is
    written like the id of the task before it, from another reading of the
    clock: it names that task when the two readings agree. *)
Theorem generatePlan_without_key create parseJsonResponse apiKey goal :
  truthy_key apiKey = false → goal ≠ "" →
  (∃ plan,
    generatePlan create parseJsonResponse apiKey goal = Normal plan ∧
    plan = fallbackHeuristicPlan goal ∧
    Plan.title plan = "Plan for: " +:+ goal ∧
    length (Plan.steps plan) = 4%nat ∧
    PlanStep.id <$> Plan.steps plan = [1; 2; 3; 4] ∧
    deps_of <$> Plan.steps plan = [[]; [1]; [2]; [3]]) ∧
  (∀ this now toString sessionId p,
     Orchestrator.mistralClient this = None →
     Orchestrator.deepseekClient this = None →
     ¬ returns (Orchestrator.generatePlan this now toString sessionId goal p).1) ∧
  (∀ now,
     let plan := Mistral.getFallbackPlan now goal in
     let id_at s n := "task_" +:+ Layr.now_ms (now s) +:+ "_" +:+ pretty n in
     Layr.Plan.title plan
       = Json.jstring ("Plan for: " +:+ String.substring 0 50 goal +:+ "...") ∧
     Layr.Task.id <$> Layr.Plan.tasks plan
       = [id_at (Mistral.FallbackTaskId 1) 1%nat;
          id_at (Mistral.FallbackTaskId 2) 2%nat;
          id_at (Mistral.FallbackTaskId 3) 3%nat] ∧
     Layr.Task.dependencies <$> Layr.Plan.tasks plan
       = [Json.JArray [];
          Json.JArray [Json.jstring (id_at (Mistral.FallbackDependency 2) 1%nat)];
          Json.JArray [Json.jstring (id_at (Mistral.FallbackDependency 3) 2%nat)]]).
Proof.
  intros Hk _. split; [|split].
  - exists (fallbackHeuristicPlan goal). unfold generatePlan. rewrite Hk. done.
  - intros this now toString sessionId p Hm Hd [plan Hp]. revert Hp.
    unfold Orchestrator.generatePlan, Orchestrator.getSession.
    destruct (Orchestrator.sessions this !! sessionId) as [session|]; [|done].
    unfold Orchestrator.attempt_providers, Orchestrator.tryGeneratePlan,
      Orchestrator.getLLMClient, Orchestrator.availableProviders.
    rewrite Hm, Hd. by destruct p.
  - intros now. done.
Qed.

(** No key is stored, and the goal is that of the scenario. *)
Lemma generatePlan_without_key_witness :
  ∃ plan,
    generatePlan Policy.always_429 (λ _, Throws (Error "unused")) None
      "Build a REST API" = Normal plan ∧
    Plan.title plan = "Plan for: Build a REST API" ∧
    PlanStep.id <$> Plan.steps plan = [1; 2; 3; 4] ∧
    deps_of <$> Plan.steps plan = [[]; [1]; [2]; [3]].
Proof.
  destruct (generatePlan_without_key Policy.always_429 (λ _, Throws (Error "unused"))
              None "Build a REST API" eq_refl ltac:(discriminate))
    as ((plan & H & -> & _ & _ & Hids & Hdeps) & _).
  exists (fallbackHeuristicPlan "Build a REST API"). split; [exact H|].
  split; [reflexivity|]. split; [exact Hids|exact Hdeps].
Defined.

(** C5, as stated, fails: with no provider configured the orchestrator
    returns no plan at all; and the plan that the client makes when its
    request fails has neither four tasks nor the title of the claim. *)
Lemma no_heuristic_plan_in_orchestrator :
  ¬ (∃ plan,
       ((Orchestrator.generatePlan Scenario.unconfigured "2023-11-14T22:13:20.000Z"
           Scenario.no_text "s1" "Build a REST API" Orchestrator.mistral).1
        = Normal plan ∨
        Mistral.generatePlan Policy.always_400 (Replies.frozen Replies.noon) "r4nd0m"
          "Build a REST API" [] = Normal plan) ∧
       length (Layr.Plan.tasks plan) = 4%nat ∧
       Layr.Plan.title plan = Json.jstring "Plan for: Build a REST API").
Proof.
  intros (plan & [H|H] & Hlen & _).
  - by vm_compute in H.
  - vm_compute in H. injection H as <-. discriminate Hlen.
Qed.

End Heuristic.


(** ** What the legacy planner accepts and rejects *)

Module PlanChecks.
Import Planner Steps Graph Traversal Validation.

Lemma hasUniqueIds_false steps : hasUniqueIds steps = false ↔ ¬ NoDup (ids steps).
Proof. rewrite <- hasUniqueIds_NoDup. by destruct (hasUniqueIds steps). Qed.

Lemma tc_equiv {A} (R R' : relation A) x y :
  (∀ a b, R a b → R' a b) → tc R x y → tc R' x y.
Proof.
  intros Hsub H. induction H as [x y H|x y z H _ IH].
  - apply tc_once. by apply Hsub.
  - eapply tc_l; [by apply Hsub|done].
Qed.

Lemma ids_Permutation steps steps' : steps ≡ₚ steps' → ids steps ≡ₚ ids steps'.
Proof. intros H. unfold ids. by rewrite H. Qed.

Lemma dep_rel_Permutation steps steps' x y :
  steps ≡ₚ steps' → dep_rel steps x y → dep_rel steps' x y.
Proof. intros H (s & Hs & Hx & Hy). exists s. by rewrite <- H. Qed.

Lemma restricted_Permutation steps steps' x y :
  steps ≡ₚ steps' → restricted steps x y → restricted steps' x y.
Proof.
  intros H [Hd Hy]. split; [by eapply dep_rel_Permutation|].
  by rewrite <- (ids_Permutation _ _ H).
Qed.

Lemma well_formed_Permutation steps steps' :
  steps ≡ₚ steps' →
  NoDup (ids steps) ∧ referential steps ∧ acyclic steps →
  NoDup (ids steps') ∧ referential steps' ∧ acyclic steps'.
Proof.
  intros H (Hn & Hr & Ha). split; [|split].
  - by rewrite <- (ids_Permutation _ _ H).
  - intros x y Hxy. rewrite <- (ids_Permutation _ _ H). apply (Hr x).
    by eapply dep_rel_Permutation.
  - intros x Hx. apply (Ha x). eapply tc_equiv; [|exact Hx].
    intros a b. by apply restricted_Permutation.
Qed.

Lemma validate_accepts plan :
  validate plan = Normal plan ↔
  NoDup (ids (Plan.steps plan)) ∧ referential (Plan.steps plan) ∧
  acyclic (Plan.steps plan).
Proof.
  rewrite validate_Normal, hasUniqueIds_NoDup. split.
  - intros (_ & Hn & Hf). split; [done|]. by apply hasCycles_false_iff.
  - intros (Hn & Hr & Ha). split; [done|]. split; [done|].
    by apply hasCycles_false_iff.
Qed.

(** X1: when a key is stored and the reply of the model parses to a plan
    of the declared type (steps with numbers as ids and lists of numbers,
    or nothing, as dependencies), the validation of [generatePlan] and
    [refinePlan] completes in one of four ways: the plan is returned as it
    was parsed, or the call throws 'Invalid plan format: ' followed by
    'Step IDs must be unique', by 'Plan has cyclic dependencies' or by the
    message of the engine's TypeError for a dependency that names no step.
    The first error is thrown exactly when two steps share an id, whatever
    the dependencies are: the uniqueness check comes first.  (A reply of
    another shape is outside this statement.) *)
Theorem validate_outcomes create parseJsonResponse apiKey goal old instruction raw plan :
  truthy_key apiKey = true →
  chat_outcome (chat create apiKey) = Normal raw →
  parseJsonResponse raw = Normal plan →
  let r := generatePlan create parseJsonResponse apiKey goal in
  refinePlan create parseJsonResponse apiKey old instruction = r ∧
  (validate plan = Normal plan ∧ r = Normal plan ∨
   ∃ cause,
     validate plan = Throws cause ∧
     r = Throws (Error ("Invalid plan format: " +:+ message cause)) ∧
     (cause = Error "Step IDs must be unique" ∨
      cause = Error "Plan has cyclic dependencies" ∨
      cause = TypeError not_iterable)) ∧
  (r = Throws (Error "Invalid plan format: Step IDs must be unique")
   ↔ ¬ NoDup (ids (Plan.steps plan))).
Proof.
  intros Hk Hchat Hparse r. subst r.
  unfold generatePlan, refinePlan, checked. rewrite Hk, Hchat. simpl.
  rewrite Hparse. simpl. split; [done|].
  rewrite <- hasUniqueIds_false. unfold validate.
  pose proof (hasCycles_spec (Plan.steps plan)) as H.
  destruct (hasUniqueIds (Plan.steps plan)); simpl.
  - destruct (hasCycles (Plan.steps plan)) as [[]|e|]; simpl; [| | |done].
    + split; [|split; intros; discriminate].
      right. eexists. split; [done|]. split; [done|]. by right; left.
    + split; [by left|]. split; intros; discriminate.
    + destruct H as [-> _]. split; [|split; intros; discriminate].
      right. eexists. split; [done|]. split; [done|]. by right; right.
  - split; [|done]. right. eexists. split; [done|]. split; [done|]. by left.
Qed.

(** The reply parses to two steps that share the id 1, the second of which
    depends on a step that does not exist. *)
Lemma validate_outcomes_witness :
  generatePlan (λ _, inr (Some "reply")) (λ _, Normal (plan_of [step 1 []; step 1 [7]]))
    (Some "sk-key") "app"
  = Throws (Error "Invalid plan format: Step IDs must be unique").
Proof.
  destruct (validate_outcomes (λ _, inr (Some "reply"))
              (λ _, Normal (plan_of [step 1 []; step 1 [7]]))
              (Some "sk-key") "app" (fallbackHeuristicPlan "app") "more"
              "reply" (plan_of [step 1 []; step 1 [7]]))
    as (_ & _ & H); [reflexivity..|].
  apply H. intros Hn. apply NoDup_cons in Hn as [Hn _]. apply Hn. by left.
Defined.

(** X2: on steps with pairwise distinct ids, the cycle error is sound: it is
    thrown only when the dependencies among the steps form a cycle; and
    when every dependency names a step it is complete: every cycle is
    reported. *)
Theorem validate_cycle_error plan :
  NoDup (ids (Plan.steps plan)) →
  (validate plan = Throws (Error "Plan has cyclic dependencies") →
   ¬ acyclic (Plan.steps plan)) ∧
  (referential (Plan.steps plan) → ¬ acyclic (Plan.steps plan) →
   validate plan = Throws (Error "Plan has cyclic dependencies")).
Proof.
  intros Hn. pose proof Hn as Hu. apply hasUniqueIds_NoDup in Hu.
  unfold validate. rewrite Hu. simpl.
  pose proof (hasCycles_spec (Plan.steps plan)) as H.
  destruct (hasCycles (Plan.steps plan)) as [[]|e|] eqn:Hc; simpl; [| | |done].
  - split; [|done]. intros _. by apply cyclic_not_acyclic.
  - apply (hasCycles_false_iff _ Hn) in Hc as [_ Ha]. split; [done|]. by intros _ [].
  - destruct H as [-> H]. apply dangling_not_referential in H.
    split; [done|]. by intros Hr.
Qed.

(** The step that depends on itself. *)
Lemma validate_cycle_error_witness :
  NoDup (ids (Plan.steps (plan_of [step 1 [1]]))) ∧
  ¬ acyclic [step 1 [1]].
Proof.
  assert (Hn : NoDup (ids (Plan.steps (plan_of [step 1 [1]]))))
    by apply NoDup_singleton.
  split; [exact Hn|].
  exact (proj1 (validate_cycle_error (plan_of [step 1 [1]]) Hn) eq_refl).
Defined.

(** X3: whether a plan is accepted does not depend on the order of its
    steps, although the traversal starts from the first step and follows
    the steps in order. *)
Theorem validate_order_independent plan plan' :
  Plan.steps plan ≡ₚ Plan.steps plan' →
  returns (validate plan) ↔ returns (validate plan').
Proof.
  assert (H : ∀ p q, Plan.steps p ≡ₚ Plan.steps q →
                returns (validate p) → returns (validate q)).
  { intros p q Hp [r Hr]. exists q.
    pose proof Hr as Hr'. apply validate_Normal in Hr' as [-> _].
    apply validate_accepts. apply validate_accepts in Hr.
    by eapply well_formed_Permutation. }
  intros Hp. split; apply H; [done|by symmetry].
Qed.

(** Steps 2 -> [1] and 1 -> [], in both orders. *)
Lemma validate_order_independent_witness :
  returns (validate (plan_of [step 2 [1]; step 1 []])) ↔
  returns (validate (plan_of [step 1 []; step 2 [1]])).
Proof.
  apply (validate_order_independent (plan_of [step 2 [1]; step 1 []])
           (plan_of [step 1 []; step 2 [1]])).
  apply perm_swap.
Defined.



(** X24: with a stored key, an error of [generatePlan] or [refinePlan] is
    either the error of [chat], passed on as it is, or a new error whose
    message is 'Invalid plan format: ' followed by the message of what went
    wrong after the reply arrived: the parser's error, or the error of
    the validation. *)
Theorem planner_errors create parseJsonResponse apiKey goal old instruction e :
  truthy_key apiKey = true →
  generatePlan create parseJsonResponse apiKey goal = Throws e ∨
  refinePlan create parseJsonResponse apiKey old instruction = Throws e →
  chat_outcome (chat create apiKey) = Throws e ∨
  ∃ raw cause,
    chat_outcome (chat create apiKey) = Normal raw ∧
    e = Error ("Invalid plan format: " +:+ message cause) ∧
    (parseJsonResponse raw = Throws cause ∨
     ∃ plan, parseJsonResponse raw = Normal plan ∧ validate plan = Throws cause).
Proof.
  intros Hk H.
  assert (He : (raw ← chat_outcome (chat create apiKey);
                checked parseJsonResponse raw) = Throws e).
  { unfold generatePlan, refinePlan in H. rewrite Hk in H. by destruct H. }
  clear H. destruct (chat_outcome (chat create apiKey)) as [raw|e'|]; simpl in He;
    [|left; congruence|done].
  right. exists raw. unfold checked in He.
  destruct (parseJsonResponse raw) as [plan|cause|] eqn:Hp; simpl in He; [| |done].
  - destruct (validate plan) as [p|cause|] eqn:Hv; simpl in He; [done| |done].
    exists cause. injection He as <-. split; [done|]. split; [done|].
    right. by exists plan.
  - exists cause. injection He as <-. split; [done|]. split; [done|]. by left.
Qed.

(** The service answers 429 five times: the error of [chat] is passed on. *)
Lemma planner_errors_witness :
  chat_outcome (chat Policy.always_429 (Some "sk-key"))
  = Throws (Error "Too many requests, please try again later.").
Proof.
  destruct (planner_errors Policy.always_429 (λ _, Throws (Error "unused"))
              (Some "sk-key") "app" (fallbackHeuristicPlan "app") "more"
              (Error "Too many requests, please try again later."))
    as [H|(raw & cause & H & _)].
  - reflexivity.
  - left. reflexivity.
  - exact H.
  - discriminate H.
Defined.

End PlanChecks.


(** ** The waits of [LLMClient.chat] *)

Module ChatBackoff.
Import Planner Policy Waits.

Lemma doubling_S d k : doubling d (S k) = d :: doubling (d * 2) k.
Proof.
  unfold doubling. simpl. f_equal; [lia|].
  rewrite <- fmap_S_seq, <- list_fmap_compose. apply list_fmap_ext.
  intros _ i _. simpl. rewrite Nat2Z.inj_succ, Z.pow_succ_r by lia. lia.
Qed.

Section Chat.
Variable create : nat → js_error + option string.

Lemma chat_loop_waits k : ∀ remaining attempt d slept,
  (∀ i, attempt ≤ i < attempt + k → rate_limited create i)%nat →
  chat_loop create (k + remaining) attempt d slept
  = chat_loop create remaining (attempt + k) (d * 2 ^ Z.of_nat k)
      (slept ++ doubling d k).
Proof.
  induction k as [|k IH]; intros remaining attempt d slept Hr.
  - rewrite Nat.add_0_r, app_nil_r. simpl. f_equal. lia.
  - destruct (Hr attempt ltac:(lia)) as (e & He & Hs).
    cbn [Nat.add chat_loop]. rewrite He, bool_decide_eq_true_2 by done.
    rewrite IH by (intros i Hi; apply Hr; lia).
    rewrite doubling_S, <- app_assoc. cbn [app].
    f_equal; [lia|]. rewrite Nat2Z.inj_succ, Z.pow_succ_r by lia. lia.
Qed.
End Chat.

(** X5: when the first [k] answers of the service are 429 and the next
    one, if [chat] comes to ask for it, is not, [chat] has waited exactly
    [k] times, 1000 ms first and twice as long each time after, and has
    called the service [k + 1] times (five times at most); a content
    answered then is what it returns, the empty string for a null
    content. *)
Theorem chat_waits create apiKey k :
  truthy_key apiKey = true → (k ≤ maxAttempts)%nat →
  (∀ i, i < k → rate_limited create i)%nat →
  ((k < maxAttempts)%nat → ¬ rate_limited create k) →
  chat_slept (chat create apiKey) = doubling 1000 k ∧
  chat_calls (chat create apiKey) = (S k `min` maxAttempts)%nat ∧
  ∀ c, (k < maxAttempts)%nat → create k = inr c →
       chat_outcome (chat create apiKey) = Normal (default "" c).
Proof.
  intros Hk Hle Hr Hn. unfold chat. rewrite Hk.
  assert (Hloop : chat_loop create maxAttempts 0 1000 []
                  = chat_loop create (maxAttempts - k) k (1000 * 2 ^ Z.of_nat k)
                      (doubling 1000 k)).
  { etrans; [|apply (chat_loop_waits create k (maxAttempts - k) 0 1000 []);
              intros i Hi; apply Hr; lia].
    f_equal. lia. }
  rewrite Hloop. clear Hloop.
  destruct (maxAttempts - k)%nat as [|rest] eqn:Hrest.
  - cbn [chat_loop chat_slept chat_calls]. split; [done|]. split; [lia|].
    intros c Hc. lia.
  - cbn [chat_loop]. destruct (create k) as [e|c] eqn:He.
    + case_bool_decide as Hs; [destruct Hn; [lia|by exists e]|].
      case_bool_decide; cbn [chat_slept chat_calls]; (split; [done|]);
        (split; [lia|done]).
    + cbn [chat_slept chat_calls chat_outcome]. split; [done|]. split; [lia|].
      by intros ? _ [= ->].
Qed.

(** Two rate-limited answers, then a reply. *)
Lemma chat_waits_witness :
  chat_slept (chat (limited_then 2 "{}") (Some "sk-key")) = [1000; 2000] ∧
  chat_calls (chat (limited_then 2 "{}") (Some "sk-key")) = 3%nat ∧
  chat_outcome (chat (limited_then 2 "{}") (Some "sk-key")) = Normal "{}".
Proof.
  destruct (chat_waits (limited_then 2 "{}") (Some "sk-key") 2) as (Hs & Hc & Ho).
  - reflexivity.
  - unfold maxAttempts. lia.
  - intros i Hi. exists (api_error 429). split; [|reflexivity].
    by destruct i as [|[|i]]; [..|lia].
  - intros _ (e & He & _). discriminate He.
  - split; [exact Hs|]. split; [exact Hc|].
    apply (Ho (Some "{}")); [unfold maxAttempts; lia|reflexivity].
Defined.

End ChatBackoff.

(** ** Code generation *)

Module CodegenFacts.
Import Json Planner Codegen JsonFacts.

Lemma mock_reply_parsed :
  MockProvider.parseJsonResponse MockProvider.chat
  = Normal (JObject [(units "reply", jstring "This is a mock response.")]).
Proof. by vm_compute. Qed.

Lemma validateCodegenJson_true obj :
  validateCodegenJson obj = Normal true ↔
  ∃ members filename content stepId,
    obj = JObject members ∧
    last_member (units "filename") members = Some (JString filename) ∧
    last_member (units "content") members = Some (JString content) ∧
    last_member (units "stepId") members = Some (JNumber stepId).
Proof.
  unfold validateCodegenJson. destruct obj as [|b|n|s|vs|ms]; simpl;
    try (split; [done|by intros (? & ? & ? & ? & ? & _)]).
  destruct (last_member (units "filename") ms) as [[]|] eqn:Hf; simpl;
    try (split; [done|by intros (? & ? & ? & ? & [= <-] & ? & _); congruence]).
  destruct (last_member (units "content") ms) as [[]|] eqn:Hc; simpl;
    try (split; [done|by intros (? & ? & ? & ? & [= <-] & ? & ? & _); congruence]).
  destruct (last_member (units "stepId") ms) as [[]|] eqn:Hs; simpl;
    try (split; [done|by intros (? & ? & ? & ? & [= <-] & ? & ? & ?); congruence]).
  split; [|done]. intros _. by eexists _, _, _, _.
Qed.

Lemma validateCodegenJson_answers obj :
  obj ≠ JNull → ∃ b, validateCodegenJson obj = Normal b.
Proof.
  unfold validateCodegenJson. destruct obj as [|b|n|s|vs|ms]; simpl; intros Hn;
    [done|by exists false..|].
  destruct (typeof_string _); simpl; [|by exists false].
  destruct (typeof_string _); simpl; [|by exists false].
  by eexists.
Qed.

(** X6: [validateCodegenJson] accepts exactly the objects whose members
    filename and content are strings and whose member stepId is a number
    (for a repeated key, the last member).  It throws only on [null], whose
    [typeof] is 'object' too; every other value that is not such an object,
    arrays included, is answered with [false]. *)
Theorem validateCodegenJson_spec obj :
  (validateCodegenJson obj = Normal true ↔
   ∃ members filename content stepId,
     obj = JObject members ∧
     last_member (units "filename") members = Some (JString filename) ∧
     last_member (units "content") members = Some (JString content) ∧
     last_member (units "stepId") members = Some (JNumber stepId)) ∧
  (fails (validateCodegenJson obj) ↔ obj = JNull) ∧
  (validateCodegenJson obj = Normal false ∨
   validateCodegenJson obj = Normal true ∨ obj = JNull).
Proof.
  split; [apply validateCodegenJson_true|].
  assert (obj = JNull ∨ obj ≠ JNull) as [->|Hn] by (destruct obj; auto).
  - split; [|by right; right]. split; [done|]. intros _. by eexists.
  - destruct (validateCodegenJson_answers obj Hn) as [[] Hb]; rewrite Hb.
    + split; [|by right; left]. split; [by intros []|done].
    + split; [|by left]. split; [by intros []|done].
Qed.

Section Generate.
Variable create : nat → js_error + option string.
Variable writeFile : option json → option json → completion unit.

(** X7: without a stored key code generation always fails: the reply of
    the mock provider has none of the required fields.  The error is
    'Codegen response missing required fields', and no file is written,
    whatever the step, the plan and the options are. *)
Theorem generateCodeForStep_without_key apiKey step plan options :
  truthy_key apiKey = false →
  generateCodeForStep create writeFile apiKey step plan options
  = mkGeneration (Throws (Error "Codegen response missing required fields")) [].
Proof.
  intros Hk. unfold generateCodeForStep. rewrite Hk, mock_reply_parsed. reflexivity.
Qed.

(** X8: a result that [generateCodeForStep] returns is an object with
    string members filename and content and a number member stepId, and the
    file writer has been called once, with these two strings, if the apply
    option is set, and not at all otherwise.  In every run the file writer
    is called at most once, and never when the option is not set. *)
Theorem generateCodeForStep_writes apiKey step plan options :
  let run := generateCodeForStep create writeFile apiKey step plan options in
  (∀ parsed, result run = Normal parsed →
     ∃ members filename content stepId,
       parsed = JObject members ∧
       last_member (units "filename") members = Some (JString filename) ∧
       last_member (units "content") members = Some (JString content) ∧
       last_member (units "stepId") members = Some (JNumber stepId) ∧
       writes run = if applies options
                    then [(Some (JString filename), Some (JString content))]
                    else []) ∧
  (applies options = false → writes run = []) ∧
  (length (writes run) ≤ 1)%nat.
Proof.
  unfold generateCodeForStep.
  destruct (if truthy_key apiKey then _ else _) as [raw| |]; simpl;
    [|split; [done|split; [done|lia]]..].
  destruct (try_catch _ _) as [parsed| |]; simpl;
    [|split; [done|split; [done|lia]]..].
  destruct (validateCodegenJson parsed) as [[]| |] eqn:Hv; simpl;
    [|split; [done|split; [done|lia]]..].
  apply validateCodegenJson_true in Hv as (ms & f & c & n & -> & Hf & Hc & Hn).
  unfold property. simpl. rewrite Hf, Hc.
  destruct (applies options); simpl.
  - destruct (writeFile _ _); simpl; (split; [|split; [done|lia]]); [|done..].
    intros ? [= <-]. by eexists _, _, _, _.
  - split; [|split; [done|lia]]. intros ? [= <-]. by eexists _, _, _, _.
Qed.
End Generate.

(** No key is stored and the apply option is set: nothing is written. *)
Lemma generateCodeForStep_without_key_witness :
  generateCodeForStep (λ _, inr None) (λ _ _, Normal tt) None
    (Steps.step 1 []) (Steps.plan_of [Steps.step 1 []]) (Some (Some true))
  = mkGeneration (Throws (Error "Codegen response missing required fields")) [].
Proof. apply generateCodeForStep_without_key. reflexivity. Defined.

End CodegenFacts.


(** ** Runs of [makeRequest] *)

Module Requests.
Import Layr Mistral Policy Waits Backoff Retry.
Local Open Scope nat_scope.

Lemma on_failure_Rethrow cfg attempt e :
  on_failure cfg attempt e = Rethrow ↔ refused e.
Proof.
  unfold on_failure, refused. destruct (is_axios e); simpl.
  - destruct (status e) as [s|]; simpl.
    + repeat case_bool_decide; simplify_eq; simpl;
        try (case_match; simpl); naive_solver lia.
    + case_match; naive_solver.
  - case_match; naive_solver.
Qed.

Lemma on_failure_delay_le cfg attempt e d :
  (0 <= maxDelay cfg)%Q → on_failure cfg attempt e = SleepThenRetry d →
  (d <= maxDelay cfg)%Q.
Proof.
  intros Hm. unfold on_failure.
  assert (Hhalf : (maxDelay cfg / 2 <= maxDelay cfg)%Q).
  { assert (He : (maxDelay cfg / 2 == maxDelay cfg * (1 # 2))%Q)
      by (unfold Qdiv; reflexivity).
    rewrite He. lra. }
  repeat case_match; intros [= <-]; try apply Q.le_min_r.
  eapply Qle_trans; [apply Q.le_min_r|done].
Qed.

Lemma total_bound m l :
  Forall (λ d, d <= m)%Q l → (total l <= inject_Z (Z.of_nat (length l)) * m)%Q.
Proof.
  induction 1 as [|d l Hd _ IH]; simpl length; simpl total.
  - assert (He : (inject_Z (Z.of_nat 0) * m == 0)%Q) by (simpl; ring).
    rewrite He. apply Qle_refl.
  - rewrite Nat2Z.inj_succ. unfold Z.succ. rewrite inject_Z_plus.
    change (inject_Z 1) with 1%Q.
    set (x := (inject_Z (Z.of_nat (length l)) * m)%Q) in *.
    assert (He : ((inject_Z (Z.of_nat (length l)) + 1) * m == x + m)%Q)
      by (unfold x; ring).
    rewrite He. lra.
Qed.

Section Run.
Variable cfg : RetryConfig.
Variable post : nat → js_error + ChatCompletionResponse.

Lemma attempts_sleeps remaining : ∀ attempt lastError slept0,
  (0 <= maxDelay cfg)%Q →
  Forall (λ d, d <= maxDelay cfg)%Q slept0 →
  Forall (λ d, d <= maxDelay cfg)%Q
    (slept (attempts cfg post remaining attempt lastError slept0)) ∧
  length (slept (attempts cfg post remaining attempt lastError slept0)) + attempt
  ≤ length slept0 + posts (attempts cfg post remaining attempt lastError slept0).
Proof.
  induction remaining as [|remaining IH]; intros attempt lastError slept0 Hm Hs;
    simpl; [split; [done|lia]|].
  destruct (post attempt) as [e|data]; simpl; [|split; [done|lia]].
  destruct (on_failure cfg attempt e) as [d| |] eqn:Hd; simpl.
  - destruct (IH (S attempt) (Some e) (slept0 ++ [d]) Hm) as [IH1 IH2].
    { apply Forall_app. split; [done|]. apply Forall_singleton.
      by eapply on_failure_delay_le. }
    split; [done|]. rewrite length_app in IH2. simpl in IH2. lia.
  - destruct (IH (S attempt) (Some e) slept0 Hm Hs) as [IH1 IH2].
    split; [done|]. lia.
  - split; [done|lia].
Qed.

Lemma attempts_run remaining : ∀ attempt lastError slept0,
  (lastError = None → remaining ≠ 0) →
  (∀ e, lastError = Some e → 0 < attempt ∧ post (attempt - 1) = inl e) →
  let r := attempts cfg post remaining attempt lastError slept0 in
  0 < posts r ∧ attempt ≤ posts r ∧
  (∀ i, attempt ≤ i → i < posts r - 1 → retried cfg post i) ∧
  match outcome r with
  | Normal data => post (posts r - 1) = inr data
  | Throws e =>
      post (posts r - 1) = inl e ∧
      (posts r = attempt + remaining ∨ on_failure cfg (posts r - 1) e = Rethrow)
  | OutOfFuel => False
  end.
Proof.
  induction remaining as [|remaining IH]; intros attempt lastError slept0 Hrem Hlast;
    simpl.
  - destruct lastError as [e|]; [|by destruct Hrem].
    destruct (Hlast e eq_refl) as [Ha He].
    simpl. split; [done|]. split; [done|]. split; [intros; lia|].
    split; [done|]. left. lia.
  - destruct (post attempt) as [e|data] eqn:Hp; simpl.
    + assert (Hnext : ∀ e', Some e = Some e' →
                0 < S attempt ∧ post (S attempt - 1) = inl e').
      { intros e' [= <-]. split; [lia|]. by rewrite Nat.sub_1_r. }
      assert (Hstep : ∀ slept1,
        let r := attempts cfg post remaining (S attempt) (Some e) slept1 in
        on_failure cfg attempt e ≠ Rethrow →
        0 < posts r ∧ attempt ≤ posts r ∧
        (∀ i, attempt ≤ i → i < posts r - 1 → retried cfg post i) ∧
        match outcome r with
        | Normal data => post (posts r - 1) = inr data
        | Throws e0 =>
            post (posts r - 1) = inl e0 ∧
            (posts r = attempt + S remaining ∨
             on_failure cfg (posts r - 1) e0 = Rethrow)
        | OutOfFuel => False
        end).
      { intros slept1 r Hne. subst r.
        destruct (IH (S attempt) (Some e) slept1 ltac:(done) Hnext)
          as (H0 & H1 & H2 & H3).
        split; [done|]. split; [lia|]. split.
        - intros i Hi Hlt. destruct (decide (i = attempt)) as [->|Hne'].
          + by exists e.
          + apply H2; lia.
        - destruct (outcome _); [done| |done].
          destruct H3 as [H3 H4]. split; [done|]. destruct H4; [left; lia|by right]. }
      destruct (on_failure cfg attempt e) as [d| |] eqn:Hd.
      * by apply Hstep.
      * by apply Hstep.
      * simpl. split; [lia|]. split; [lia|]. split; [intros; lia|].
        rewrite Nat.sub_0_r. split; [done|]. by right.
    + split; [lia|]. split; [lia|]. split; [intros; lia|]. by rewrite Nat.sub_0_r.
Qed.

Lemma retried_sleeps i :
  i < maxRetries cfg → retried cfg post i →
  ∃ e d, post i = inl e ∧ on_failure cfg i e = SleepThenRetry d.
Proof.
  intros Hi (e & He & Hr). exists e.
  destruct (on_failure cfg i e) as [d| |] eqn:Hd; [by exists d| |done].
  exfalso. unfold on_failure in Hd. apply Nat.ltb_lt in Hi. rewrite Hi in Hd.
  by repeat case_match.
Qed.

Lemma attempts_skip_sleeps k : ∀ remaining attempt lastError slept0,
  attempt + k ≤ maxRetries cfg →
  (∀ i, attempt ≤ i < attempt + k → retried cfg post i) →
  ∃ lastError' slept',
    length slept' = length slept0 + k ∧
    attempts cfg post (k + remaining) attempt lastError slept0
    = attempts cfg post remaining (attempt + k) lastError' slept'.
Proof.
  induction k as [|k IH]; intros remaining attempt lastError slept0 Hle Hr.
  - exists lastError, slept0. split; [lia|]. by rewrite Nat.add_0_r.
  - destruct (retried_sleeps attempt ltac:(lia) (Hr attempt ltac:(lia)))
      as (e & d & He & Hd).
    destruct (IH remaining (S attempt) (Some e) (slept0 ++ [d]) ltac:(lia))
      as (lastError' & slept' & Hlen & Heq).
    { intros i Hi. apply Hr. lia. }
    exists lastError', slept'. split.
    + rewrite Hlen, length_app. simpl. lia.
    + cbn [Nat.add attempts]. rewrite He, Hd, Heq. f_equal. lia.
Qed.

(** X9: when the first [a] requests fail in a way that is retried and the
    next one is answered, [makeRequest] returns that answer: it has sent
    [a + 1] requests and has waited once after each failure. *)
Theorem makeRequest_recovers a data :
  a ≤ maxRetries cfg → (∀ i, i < a → retried cfg post i) →
  post a = inr data →
  outcome (makeRequest cfg post) = Normal data ∧
  posts (makeRequest cfg post) = S a ∧
  length (slept (makeRequest cfg post)) = a.
Proof.
  intros Ha Hr Hd.
  assert (∃ lastError slept', length slept' = a ∧ makeRequest cfg post
            = attempts cfg post (S (maxRetries cfg - a)) a lastError slept')
    as (lastError & slept' & Hlen & ->).
  { unfold makeRequest.
    destruct (attempts_skip_sleeps a (S (maxRetries cfg - a)) 0 None [])
      as (lastError & slept' & Hlen & Hs); [lia|intros i Hi; apply Hr; lia|].
    exists lastError, slept'. split; [done|]. etrans; [|exact Hs]. f_equal. lia. }
  simpl. by rewrite Hd.
Qed.

(** X10: with a non-negative [maxDelay], no single wait of [makeRequest] is
    longer than [maxDelay]; there is at most one wait for each request sent,
    and at most [maxRetries + 1] requests are sent; so one call never
    sleeps more than [(maxRetries + 1) × maxDelay] in total. *)
Theorem makeRequest_sleeps :
  (0 <= maxDelay cfg)%Q →
  Forall (λ d, d <= maxDelay cfg)%Q (slept (makeRequest cfg post)) ∧
  length (slept (makeRequest cfg post)) ≤ posts (makeRequest cfg post) ∧
  posts (makeRequest cfg post) ≤ S (maxRetries cfg) ∧
  (total (slept (makeRequest cfg post))
   <= inject_Z (Z.of_nat (S (maxRetries cfg))) * maxDelay cfg)%Q.
Proof.
  intros Hm.
  destruct (attempts_sleeps (S (maxRetries cfg)) 0 None [] Hm (Forall_nil_2 _))
    as [Hall Hlen].
  pose proof (posts_bound cfg post (S (maxRetries cfg)) 0 None []) as Hp.
  fold (makeRequest cfg post) in Hall, Hlen, Hp. simpl in Hlen, Hp.
  split; [done|]. split; [lia|]. split; [lia|].
  eapply Qle_trans; [by apply total_bound|].
  apply Qmult_le_compat_r; [|done].
  rewrite <- Zle_Qle. lia.
Qed.

(** X11: every run of [makeRequest] ends at its last request: all requests
    before it failed and were retried; when the call returns, its result is
    the answer to the last request; when it throws, the error is the one
    of the last request, and either all [maxRetries + 1] requests have been
    sent or the error carries a status below 500 other than 429 and 402.
    The error 'Max retries exceeded' is never thrown. *)
Theorem makeRequest_run :
  let r := makeRequest cfg post in
  1 ≤ posts r ≤ S (maxRetries cfg) ∧
  (∀ i, i < posts r - 1 → retried cfg post i) ∧
  match outcome r with
  | Normal data => post (posts r - 1) = inr data
  | Throws e =>
      post (posts r - 1) = inl e ∧
      (posts r = S (maxRetries cfg) ∨ refused e)
  | OutOfFuel => False
  end.
Proof.
  intros r. subst r.
  destruct (attempts_run (S (maxRetries cfg)) 0 None [] ltac:(done) ltac:(done))
    as (H0 & _ & Hr & Ho).
  pose proof (posts_bound cfg post (S (maxRetries cfg)) 0 None []) as Hp.
  fold (makeRequest cfg post) in H0, Hr, Ho, Hp. simpl in Hp.
  split; [lia|]. split; [intros i Hi; apply Hr; lia|].
  destruct (outcome (makeRequest cfg post)) as [data|e|]; [done| |done].
  destruct Ho as [He Hc]. split; [done|].
  destruct Hc as [Hc|Hc]; [by left|right]. by apply on_failure_Rethrow in Hc.
Qed.
End Run.

(** Two answers 503, then a reply. *)
Lemma makeRequest_recovers_witness :
  outcome (makeRequest retryConfig (unavailable_then 2 (mkResponse [])))
    = Normal (mkResponse []) ∧
  posts (makeRequest retryConfig (unavailable_then 2 (mkResponse []))) = 3 ∧
  length (slept (makeRequest retryConfig (unavailable_then 2 (mkResponse [])))) = 2.
Proof.
  apply (makeRequest_recovers retryConfig (unavailable_then 2 (mkResponse [])) 2).
  - simpl. lia.
  - intros i Hi. exists (axios_error 503). split.
    + by destruct i as [|[|i]]; [..|lia].
    + intros H. apply on_failure_Rethrow in H as (_ & s & [= <-] & _ & Hs & _). lia.
  - reflexivity.
Defined.

(** The policy of the constructor: at most three minutes of sleep. *)
Lemma makeRequest_sleeps_witness :
  (total (slept (makeRequest retryConfig always_400)) <= 180000)%Q.
Proof.
  assert (Hm : (0 <= maxDelay retryConfig)%Q) by (unfold Qle; simpl; lia).
  destruct (makeRequest_sleeps retryConfig always_400 Hm) as (_ & _ & _ & H).
  eapply Qle_trans; [exact H|]. unfold Qle. simpl. lia.
Defined.

End Requests.


(** ** What the sanitizer extracts *)

Module Candidates.
Import Text Sanitizer.
Local Open Scope char_scope.

Local Abbreviation spaces := (Forall (λ c, is_space c = true)).
Local Notation "'collapse'" := (replace_pair backslash backslash [backslash]).

Local Ltac same_list :=
  unfold fence; cbn [list_ascii_of_string app];
  repeat (rewrite <- ?app_assoc; cbn [app]); reflexivity.

Lemma skip_while_spaces ws x r :
  spaces ws → is_space x = false → skip_while is_space (ws ++ x :: r) = x :: r.
Proof.
  intros Hws Hx. induction Hws as [|w ws Hw _ IH]; simpl.
  - by rewrite Hx.
  - by rewrite Hw.
Qed.

Lemma skip_while_app p pre x r :
  p x = false → skip_while p (pre ++ x :: r) = skip_while p pre ++ x :: r.
Proof.
  intros Hx. induction pre as [|c pre IH]; simpl.
  - by rewrite Hx.
  - by destruct (p c).
Qed.

Lemma skip_while_elem p x l : x ∈ skip_while p l → x ∈ l.
Proof.
  induction l as [|c l IH]; simpl; [done|].
  destruct (p c); [|done]. intros H. right. by apply IH.
Qed.

(** The right half of [trim]. *)
Lemma trim_right l y ws :
  is_space y = false → spaces ws →
  rev (skip_while is_space (rev (l ++ y :: ws))) = l ++ [y].
Proof.
  intros Hy Hws. rewrite rev_app_distr. simpl. rewrite <- app_assoc. simpl.
  rewrite skip_while_spaces; [|by apply Forall_rev|done].
  simpl. by rewrite rev_involutive.
Qed.

Lemma from_first_app c pre m :
  c ∉ pre → from_first c (pre ++ c :: m) = Some (c :: m).
Proof.
  induction pre as [|x pre IH]; simpl; intros Hc.
  - by rewrite bool_decide_eq_true_2.
  - rewrite bool_decide_eq_false_2 by set_solver. apply IH. set_solver.
Qed.

Lemma match_object_braces pre m :
  "{" ∉ pre →
  match_object (pre ++ "{" :: m ++ ["}"]) = Some ("{" :: m ++ ["}"]).
Proof.
  intros Hpre. unfold match_object.
  replace (pre ++ "{" :: m ++ ["}"]) with ((pre ++ "{" :: m) ++ ["}"])
    by (by rewrite <- app_assoc).
  rewrite rev_app_distr. cbn [rev app skip_while].
  change (is_space "}") with false. cbn match.
  rewrite rev_involutive, from_first_app by done. done.
Qed.

Lemma unfence_other l :
  head l ≠ Some "`" → unfence l = l.
Proof.
  intros Hl. unfold unfence, fence_json, fence. destruct l as [|c l]; [done|].
  simpl. rewrite bool_decide_eq_false_2; [done|]. intros <-. by apply Hl.
Qed.

Lemma strip_trailing_fence_app l y ws :
  is_space y = false → spaces ws →
  strip_trailing_fence (l ++ y :: ws ++ fence) = l ++ [y].
Proof.
  intros Hy Hws. unfold strip_trailing_fence, fence.
  replace (l ++ y :: ws ++ list_ascii_of_string "```")
    with ((l ++ y :: ws) ++ ["`"; "`"; "`"]) by (by rewrite <- app_assoc).
  rewrite rev_app_distr. cbn [rev app]. by apply trim_right.
Qed.

(** X12: a reply that ends, white space apart, in an object, with any text
    before it that holds neither an opening brace nor a backquote, is cut
    down to the object: from the first opening brace to the closing brace
    that ends the reply. *)
Theorem candidate_object pre m ws :
  "{" ∉ pre → "`" ∉ pre → spaces ws →
  candidate (pre ++ "{" :: m ++ "}" :: ws) = "{" :: m ++ ["}"].
Proof.
  intros Hbrace Htick Hws. unfold candidate, trim.
  rewrite skip_while_app by done.
  set (pre' := skip_while is_space pre).
  assert (Hin : ∀ x, x ∈ pre' → x ∈ pre) by (intros x; apply skip_while_elem).
  replace (pre' ++ "{" :: m ++ "}" :: ws) with ((pre' ++ "{" :: m) ++ "}" :: ws)
    by (by rewrite <- app_assoc).
  rewrite trim_right by done. rewrite <- app_assoc. cbn [app].
  rewrite unfence_other.
  - rewrite match_object_braces; [done|]. intros H. by apply Hbrace, Hin.
  - destruct pre' as [|c pre'']; [done|]. simpl. intros [= ->].
    apply Htick, Hin. by left.
Qed.

(** An object after a sentence, with a line feed at the end. *)
Lemma candidate_object_witness :
  candidate (list_ascii_of_string "Here is the plan: {}" ++ ["010"])
  = list_ascii_of_string "{}".
Proof.
  apply (candidate_object (list_ascii_of_string "Here is the plan: ") [] ["010"]).
  - apply (bool_decide_unpack _). by vm_compute.
  - apply (bool_decide_unpack _). by vm_compute.
  - by repeat constructor.
Defined.

Lemma unfence_trim_fenced (tagged : bool) ws0 ws1 m ws2 ws3 :
  spaces ws0 → spaces ws1 → spaces ws2 → spaces ws3 →
  unfence (trim (ws0 ++ (if tagged then fence_json else fence) ++ ws1 ++
                 "{" :: m ++ "}" :: ws2 ++ fence ++ ws3))
  = "{" :: m ++ ["}"].
Proof.
  intros H0 H1 H2 H3.
  set (body := "{" :: m ++ "}" :: ws2 ++ fence).
  assert (Htrim : trim (ws0 ++ (if tagged then fence_json else fence) ++ ws1 ++
                        "{" :: m ++ "}" :: ws2 ++ fence ++ ws3)
                  = (if tagged then fence_json else fence) ++ ws1 ++ body).
  { unfold trim.
    assert (∃ tag, (if tagged then fence_json else fence) = "`" :: tag) as [tag Htag]
      by (destruct tagged; by eexists).
    rewrite Htag. cbn [app]. rewrite skip_while_spaces by done.
    replace ("`" :: tag ++ ws1 ++ "{" :: m ++ "}" :: ws2 ++ fence ++ ws3)
      with (("`" :: tag ++ ws1 ++ "{" :: m ++ "}" :: ws2 ++ ["`"; "`"]) ++ "`" :: ws3)
      by same_list.
    rewrite trim_right by done. unfold body. same_list. }
  rewrite Htrim.
  assert (Hstrip : strip_trailing_fence (skip_while is_space (ws1 ++ body))
                   = "{" :: m ++ ["}"]).
  { unfold body. rewrite skip_while_spaces by done.
    by apply (strip_trailing_fence_app ("{" :: m)). }
  destruct tagged.
  - unfold unfence, strip_leading. by cbn.
  - assert (Hj : startsWith fence_json (fence ++ ws1 ++ body) = false).
    { unfold fence_json, fence, body. destruct H1 as [|w ws1 Hw _]; cbn; [done|].
      rewrite !bool_decide_eq_true_2 by done. cbn.
      rewrite bool_decide_eq_false_2; [done|]. by intros <-. }
    unfold unfence, strip_leading. rewrite Hj. by cbn.
Qed.

(** X13: an object inside a fence, tagged json or not, with any white space
    around the fences and between the fences and the object, is extracted
    as it is, whatever the object holds. *)
Theorem candidate_fenced (tagged : bool) ws0 ws1 m ws2 ws3 :
  spaces ws0 → spaces ws1 → spaces ws2 → spaces ws3 →
  candidate (ws0 ++ (if tagged then fence_json else fence) ++ ws1 ++
             "{" :: m ++ "}" :: ws2 ++ fence ++ ws3)
  = "{" :: m ++ ["}"].
Proof.
  intros H0 H1 H2 H3. unfold candidate.
  rewrite unfence_trim_fenced by done.
  pose proof (match_object_braces [] m ltac:(set_solver)) as Hm.
  cbn [app] in Hm. by rewrite Hm.
Qed.

(** A fenced object between blank lines. *)
Lemma candidate_fenced_witness :
  candidate (["010"] ++ fence_json ++ ["010"] ++ list_ascii_of_string "{}" ++
             ["010"] ++ fence ++ ["010"])
  = list_ascii_of_string "{}".
Proof.
  apply (candidate_fenced true ["010"] ["010"] [] ["010"] ["010"]);
    by repeat constructor.
Defined.

Lemma collapse_length n : ∀ l, (length l ≤ n)%nat →
  (length (collapse l) ≤ length l)%nat ∧
  (occurs [backslash; backslash] l → (length (collapse l) < length l)%nat).
Proof.
  induction n as [|n IH]; intros l Hl.
  - destruct l; simpl in Hl; [|lia]. split; [done|].
    intros (p & q & H). by destruct p.
  - destruct l as [|x [|y r]]; simpl in Hl.
    + split; [done|]. intros (p & q & H). by destruct p.
    + split; [done|]. intros (p & q & H). by destruct p as [|? [|]].
    + rewrite replace_pair_unfold.
      destruct (bool_decide (x = backslash) && bool_decide (y = backslash)) eqn:E.
      * destruct (IH r ltac:(lia)) as [IH1 _]. cbn [app length]. split; lia.
      * destruct (IH (y :: r) ltac:(simpl; lia)) as [IH1 IH2].
        cbn [length] in *. split; [lia|].
        intros (p & q & H). destruct p as [|c p]; cbn [app] in H.
        { injection H as -> -> _. by rewrite !bool_decide_eq_true_2 in E by done. }
        injection H as _ H.
        assert (occurs [backslash; backslash] (y :: r)) as Ho by by exists p, q.
        apply IH2 in Ho. lia.
Qed.

Lemma collapse_id n : ∀ l, (length l ≤ n)%nat →
  ¬ occurs [backslash; backslash] l → collapse l = l.
Proof.
  induction n as [|n IH]; intros l Hl Hno.
  - by destruct l; simpl in Hl; [|lia].
  - destruct l as [|x [|y r]]; [done..|]. simpl in Hl.
    rewrite replace_pair_unfold. case_match eqn:E.
    + apply andb_prop in E as [->%bool_decide_eq_true ->%bool_decide_eq_true].
      destruct Hno. by exists [], r.
    + f_equal. apply IH; [simpl; lia|]. intros (p & q & H). apply Hno.
      exists (x :: p), q. simpl. by rewrite H.
Qed.

Lemma strip_control_id l :
  Forall (λ c, is_control c = false) l → strip_control l = l.
Proof.
  intros H. unfold strip_control. induction H as [|c l Hc _ IH]; [done|].
  rewrite filter_cons, decide_True by done. by rewrite IH.
Qed.

Lemma strip_control_length l : (length (strip_control l) ≤ length l)%nat.
Proof. apply length_filter. Qed.

Lemma clean_fixed l :
  clean l = l ↔
  Forall (λ c, is_control c = false) l ∧ ¬ occurs [backslash; backslash] l.
Proof.
  rewrite clean_collapse. split.
  - intros H.
    assert (Hc : Forall (λ c, is_control c = false) l).
    { rewrite <- H.
      apply (replace_pair_Forall _ _ _ _ (length (strip_control l))); [done| |].
      - by apply Forall_singleton.
      - apply strip_control_Forall. }
    split; [done|]. rewrite strip_control_id in H by done.
    intros Ho. destruct (collapse_length _ l (le_n _)) as [_ Hlt].
    apply Hlt in Ho. rewrite H in Ho. lia.
  - intros [Hc Hno]. rewrite strip_control_id by done.
    by apply (collapse_id (length l)).
Qed.

(** X14: the clean-up leaves a text as it is exactly when the text holds
    no control character and no two backslashes in a row; every other text
    comes out shorter. *)
Theorem clean_unchanged l :
  (clean l = l ↔
   Forall (λ c, is_control c = false) l ∧ ¬ occurs [backslash; backslash] l) ∧
  (clean l ≠ l → (length (clean l) < length l)%nat).
Proof.
  split; [apply clean_fixed|]. rewrite clean_collapse. intros Hne.
  destruct (collapse_length _ (strip_control l) (le_n _)) as [Hle Hlt].
  pose proof (strip_control_length l) as Hs.
  destruct (decide (length (strip_control l) = length l)) as [He|]; [|lia].
  assert (Hid : strip_control l = l).
  { unfold strip_control in *. clear -He. induction l as [|c l IH]; [done|].
    rewrite filter_cons in *. pose proof (length_filter (λ c, is_control c = false) l).
    case_decide; simpl in *; [f_equal; apply IH; lia|lia]. }
  rewrite Hid in *.
  destruct (decide (length (collapse l) = length l)) as [He'|]; [|lia].
  exfalso. apply Hne. apply (collapse_id (length l)); [done|].
  intros Ho. apply Hlt in Ho. lia.
Qed.


End Candidates.


(** ** Fenced replies through the sanitizer and the parser *)

Module RoundTrip.
Import Text Json Layr Mistral Replies Fences Sanitizer Candidates.
Local Open Scope char_scope.





End RoundTrip.


(** ** The plans of the provider client *)

Module Plans.
Import Text Json Layr Mistral JsonFacts Replies Tasks Client.

Lemma or_else_truthy v d : truthy d = true → truthy (or_else v d) = true.
Proof.
  intros Hd. unfold or_else. destruct v as [v|]; [|done].
  by destruct (truthy v) eqn:Hv.
Qed.

Lemma or_else_defaulted v d : defaulted v d (or_else v d).
Proof. unfold defaulted, or_else. destruct v as [v|]; [|done]. by destruct (truthy v). Qed.

Lemma build_task_spec now index element t :
  build_task now index element = Normal t →
  Task.id t = task_id now index ∧ made_of index element t ∧ filled t ∧
  Task.createdAt t = now_iso (now (TaskCreatedAt index)) ∧
  Task.updatedAt t = now_iso (now (TaskUpdatedAt index)).
Proof.
  unfold build_task, made_of, Codegen.property. intros H.
  destruct (get element "title") as [title| |] eqn:H1; [|done..].
  destruct (get element "description") as [description| |] eqn:H2; [|done..].
  destruct (get element "status") as [status| |] eqn:H3; [|done..].
  destruct (get element "priority") as [priority| |] eqn:H4; [|done..].
  destruct (get element "estimatedDuration") as [duration| |] eqn:H5; [|done..].
  destruct (get element "dependencies") as [dependencies| |] eqn:H6; [|done..].
  simpl in H. injection H as <-. split; [done|]. split; [|split; [|done]].
  - simpl. repeat split; apply or_else_defaulted.
  - unfold filled; simpl. by rewrite !or_else_truthy.
Qed.

(** The tasks are built one for each element, in order. *)
Lemma build_tasks_spec now elements : ∀ index ts,
  build_tasks now index elements = Normal ts →
  Forall2 (λ i_element t, build_task now i_element.1 i_element.2 = Normal t)
    (zip (seq index (length elements)) elements) ts.
Proof.
  induction elements as [|element elements IH]; intros index ts H; simpl in H.
  - injection H as <-. constructor.
  - apply bind_Normal in H as (t & Ht & H).
    apply bind_Normal in H as (ts' & Hts & H). injection H as <-.
    cbn [length seq zip zip_with]. constructor; [done|]. by apply IH.
Qed.

Lemma list_ascii_of_string_app s t :
  list_ascii_of_string (s +:+ t) = list_ascii_of_string s ++ list_ascii_of_string t.
Proof. induction s as [|c s IH]; simpl; [done|]. by rewrite IH. Qed.

Lemma string_app_assoc s t u : (s +:+ t) +:+ u = s +:+ t +:+ u.
Proof.
  induction s as [|c s IH]; [done|].
  change (String c ((s +:+ t) +:+ u) = String c (s +:+ t +:+ u)). by rewrite IH.
Qed.

Lemma list_ascii_of_string_inj s t :
  list_ascii_of_string s = list_ascii_of_string t → s = t.
Proof.
  intros H. rewrite <- (string_of_list_ascii_of_string s),
    <- (string_of_list_ascii_of_string t). by rewrite H.
Qed.

(** The decimal digits of a number hold no underscore. *)
Lemma pretty_N_go_underscore x : ∀ s,
  "_"%char ∉ list_ascii_of_string s →
  "_"%char ∉ list_ascii_of_string (pretty_N_go x s).
Proof.
  induction (N.lt_wf_0 x) as [x _ IH]; intros s Hs.
  assert (x = 0 ∨ 0 < x)%N as [->|Hx] by lia; [by rewrite pretty_N_go_0|].
  rewrite pretty_N_go_step by done. apply IH; [by apply N.div_lt|].
  simpl. apply not_elem_of_cons. split; [|done].
  unfold pretty_N_char. by repeat case_match.
Qed.

Lemma pretty_nat_underscore (n : nat) : "_"%char ∉ list_ascii_of_string (pretty n).
Proof.
  unfold pretty, pretty_nat, pretty, pretty_N. case_decide.
  - simpl. set_solver.
  - apply pretty_N_go_underscore. simpl. set_solver.
Qed.

Lemma app_cons_unique {A} (x : A) l1 l2 r1 r2 :
  x ∉ l1 → x ∉ l2 → l1 ++ x :: r1 = l2 ++ x :: r2 → l1 = l2.
Proof.
  revert l2. induction l1 as [|a l1 IH]; intros [|b l2] H1 H2 H; simpl in H.
  - done.
  - injection H as -> _. set_solver.
  - injection H as -> _. set_solver.
  - injection H as -> H. f_equal. apply (IH l2); [set_solver|set_solver|done].
Qed.

(** An id that ends in an underscore and a number tells the number,
    whatever stands before. *)
Lemma numbered_inj a b (i j : nat) :
  a +:+ "_" +:+ pretty i = b +:+ "_" +:+ pretty j → i = j.
Proof.
  intros H. apply (f_equal list_ascii_of_string) in H.
  rewrite !list_ascii_of_string_app in H. simpl in H.
  apply (f_equal (@rev ascii)) in H. rewrite !rev_app_distr in H. simpl in H.
  rewrite <- !app_assoc in H. simpl in H.
  apply app_cons_unique in H.
  - apply (f_equal (@rev ascii)) in H. rewrite !rev_involutive in H.
    apply list_ascii_of_string_inj in H. by apply (inj pretty) in H.
  - intros Hin%list_elem_of_In%in_rev.
    by apply list_elem_of_In, pretty_nat_underscore in Hin.
  - intros Hin%list_elem_of_In%in_rev.
    by apply list_elem_of_In, pretty_nat_underscore in Hin.
Qed.

Lemma task_id_inj now i j : task_id now i = task_id now j → i = j.
Proof.
  unfold task_id. intros H.
  apply (numbered_inj ("task_" +:+ now_ms (now (TaskId i)))
                      ("task_" +:+ now_ms (now (TaskId j)))).
  by rewrite !string_app_assoc.
Qed.

Lemma parse_plan_spec now rnd content plan :
  parse_plan now rnd content = Normal plan →
  ∃ parsed title description elements,
    JSON_parse (sanitize (list_ascii_of_string content)) = Normal parsed ∧
    get parsed "title" = Normal (Some title) ∧
    get parsed "description" = Normal (Some description) ∧
    get parsed "tasks" = Normal (Some (JArray elements)) ∧
    truthy title = true ∧ truthy description = true ∧
    Plan.title plan = title ∧ Plan.description plan = description ∧
    build_tasks now 0 elements = Normal (Plan.tasks plan).
Proof.
  unfold parse_plan. intros H.
  apply bind_Normal in H as (parsed & Hp & H).
  apply bind_Normal in H as (title & Ht & H).
  apply bind_Normal in H as (description & Hd & H).
  apply bind_Normal in H as (tasks & Hts & H).
  destruct title as [title|]; [|done].
  destruct description as [description|]; [|done].
  destruct tasks as [[| | | |elements|]|]; try done.
  destruct (truthy title) eqn:Htt; [|done].
  destruct (truthy description) eqn:Htd; [|done]. simpl in H.
  apply bind_Normal in H as (ts & Hb & H). injection H as <-.
  by exists parsed, title, description, elements.
Qed.

Lemma built_ids now elements : ∀ index ts,
  Forall2 (λ i_element t, build_task now i_element.1 i_element.2 = Normal t)
    (zip (seq index (length elements)) elements) ts →
  Task.id <$> ts = task_id now <$> seq index (length elements).
Proof.
  induction elements as [|element elements IH]; intros index ts H;
    cbn [length seq zip zip_with] in *.
  - by apply Forall2_nil_inv_l in H as ->.
  - apply Forall2_cons_inv_l in H as (t & ts' & Ht & Hts & ->).
    apply build_task_spec in Ht as (Hid & _). simpl in Hid.
    rewrite !fmap_cons, Hid. f_equal. by apply IH.
Qed.

Lemma task_ids_NoDup now index n : NoDup (task_id now <$> seq index n).
Proof.
  apply NoDup_fmap_2_strong; [|apply NoDup_seq].
  intros i j _ _. apply task_id_inj.
Qed.

(** X15: a plan that [parseAndValidatePlan] returns has one task for each
    element of the array tasks of the reply, in the same order, each made
    by the callback from the element at its index; the id of the task at
    index [i] is task_<reading of the clock>_<i>, so the ids of the tasks
    are pairwise distinct, whatever the clock shows at each reading. *)
Theorem parseAndValidatePlan_tasks now rnd content plan :
  parseAndValidatePlan now rnd content = Normal plan →
  ∃ parsed elements,
    JSON_parse (sanitize (list_ascii_of_string content)) = Normal parsed ∧
    get parsed "tasks" = Normal (Some (JArray elements)) ∧
    length (Plan.tasks plan) = length elements ∧
    (∀ i element task,
       elements !! i = Some element → Plan.tasks plan !! i = Some task →
       build_task now i element = Normal task ∧
       Task.id task
       = "task_" +:+ now_ms (now (TaskId i)) +:+ "_" +:+ pretty i) ∧
    NoDup (Task.id <$> Plan.tasks plan).
Proof.
  intros H. apply try_catch_rethrow_Normal in H.
  apply parse_plan_spec in H
    as (parsed & title & description & elements & Hp & _ & _ & Hts & _ & _ & _ & _ & Hb).
  apply build_tasks_spec in Hb.
  pose proof (Forall2_length _ _ _ Hb) as Hlen.
  rewrite length_zip_with, length_seq, Nat.min_id in Hlen.
  exists parsed, elements. split; [done|]. split; [done|]. split; [done|]. split.
  - intros i element task He Ht.
    assert (Hz : zip (seq 0 (length elements)) elements !! i = Some (i, element)).
    { apply lookup_zip_with_Some. exists i, element. split; [done|]. split; [|done].
      apply lookup_seq. split; [done|]. by apply lookup_lt_Some in He. }
    pose proof (Forall2_lookup_lr _ _ _ _ _ _ Hb Hz Ht) as Hbt. simpl in Hbt.
    split; [done|]. by apply build_task_spec in Hbt as (Hid & _).
  - rewrite (built_ids _ _ _ _ Hb). apply task_ids_NoDup.
Qed.

(** A reply with two tasks, read while the clock advances. *)
Lemma parseAndValidatePlan_tasks_witness :
  ∃ plan,
    parseAndValidatePlan ticking "r4nd0m" two_tasks_reply = Normal plan ∧
    Task.id <$> Plan.tasks plan = ["task_1700000000000_0"; "task_1700000000001_1"] ∧
    NoDup (Task.id <$> Plan.tasks plan).
Proof.
  destruct (parseAndValidatePlan ticking "r4nd0m" two_tasks_reply) as [plan|e|] eqn:H;
    [|by vm_compute in H..].
  exists plan. split; [reflexivity|].
  destruct (parseAndValidatePlan_tasks ticking "r4nd0m" two_tasks_reply plan H)
    as (parsed & elements & _ & _ & _ & _ & Hn).
  split; [|exact Hn]. vm_compute in H. by injection H as <-.
Defined.

(** X16: in a plan that [parseAndValidatePlan] returns, the title and the
    description are those of the reply and are truthy; every field of
    every task is the field of its element when that is truthy, and
    otherwise its default: 'Task <index + 1>' for the title, the empty
    string for the description, 'todo' for the status, 'medium' for the
    priority, '1 hour' for the estimated duration and the empty array for
    the dependencies.  So every field but the description is truthy.  A
    number counts as falsy when it is zero as a double. *)
Theorem parseAndValidatePlan_filled now rnd content plan :
  parseAndValidatePlan now rnd content = Normal plan →
  ∃ parsed elements,
    JSON_parse (sanitize (list_ascii_of_string content)) = Normal parsed ∧
    get parsed "title" = Normal (Some (Plan.title plan)) ∧
    get parsed "description" = Normal (Some (Plan.description plan)) ∧
    get parsed "tasks" = Normal (Some (JArray elements)) ∧
    truthy (Plan.title plan) = true ∧ truthy (Plan.description plan) = true ∧
    ∀ i element task,
      elements !! i = Some element → Plan.tasks plan !! i = Some task →
      made_of i element task ∧ filled task.
Proof.
  intros H. apply try_catch_rethrow_Normal in H.
  apply parse_plan_spec in H
    as (parsed & title & description & elements & Hp & Hgt & Hgd & Hts & Ht & Hd
        & <- & <- & Hb).
  apply build_tasks_spec in Hb.
  exists parsed, elements. do 6 (split; [done|]).
  intros i element task He Hk.
  assert (Hz : zip (seq 0 (length elements)) elements !! i = Some (i, element)).
  { apply lookup_zip_with_Some. exists i, element. split; [done|]. split; [|done].
    apply lookup_seq. split; [done|]. by apply lookup_lt_Some in He. }
  pose proof (Forall2_lookup_lr _ _ _ _ _ _ Hb Hz Hk) as Hbt. simpl in Hbt.
  by apply build_task_spec in Hbt as (_ & Hm & Hf & _).
Qed.

(** A reply with two tasks: the first has no title. *)
Lemma parseAndValidatePlan_filled_witness :
  ∃ plan task,
    parseAndValidatePlan (frozen noon) "r4nd0m" two_tasks_reply = Normal plan ∧
    Plan.tasks plan !! 0%nat = Some task ∧
    Task.title task = jstring ("Task " +:+ pretty 1%nat) ∧ filled task.
Proof.
  destruct (parseAndValidatePlan (frozen noon) "r4nd0m" two_tasks_reply)
    as [plan|e|] eqn:H; [|by vm_compute in H..].
  exists plan.
  assert (∃ task, Plan.tasks plan !! 0%nat = Some task) as [task Hk].
  { pose proof H as H'. vm_compute in H'. injection H' as <-. by eexists. }
  exists task. split; [reflexivity|]. split; [exact Hk|].
  destruct (parseAndValidatePlan_filled (frozen noon) "r4nd0m" two_tasks_reply plan H)
    as (parsed & elements & Hp & _ & _ & Hg & _ & _ & Hall).
  assert (He : elements = [JObject []; JObject [(units "title", jstring "a")]]).
  { vm_compute in Hp. injection Hp as <-. vm_compute in Hg. by injection Hg as <-. }
  subst elements.
  destruct (Hall 0%nat (JObject []) task eq_refl Hk) as [(Htitle & _) Hf].
  split; [exact Htitle|exact Hf].
Defined.

Lemma fallback_ids_NoDup now prompt :
  NoDup (Task.id <$> Plan.tasks (getFallbackPlan now prompt)).
Proof.
  change (NoDup ((λ n, "task_" +:+ now_ms (now (FallbackTaskId n)) +:+ "_" +:+ pretty n)
                   <$> [1; 2; 3]%nat)).
  apply NoDup_fmap_2_strong.
  - intros i j _ _ H.
    apply (numbered_inj ("task_" +:+ now_ms (now (FallbackTaskId i)))
                        ("task_" +:+ now_ms (now (FallbackTaskId j)))).
    by rewrite !string_app_assoc.
  - apply NoDup_ListNoDup. repeat constructor; simpl; intuition discriminate.
Qed.

(** X17: [generatePlan] of the client always returns, and what it returns
    is a draft without metadata with a truthy title and description and
    with tasks whose ids are pairwise distinct, whatever the clock shows at
    each reading: the plan read from the reply and the fallback plan both
    are.  A reply whose title is falsy, as the number 1e-400 is, gives the
    fallback plan. *)
Theorem generatePlan_draft post now rnd prompt context :
  ∃ plan,
    generatePlan post now rnd prompt context = Normal plan ∧
    Plan.status plan = draft ∧ Plan.metadata plan = None ∧
    truthy (Plan.title plan) = true ∧ truthy (Plan.description plan) = true ∧
    NoDup (Task.id <$> Plan.tasks plan) ∧
    generatePlan (answers tiny_title_reply) now rnd prompt context
    = Normal (getFallbackPlan now prompt).
Proof.
  assert (Htiny : generatePlan (answers tiny_title_reply) now rnd prompt context
                  = Normal (getFallbackPlan now prompt)).
  { unfold generatePlan.
    assert (Hr : request_plan (answers tiny_title_reply) now rnd
                 = Throws (Error "Failed to parse plan: Invalid plan structure"))
      by by vm_compute.
    by rewrite Hr. }
  cut (∃ plan,
    generatePlan post now rnd prompt context = Normal plan ∧
    Plan.status plan = draft ∧ Plan.metadata plan = None ∧
    truthy (Plan.title plan) = true ∧ truthy (Plan.description plan) = true ∧
    NoDup (Task.id <$> Plan.tasks plan)).
  { intros (plan & H1 & H2 & H3 & H4 & H5 & H6). exists plan.
    repeat (split; [assumption|]). exact Htiny. }
  clear Htiny. unfold generatePlan.
  pose proof (request_plan_completes post now rnd) as Hc.
  destruct (request_plan post now rnd) as [plan|e|] eqn:Hr; simpl; [| |done].
  - exists plan. split; [done|]. unfold request_plan in Hr.
    apply bind_Normal in Hr as (response & _ & Hr).
    apply bind_Normal in Hr as (content & _ & Hr).
    pose proof (parseAndValidatePlan_fresh _ _ _ _ Hr) as (Hs & Hm & _ & _).
    apply try_catch_rethrow_Normal in Hr.
    apply parse_plan_spec in Hr
      as (parsed & title & description & elements & _ & _ & _ & _ & Ht & Hd & <- & <- & Hb).
    apply build_tasks_spec in Hb.
    do 4 (split; [done|]).
    rewrite (built_ids _ _ _ _ Hb). apply task_ids_NoDup.
  - exists (getFallbackPlan now prompt). split; [done|].
    do 4 (split; [done|]). apply fallback_ids_NoDup.
Qed.

(** X18: [critique] always returns a text that is not empty: the content
    of the reply, or one of two fixed texts when the reply has no content
    or the request failed. *)
Theorem critique_not_empty post plan context :
  ∃ text, critique post plan context = Normal text ∧ text ≠ "" ∧
    (fails (outcome (makeRequest retryConfig post)) → text = canned_critique) ∧
    (∀ response, outcome (makeRequest retryConfig post) = Normal response →
       text = match first_content response with
              | Some c => if String.eqb c "" then "Unable to generate critique." else c
              | None => "Unable to generate critique."
              end).
Proof.
  unfold critique, request_critique.
  pose proof (Retry.attempts_completes retryConfig post
                (S (maxRetries retryConfig)) 0 None []) as Hc.
  fold (makeRequest retryConfig post) in Hc.
  destruct (outcome (makeRequest retryConfig post)) as [response|e|]; simpl;
    [| |done].
  - eexists. split; [done|]. split; [|split; [by intros [e He]|by intros ? [= <-]]].
    destruct (first_content response) as [c|]; [|done].
    destruct (String.eqb c "") eqn:E; [done|]. by apply String.eqb_neq in E.
  - exists canned_critique. split; [done|]. split; [done|]. split; done.
Qed.

End Plans.


(** ** The sessions of the orchestrator *)

Module SessionFacts.
Import Json Layr Orchestrator Sessions Scenario Replies Stores.

Section Operations.
Variable this : LayerOrchestrator.
Variable now : string.
Variable toString : json → string.

Lemma attempt_providers_outcome p userPrompt context :
  match attempt_providers this p userPrompt context with
  | Normal (Some plan, lastError) =>
      tryGeneratePlan this p userPrompt context = Normal plan ∨
      (fails (tryGeneratePlan this p userPrompt context) ∧
       tryGeneratePlan this (other p) userPrompt context = Normal plan)
  | Normal (None, lastError) =>
      ∃ e, tryGeneratePlan this p userPrompt context = Throws e ∧ lastError = Some e
  | Throws _ => False
  | OutOfFuel => True
  end.
Proof.
  unfold attempt_providers.
  destruct (tryGeneratePlan this p userPrompt context) as [plan|e|]; simpl;
    [by left| |done].
  destruct (bool_decide _ && bool_decide _); [|by exists e].
  destruct (tryGeneratePlan this (other p) userPrompt context) as [plan|e'|]; simpl;
    [|by exists e|done].
  right. split; [by exists e|done].
Qed.

Lemma updateSession_lookup session :
  updateSession this now session !! Session.id session
  = Some (Session.mk (Session.id session) (Session.title session)
            (Session.description session) (Session.createdAt session) now
            (Session.conversation session) (Session.currentPlan session)
            (Session.plans session) (Session.metadata session)).
Proof. unfold updateSession. by rewrite lookup_insert_eq. Qed.

Lemma updateSession_lookup_ne session k :
  k ≠ Session.id session → updateSession this now session !! k = sessions this !! k.
Proof. intros Hk. unfold updateSession. by rewrite lookup_insert_ne. Qed.

(** X19: what [generatePlan] does to the session files.  For an unknown
    session it throws 'Session not found' and writes nothing.  Otherwise
    only the file of that session is written; unless a client runs out of
    fuel, the session keeps its id and creation time, is stamped with the
    time of the call, and has two messages more than before, the prompt of
    the user and one reply of the assistant; a plan is added to the plans,
    and made the current plan, exactly when the call returns it; when the
    call throws, the plans and the current plan stay as they were. *)
Theorem generatePlan_history sessionId userPrompt p :
  let r := generatePlan this now toString sessionId userPrompt p in
  (sessions this !! sessionId = None →
   r = (Throws (Error "Session not found"), sessions this)) ∧
  ∀ session, sessions this !! sessionId = Some session →
    (∀ k, k ≠ Session.id session → r.2 !! k = sessions this !! k) ∧
    (r = (OutOfFuel, sessions this) ∨
     ∃ s',
       r.2 !! Session.id session = Some s' ∧
       Session.id s' = Session.id session ∧
       Session.createdAt s' = Session.createdAt session ∧
       Session.updatedAt s' = now ∧
       (∃ reply, role reply = assistant ∧
          Session.conversation s' =
          Session.conversation session ++
            [mkConversationMessage user userPrompt now; reply]) ∧
       match r.1 with
       | Normal plan =>
           Session.plans s' = Session.plans session ++ [plan] ∧
           Session.currentPlan s' = Some plan
       | _ =>
           Session.plans s' = Session.plans session ∧
           Session.currentPlan s' = Session.currentPlan session
       end).
Proof.
  intros r. subst r. unfold generatePlan, getSession. split.
  - by intros ->.
  - intros session ->.
    pose proof (attempt_providers_outcome p userPrompt
      (Session.conversation (push (mkConversationMessage user userPrompt now) session)))
      as Ho.
    destruct (attempt_providers _ _ _ _) as [[[plan|] lastError]|e|];
      [| |done|]; cbn [fst snd].
    + split; [intros k Hk; apply updateSession_lookup_ne; exact Hk|]. right.
      eexists. split; [unfold updateSession; simpl; apply lookup_insert_eq|]. simpl.
      do 3 (split; [done|]). split; [|done].
      eexists. split; [|by rewrite <- app_assoc]. done.
    + split; [intros k Hk; apply updateSession_lookup_ne; exact Hk|]. right.
      eexists. split; [unfold updateSession; simpl; apply lookup_insert_eq|]. simpl.
      do 3 (split; [done|]). split; [|done].
      eexists. split; [|by rewrite <- app_assoc]. done.
    + split; [done|]. by left.
Qed.

Lemma availableProviders_one p :
  getLLMClient this p = None →
  bool_decide (1 < length (availableProviders this))%nat = false.
Proof.
  unfold getLLMClient, availableProviders. intros H.
  destruct p; rewrite H; simpl; [|destruct (mistralClient this); simpl];
    try destruct (deepseekClient this); simpl;
    first [done | apply bool_decide_eq_false_2; lia].
Qed.

(** X20: a provider without a client is never replaced by the other one.
    When the named provider has no client, [generatePlan], [refinePlan]
    and [getCritique] on a session that exists (and, for the last two,
    holds a plan) throw '<provider> client not available. Check your API
    key configuration.', whether or not the other provider has a client:
    the second attempt is made only when both clients exist. *)
Theorem provider_not_substituted sessionId session p :
  sessions this !! sessionId = Some session →
  getLLMClient this p = None →
  (∀ userPrompt,
     (generatePlan this now toString sessionId userPrompt p).1
     = Throws (not_available p)) ∧
  (∀ plan feedback, Session.currentPlan session = Some plan →
     (refinePlan this now toString sessionId feedback p).1
     = Throws (not_available p)) ∧
  (∀ plan, Session.currentPlan session = Some plan →
     getCritique this now sessionId p = (Throws (not_available p), sessions this)).
Proof.
  intros Hs Hc. pose proof (availableProviders_one p Hc) as Hone.
  split; [|split].
  - intros userPrompt. unfold generatePlan, getSession. rewrite Hs.
    unfold attempt_providers, tryGeneratePlan. rewrite Hc. simpl.
    by rewrite Hone.
  - intros plan feedback Hp. unfold refinePlan, getSession. rewrite Hs, Hp.
    unfold attempt_refinement, tryRefinePlan. rewrite Hc. simpl.
    by rewrite Hone.
  - intros plan Hp. unfold getCritique, getSession. by rewrite Hs, Hp, Hc.
Qed.

End Operations.

(** The Mistral key is not set, the DeepSeek key is. *)
Lemma provider_not_substituted_witness :
  (generatePlan only_deepseek "2023-11-14T22:13:20.000Z" no_text "s1"
     "Build a REST API" mistral).1
  = Throws (Error "mistral client not available. Check your API key configuration.").
Proof.
  destruct (provider_not_substituted only_deepseek "2023-11-14T22:13:20.000Z"
              no_text "s1" empty_session mistral) as (H & _ & _).
  - by vm_compute.
  - reflexivity.
  - exact (H "Build a REST API").
Defined.

(** X21: with the Mistral client configured, [generatePlan] for the
    provider 'mistral' never reaches the second provider.  The first
    attempt returns what the client returns, which is the client's own
    fallback plan when its request fails, so no error is left and the other
    provider is not asked, whatever client it has.  The session records
    the plan as its current plan, with the reply 'Generated plan: <title>',
    under the provider 'mistral'. *)
Theorem generatePlan_first_provider this now toString sessionId session userPrompt
    post clk rnd :
  sessions this !! sessionId = Some session →
  mistralClient this = Some (Mistral.MistralClient post clk rnd) →
  let context :=
    Session.conversation session ++ [mkConversationMessage user userPrompt now] in
  ∃ plan s',
    Mistral.generatePlan post clk rnd userPrompt context = Normal plan ∧
    (fails (Mistral.request_plan post clk rnd) →
     plan = Mistral.getFallbackPlan clk userPrompt) ∧
    attempt_providers this mistral userPrompt context = Normal (Some plan, None) ∧
    generatePlan this now toString sessionId userPrompt mistral
    = (Normal plan, <[Session.id session := s']> (sessions this)) ∧
    Session.currentPlan s' = Some plan ∧
    Session.plans s' = Session.plans session ++ [plan] ∧
    Session.conversation s' =
      Session.conversation session ++
        [mkConversationMessage user userPrompt now;
         mkConversationMessage assistant
           ("Generated plan: " +:+ toString (Plan.title plan)) now] ∧
    (Session.metadata s' ≫= llmProvider) = Some "mistral".
Proof.
  intros Hs Hc context.
  pose proof (Client.request_plan_completes post clk rnd) as Hcomp.
  destruct (Client.caught (Mistral.request_plan post clk rnd)
              (Mistral.getFallbackPlan clk userPrompt) Hcomp) as ([plan Hp] & Hf & _).
  fold (Mistral.generatePlan post clk rnd userPrompt context) in Hp, Hf.
  assert (Ha : attempt_providers this mistral userPrompt context
               = Normal (Some plan, None)).
  { unfold attempt_providers, tryGeneratePlan, getLLMClient. rewrite Hc. simpl.
    by rewrite Hp. }
  exists plan. eexists. split; [exact Hp|]. split.
  { intros Hfail. apply Hf in Hfail. congruence. }
  split; [exact Ha|].
  unfold generatePlan, getSession. rewrite Hs. cbn [Session.conversation push].
  fold context. rewrite Ha.
  split; [reflexivity|]. cbn. split; [done|]. split; [done|].
  split; [by rewrite <- app_assoc|done].
Qed.

(** The service answers 400 to the Mistral client: its fallback plan is
    returned and recorded. *)
Lemma generatePlan_first_provider_witness :
  ∃ s',
    generatePlan rejecting "2023-11-14T22:13:20.000Z" no_text "s1"
      "Build a REST API" mistral
    = (Normal (Mistral.getFallbackPlan (frozen noon) "Build a REST API"),
       <["s1" := s']> (sessions rejecting)) ∧
    (Session.metadata s' ≫= llmProvider) = Some "mistral".
Proof.
  destruct (generatePlan_first_provider rejecting "2023-11-14T22:13:20.000Z"
              no_text "s1" planned_session "Build a REST API"
              Policy.always_400 (frozen noon) "r4nd0m")
    as (plan & s' & _ & Hfail & _ & H & _ & _ & _ & Hm);
    [by vm_compute|reflexivity|].
  assert (Hplan : plan = Mistral.getFallbackPlan (frozen noon) "Build a REST API").
  { apply Hfail. eexists. by vm_compute. }
  subst plan. exists s'. split; [exact H|exact Hm].
Defined.

Lemma client_refinePlan_returns post clk rnd plan feedback context :
  ∃ refined,
    Mistral.refinePlan post clk rnd plan feedback context = Normal refined ∧
    Plan.id refined = Plan.id plan ∧
    (fails (Mistral.request_plan post clk rnd) → refined = plan).
Proof.
  unfold Mistral.refinePlan, Mistral.request_refinement.
  pose proof (Client.request_plan_completes post clk rnd) as Hc.
  destruct (Mistral.request_plan post clk rnd) as [reply|e|]; simpl; [| |done].
  - eexists. split; [done|]. split; [done|]. by intros [e He].
  - by exists plan.
Qed.

Lemma client_critique_returns post plan context :
  ∃ text, Mistral.critique post plan context = Normal text ∧ text ≠ "".
Proof.
  unfold Mistral.critique, Mistral.request_critique.
  pose proof (Retry.attempts_completes Mistral.retryConfig post
                (S (maxRetries Mistral.retryConfig)) 0 None []) as Hc.
  fold (Mistral.makeRequest Mistral.retryConfig post) in Hc.
  destruct (Mistral.outcome (Mistral.makeRequest Mistral.retryConfig post))
    as [response|e|]; simpl; [| |done].
  - eexists. split; [done|].
    destruct (Mistral.first_content response) as [c|]; [|done].
    destruct (String.eqb c "") eqn:E; [done|]. by apply String.eqb_neq in E.
  - by eexists.
Qed.

(** X22: with the Mistral client, [refinePlan] of the orchestrator never
    fails on a session that holds a plan, because the client hands back
    the plan it was given when its request fails.  The plan returned has
    the id of the current plan; it is appended to the plans of the session
    and reported as 'Refined plan: <title>', also when it is the unchanged
    plan of a failed request, and the interaction is counted. *)
Theorem refinePlan_with_client this now toString sessionId session plan feedback
    post clk rnd :
  sessions this !! sessionId = Some session →
  Session.currentPlan session = Some plan →
  mistralClient this = Some (Mistral.MistralClient post clk rnd) →
  ∃ refined s',
    refinePlan this now toString sessionId feedback mistral
    = (Normal refined, <[Session.id session := s']> (sessions this)) ∧
    Plan.id refined = Plan.id plan ∧
    (fails (Mistral.request_plan post clk rnd) → refined = plan) ∧
    Session.currentPlan s' = Some refined ∧
    Session.plans s' = Session.plans session ++ [refined] ∧
    Session.conversation s' =
      Session.conversation session ++
        [mkConversationMessage user ("Refine plan: " +:+ feedback) now;
         mkConversationMessage assistant
           ("Refined plan: " +:+ toString (Plan.title refined)) now] ∧
    (Session.metadata s' ≫= totalInteractions)
    = Some (default 0 (Session.metadata session ≫= totalInteractions) + 1)%nat.
Proof.
  intros Hs Hp Hc.
  destruct (client_refinePlan_returns post clk rnd plan feedback
    (Session.conversation session ++
       [mkConversationMessage user ("Refine plan: " +:+ feedback) now]))
    as (refined & Hr & Hid & Hsame).
  exists refined. eexists. unfold refinePlan, getSession. rewrite Hs, Hp.
  unfold attempt_refinement, tryRefinePlan, getLLMClient. rewrite Hc. simpl.
  rewrite Hr. simpl.
  split; [reflexivity|]. cbn. do 4 (split; [done|]).
  split; [by rewrite <- app_assoc|done].
Qed.

(** The service answers 400: the plan is recorded again. *)
Lemma refinePlan_with_client_witness :
  ∃ s',
    refinePlan rejecting "2023-11-14T22:13:20.000Z" no_text "s1" "shorter" mistral
    = (Normal active_plan, <["s1" := s']> (sessions rejecting)) ∧
    Session.plans s' = [active_plan; active_plan].
Proof.
  destruct (refinePlan_with_client rejecting "2023-11-14T22:13:20.000Z" no_text
              "s1" planned_session active_plan "shorter"
              Policy.always_400 (frozen noon) "r4nd0m")
    as (refined & s' & H & _ & Hsame & _ & Hplans & _);
    [by vm_compute|reflexivity|reflexivity|].
  assert (Hr : refined = active_plan).
  { apply Hsame. eexists. by vm_compute. }
  subst refined. exists s'. split; [exact H|exact Hplans].
Defined.

(** X23: with the Mistral client, [getCritique] never fails on a session
    that holds a plan, and its text is never empty.  It appends the request
    and the text, as 'Expert critique: <text>', to the conversation and
    counts the interaction; the plans and the current plan of the session
    stay as they were. *)
Theorem getCritique_with_client this now sessionId session plan post clk rnd :
  sessions this !! sessionId = Some session →
  Session.currentPlan session = Some plan →
  mistralClient this = Some (Mistral.MistralClient post clk rnd) →
  ∃ text s',
    getCritique this now sessionId mistral
    = (Normal text, <[Session.id session := s']> (sessions this)) ∧
    text ≠ "" ∧
    Session.conversation s' =
      Session.conversation session ++
        [mkConversationMessage user "Request expert critique of current plan" now;
         mkConversationMessage assistant ("Expert critique: " +:+ text) now] ∧
    Session.plans s' = Session.plans session ∧
    Session.currentPlan s' = Some plan ∧
    (Session.metadata s' ≫= totalInteractions)
    = Some (default 0 (Session.metadata session ≫= totalInteractions) + 1)%nat.
Proof.
  intros Hs Hp Hc.
  destruct (client_critique_returns post plan (Session.conversation session))
    as (text & Ht & Hne).
  exists text. eexists. unfold getCritique, getSession, getLLMClient.
  rewrite Hs, Hp, Hc. simpl. rewrite Ht.
  split; [reflexivity|]. cbn. split; [done|].
  split; [by rewrite <- app_assoc|done].
Qed.

(** The service answers 400: the canned critique is recorded. *)
Lemma getCritique_with_client_witness :
  ∃ text s',
    getCritique rejecting "2023-11-14T22:13:20.000Z" "s1" mistral
    = (Normal text, <["s1" := s']> (sessions rejecting)) ∧
    text ≠ "" ∧ Session.plans s' = [active_plan].
Proof.
  destruct (getCritique_with_client rejecting "2023-11-14T22:13:20.000Z"
              "s1" planned_session active_plan Policy.always_400 (frozen noon) "r4nd0m")
    as (text & s' & H & Hne & _ & Hplans & _);
    [by vm_compute|reflexivity|reflexivity|].
  exists text, s'. split; [exact H|]. split; [exact Hne|exact Hplans].
Defined.

End SessionFacts.


(** ** The plan command *)

Module Command.
Import Text Json Layr Orchestrator Sessions PlanCommand Scenario Replies Stores Typed.

Section Facts.
Variable this : LayerOrchestrator.
Variable clockAt : nat → clock.
Variable ms : nat → string.
Variable rnd : nat → string.
Variable toString : json → string.

(** When [generatePlan] of the orchestrator throws, it has saved the
    session with the prompt and the failure appended. *)
Lemma generatePlan_throws now sessionId session userPrompt p e store :
  sessions this !! sessionId = Some session →
  generatePlan this now toString sessionId userPrompt p = (Throws e, store) →
  store = updateSession this now
            (push (mkConversationMessage assistant
                     ("Failed to generate plan: " +:+ message e) now)
               (push (mkConversationMessage user userPrompt now) session)).
Proof.
  intros Hs. unfold generatePlan, getSession. rewrite Hs.
  pose proof (SessionFacts.attempt_providers_outcome this p userPrompt
    (Session.conversation (push (mkConversationMessage user userPrompt now) session)))
    as Ho.
  destruct (attempt_providers _ _ _ _) as [[[plan|] lastError]|e'|]; [done| |done..].
  destruct Ho as (e0 & _ & ->). simpl. by intros [= <- <-].
Qed.




(** X25: with only the DeepSeek key set, the plan command never reaches
    the DeepSeek client: with one provider available it asks for
    'mistral' without looking at which one it is, so the generation fails
    with 'mistral client not available. Check your API key
    configuration.' and all that is left is the mock plan, if the user
    takes it.  The refinement and the critique of the same command would
    start from the first available provider, DeepSeek. *)
Theorem planCommand_asks_for_mistral sessionId others session client typed :
  mistralClient this = None → deepseekClient this = Some client →
  sessions this !! sessionId = Some session →
  blank (taskDescription typed) = false →
  output (planCommand this clockAt ms rnd toString (sessionId :: others) typed)
  = displayError "Failed to generate plan"
      (Some "mistral client not available. Check your API key configuration.")
    :: (if useFallback typed
        then [displayPlan (createMockPlan (clockAt 1) ms rnd (taskDescription typed))]
        else []) ∧
  end_of_run (planCommand this clockAt ms rnd toString (sessionId :: others) typed)
  = Returned ∧
  ∀ choice, chosen (available this) choice (first_available this) = deepseek.
Proof.
  intros Hm Hd Hs Hb.
  assert (Ha : available this = ["deepseek"]).
  { unfold available, availableProviders. by rewrite Hm, Hd. }
  assert (Hg : ∀ now prompt, ∃ store,
    generatePlan this now toString sessionId prompt mistral
    = (Throws (not_available mistral), store)).
  { intros now prompt. unfold generatePlan, getSession. rewrite Hs.
    unfold attempt_providers, tryGeneratePlan, getLLMClient. rewrite Hm. simpl.
    unfold availableProviders. rewrite Hm, Hd. simpl. by eexists. }
  assert (Hc : chosen (available this) (providerChoice typed) mistral = mistral)
    by by rewrite Ha.
  assert (He : bool_decide (available this = []) = false) by by rewrite Ha.
  destruct (Hg (now_iso (clockAt 0)) (taskDescription typed)) as [store Hstore].
  split; [|split].
  - unfold planCommand, getSession. rewrite Hs, Hb, He, Hc, Hstore.
    by destruct (useFallback typed).
  - unfold planCommand, getSession. rewrite Hs, Hb, He, Hc, Hstore.
    by destruct (useFallback typed).
  - intros choice. unfold first_available. rewrite Ha. done.
Qed.

(** X26: when the generation fails and the user takes the mock plan, the
    command saves the session as it had loaded it before the call, with
    the mock plan added: the prompt and the failure message that
    [generatePlan] had appended to the conversation and saved are
    overwritten, and the conversation on file is the one from before the
    command. *)
Theorem planCommand_fallback_overwrites sessionId others session typed e :
  sessions this !! sessionId = Some session →
  blank (taskDescription typed) = false →
  available this ≠ [] →
  (generatePlan this (now_iso (clockAt 0)) toString sessionId
     (taskDescription typed)
     (chosen (available this) (providerChoice typed) mistral)).1 = Throws e →
  useFallback typed = true →
  ∃ saved final,
    (generatePlan this (now_iso (clockAt 0)) toString sessionId
       (taskDescription typed)
       (chosen (available this) (providerChoice typed) mistral)).2
      !! Session.id session = Some saved ∧
    Session.conversation saved =
      Session.conversation session ++
        [mkConversationMessage user (taskDescription typed) (now_iso (clockAt 0));
         mkConversationMessage assistant
           ("Failed to generate plan: " +:+ message e) (now_iso (clockAt 0))] ∧
    files (planCommand this clockAt ms rnd toString (sessionId :: others) typed)
      !! Session.id session = Some final ∧
    Session.conversation final = Session.conversation session ∧
    Session.currentPlan final
      = Some (createMockPlan (clockAt 1) ms rnd (taskDescription typed)) ∧
    Session.plans final
      = Session.plans session ++
          [createMockPlan (clockAt 1) ms rnd (taskDescription typed)].
Proof.
  intros Hs Hb Ha He Hf.
  destruct (generatePlan _ _ _ _ _ _) as [r store] eqn:Hg. simpl in He. subst r.
  pose proof (generatePlan_throws _ _ _ _ _ _ _ Hs Hg) as ->.
  eexists _, _. split; [unfold updateSession; simpl; apply lookup_insert_eq|].
  split; [simpl; by rewrite <- app_assoc|].
  unfold planCommand, getSession. rewrite Hs, Hb, bool_decide_eq_false_2 by done.
  rewrite Hg, Hf. simpl.
  split; [unfold updateSession; simpl; apply lookup_insert_eq|]. done.
Qed.

End Facts.

(** Only the DeepSeek key is set. *)
Lemma planCommand_asks_for_mistral_witness :
  output (planCommand only_deepseek still stamps same_draw no_text ["s1"] task_only)
  = [displayError "Failed to generate plan"
       (Some "mistral client not available. Check your API key configuration.");
     displayPlan (createMockPlan noon stamps same_draw "Build a REST API")].
Proof.
  destruct (planCommand_asks_for_mistral only_deepseek still stamps same_draw no_text
              "s1" [] empty_session (steady "DeepSeek" active_plan) task_only)
    as (H & _); [reflexivity|reflexivity|by vm_compute|by vm_compute|].
  exact H.
Defined.

(** The same run: the conversation on file is empty again. *)
Lemma planCommand_fallback_overwrites_witness :
  ∃ final,
    files (planCommand only_deepseek still stamps same_draw no_text ["s1"] task_only)
      !! "s1" = Some final ∧
    Session.conversation final = [].
Proof.
  destruct (planCommand_fallback_overwrites only_deepseek still stamps same_draw no_text
              "s1" [] empty_session task_only (not_available mistral))
    as (saved & final & _ & _ & Hf & Hc & _);
    [by vm_compute|by vm_compute|discriminate|by vm_compute|reflexivity|].
  exists final. split; [exact Hf|exact Hc].
Defined.


End Command.
